(** * A growable key-value table with a mutation counter

    Shallow embedding of [kv_store.c] / [kv_store.h] and of the stress
    harness that drives them.

    The store is a heap block holding the header fields and the flexible
    array of pairs; keys and values are separately allocated NUL-terminated
    strings.  The C functions are transcribed into a state-and-failure monad
    over that heap; [None] stands for undefined behaviour (a dangling or
    indeterminate pointer is dereferenced, an array is indexed out of
    bounds, an invalid pointer is freed).  Whether a request to [malloc],
    [realloc], [mtx_init] or [thrd_create] succeeds is read from a script
    carried by the state, so that every pattern of failures can be played.

    Blocks are sized in array slots.  [store_create] computes the byte count
    it hands to [malloc] in [size_t], as the source does, and the block has
    the slots that count leaves room for: a capacity beyond [MAX_CAPACITY]
    wraps the count, and the store is too small for the capacity it records.
    The count [realloc] is handed is not computed: it wraps only for a full
    store of 2^59 - 2 entries or more.  [size_t] and [unsigned] arithmetic on
    the header fields wraps around as in C.

    The internal mutex serialises whole calls: each function below is the
    body of one critical section, run to its end.  A run of the threaded
    harness, where every call is made under the main mutex, is an
    interleaving of the call sequences of its threads. *)

From Stdlib Require Import ZArith Lia.
From stdpp Require Import gmap strings list fin_maps pretty.

Local Open Scope Z_scope.

(** ** Machine integers (LP64: 32-bit [unsigned], 64-bit [size_t]) *)

Definition UINT_MAX : Z := 4294967295.

Definition SIZE_MAX : Z := 18446744073709551615.

Definition uint_wrap (z : Z) : Z := z mod (UINT_MAX + 1).

Definition size_wrap (z : Z) : Z := z mod (SIZE_MAX + 1).

(** The layout of kv_store.h under LP64 with glibc: [mtx_t] takes the first
    40 bytes of a store, [add_count], [item_count] and [capacity] follow at
    offsets 40, 48 and 56, and [pairs] starts at 64; a pair is two pointers. *)
Definition sizeof_mtx_t : Z := 40.
Definition sizeof_KeyValueStore : Z := 64.
Definition sizeof_KeyValuePair : Z := 16.

(** The pairs a block of [bytes] bytes has room for after the header. *)
Definition slots_of (bytes : Z) : nat :=
  Z.to_nat ((bytes - sizeof_KeyValueStore) / sizeof_KeyValuePair).

(** The largest capacity whose byte count fits [size_t]. *)
Definition MAX_CAPACITY : Z := (SIZE_MAX - sizeof_KeyValueStore) / sizeof_KeyValuePair.

(** ** Pointers, blocks, heap *)

(** [Wild] is the indeterminate content of memory that [malloc] or [realloc]
    handed out and nobody wrote yet. *)
Inductive pointer : Type :=
  | NULL
  | Ptr (a : positive)
  | Wild.

Record KeyValuePair : Type := mkPair { key : pointer; value : pointer }.

(** The header fields and the flexible array member; [length pairs] is the
    number of slots the block was allocated with. *)
Record KeyValueStore : Type := mkStore {
  add_count : Z;
  item_count : Z;
  capacity : Z;
  pairs : list KeyValuePair
}.

Inductive block : Type :=
  | Chars (s : string)
  | Table (st : KeyValueStore).

(** What the C library answers to the next request that may fail ([malloc],
    [realloc], [mtx_init]).  [InPlace] lets [realloc] resize without moving;
    for the other calls it means success. *)
Inductive decision : Type := Deny | Grant | InPlace.

(** The live blocks, and the script of upcoming library answers; once the
    script is exhausted every request is granted. *)
Record world : Type := mkWorld {
  heap : gmap positive block;
  faults : list decision
}.

#[global] Instance pointer_eq_dec : EqDecision pointer.
Proof. solve_decision. Defined.

#[global] Instance KeyValuePair_eq_dec : EqDecision KeyValuePair.
Proof. solve_decision. Defined.

#[global] Instance KeyValueStore_eq_dec : EqDecision KeyValueStore.
Proof. solve_decision. Defined.

#[global] Instance block_eq_dec : EqDecision block.
Proof. solve_decision. Defined.

(** ** The monad *)

Definition M (A : Type) : Type := world → option (A * world).

Definition ret {A} (x : A) : M A := λ w, Some (x, w).

Definition bind {A B} (m : M A) (k : A → M B) : M B := λ w,
  match m w with
  | Some (x, w') => k x w'
  | None => None
  end.

Declare Scope M_scope.

Notation "x ← y ; z" := (bind y (λ x : _, z))
  (at level 20, y at level 100, z at level 200, only parsing) : M_scope.

Notation "' x ← y ; z" := (bind y (λ x : _, z))
  (at level 20, x pattern, y at level 100, z at level 200, only parsing) : M_scope.

Notation "x ;; z" := (bind x (λ _, z))
  (at level 100, z at level 200, only parsing, right associativity) : M_scope.

Local Open Scope M_scope.

Definition undefined {A} : M A := λ _, None.

(** ** The C library *)

Definition next_decision : M decision := λ w,
  match faults w with
  | [] => Some (Grant, w)
  | d :: ds => Some (d, mkWorld (heap w) ds)
  end.

(** A live block has an address of its own, and [size_t]-wide pointers name
    at most [SIZE_MAX] non-null addresses: a request for a new block is
    refused, whatever the script says, once that many blocks are live. *)
Definition room (w : world) : bool := Z.of_nat (size (heap w)) <? SIZE_MAX.

Definition place (b : block) : M pointer := λ w,
  let a := fresh (dom (heap w)) in
  Some (Ptr a, mkWorld (<[a := b]> (heap w)) (faults w)).

(** [malloc] followed by the initialisation of the block with [b]. *)
Definition malloc (b : block) : M pointer :=
  d ← next_decision;
  match d with
  | Deny => ret NULL
  | _ => λ w, if room w then place b w else ret NULL w
  end.

Definition free (p : pointer) : M unit := λ w,
  match p with
  | NULL => Some ((), w)
  | Ptr a =>
      match heap w !! a with
      | Some _ => Some ((), mkWorld (delete a (heap w)) (faults w))
      | None => None
      end
  | Wild => None
  end.

Definition wild_pair : KeyValuePair := mkPair Wild Wild.

(** [realloc] of a store block to [slots] pairs: the header and the common
    prefix of the array are kept, new slots are indeterminate. *)
Definition resized (slots : Z) (st : KeyValueStore) : KeyValueStore :=
  mkStore (add_count st) (item_count st) (capacity st)
          (resize (Z.to_nat slots) wild_pair (pairs st)).

Definition realloc (a : positive) (slots : Z) : M pointer :=
  d ← next_decision;
  match d with
  | Deny => ret NULL
  | InPlace => λ w,
      match heap w !! a with
      | Some (Table st) =>
          Some (Ptr a, mkWorld (<[a := Table (resized slots st)]> (heap w)) (faults w))
      | _ => None
      end
  | Grant => λ w,
      match heap w !! a with
      | Some (Table st) =>
          if room w then
            bind (place (Table (resized slots st))) (λ p, free (Ptr a);; ret p) w
          else ret NULL w
      | _ => None
      end
  end.

Definition mtx_init : M bool :=
  d ← next_decision;
  ret (match d with Deny => false | _ => true end).

(** Reading and writing through a [KeyValueStore*]. *)
Definition load (a : positive) : M KeyValueStore := λ w,
  match heap w !! a with
  | Some (Table st) => Some (st, w)
  | _ => None
  end.

Definition modify (a : positive) (f : KeyValueStore → KeyValueStore) : M unit := λ w,
  match heap w !! a with
  | Some (Table st) => Some ((), mkWorld (<[a := Table (f st)]> (heap w)) (faults w))
  | _ => None
  end.

(** [store->pairs[i]], read and written in bounds only. *)
Definition pair_at (a : positive) (i : Z) : M KeyValuePair :=
  st ← load a;
  match pairs st !! Z.to_nat i with
  | Some p => ret p
  | None => undefined
  end.

Definition set_pair (a : positive) (i : Z) (f : KeyValuePair → KeyValuePair) : M unit :=
  p ← pair_at a i;
  modify a (λ st, mkStore (add_count st) (item_count st) (capacity st)
                          (<[Z.to_nat i := f p]> (pairs st))).

(** The string a [char*] points to. *)
Definition string_at (p : pointer) : M string := λ w,
  match p with
  | Ptr a =>
      match heap w !! a with
      | Some (Chars s) => Some (s, w)
      | _ => None
      end
  | _ => None
  end.

Definition atomic_fetch_add (a : positive) (n : Z) : M unit :=
  modify a (λ st, mkStore (uint_wrap (add_count st + n)) (item_count st)
                          (capacity st) (pairs st)).

(** [for (i = from; i < from + n; ++i) body], where [body] answers [Some r]
    to leave the loop with [r]. *)
Fixpoint for_loop {A} (from : Z) (n : nat) (body : Z → M (option A)) : M (option A) :=
  match n with
  | O => ret None
  | S n' =>
      r ← body from;
      match r with
      | Some x => ret (Some x)
      | None => for_loop (from + 1) n' body
      end
  end.

(** ** kv_store.c *)

(** The linear scan both [store_add_or_update_item] and [store_get_value]
    open with: [found i p] is the body of [if (strcmp(pairs[i].key, key) == 0)],
    which leaves the loop. *)
Definition scan_body {A} (a : positive) (k : string) (found : Z → KeyValuePair → M A)
    (i : Z) : M (option A) :=
  p ← pair_at a i;
  s ← string_at (key p);
  if String.eqb s k then x ← found i p; ret (Some x)
  else ret None.

Definition scan {A} (a : positive) (k : string) (found : Z → KeyValuePair → M A)
    : M (option A) :=
  st ← load a;
  for_loop 0 (Z.to_nat (item_count st)) (scan_body a k found).

Definition duplicate_string (src : option string) : M pointer :=
  match src with
  | None => ret NULL
  | Some s => malloc (Chars s)
  end.

(** [mtx_init] writes the mutex and the three stores after it write the
    fields: each is undefined when the block [malloc] gave is too small for
    it. *)
Definition store_create (initial_capacity : Z) : M pointer :=
  let initial_capacity := if initial_capacity =? 0 then 8 else initial_capacity in
  let bytes :=
    size_wrap (sizeof_KeyValueStore + size_wrap (initial_capacity * sizeof_KeyValuePair)) in
  store ← malloc (Table (mkStore 0 0 0 (replicate (slots_of bytes) wild_pair)));
  match store with
  | Ptr a =>
      if bytes <? sizeof_mtx_t then undefined
      else
        ok ← mtx_init;
        if ok : bool then
          if bytes <? sizeof_KeyValueStore then undefined
          else
            modify a (λ st, mkStore 0 0 initial_capacity (pairs st));;
            ret (Ptr a)
        else
          free (Ptr a);;
          ret NULL
  | _ => ret NULL
  end.

(** The body of the loop of [store_destroy]. *)
Definition destroy_body (a : positive) (i : Z) : M (option unit) :=
  p ← pair_at a i;
  free (key p);;
  free (value p);;
  ret None.

Definition store_destroy (store : pointer) : M unit :=
  match store with
  | NULL => ret ()
  | Ptr a =>
      st ← load a;
      for_loop 0 (Z.to_nat (item_count st)) (destroy_body a);;
      free (Ptr a)
  | Wild => undefined
  end.

(** The update arm of the scan: the body of the [if (strcmp(...) == 0)]. *)
Definition update_item (a : positive) (i : Z) (p : KeyValuePair) (v : string) : M bool :=
  new_value ← duplicate_string (Some v);
  match new_value with
  | NULL => ret false
  | _ =>
      free (value p);;
      set_pair a i (λ q, mkPair (key q) new_value);;
      atomic_fetch_add a 1;;
      ret true
  end.

(** Lines 65-75, making room for one more pair: answers the address the
    store lives at afterwards, [None] when [realloc] refused. *)
Definition grow_if_full (a : positive) : M (option positive) :=
  st ← load a;
  if item_count st >=? capacity st then
    let new_capacity := size_wrap (capacity st * 2) in
    new_store ← realloc a new_capacity;
    match new_store with
    | Ptr a' =>
        modify a' (λ st, mkStore (add_count st) (item_count st) new_capacity (pairs st));;
        ret (Some a')
    | _ => ret None
    end
  else ret (Some a).

(** Lines 77-92, the append that follows. *)
Definition append_item (a : positive) (k v : string) : M bool :=
  new_key ← duplicate_string (Some k);
  new_value ← duplicate_string (Some v);
  match new_key, new_value with
  | Ptr _, Ptr _ =>
      st ← load a;
      set_pair a (item_count st) (λ q, mkPair new_key (value q));;
      set_pair a (item_count st) (λ q, mkPair (key q) new_value);;
      modify a (λ st, mkStore (add_count st) (size_wrap (item_count st + 1))
                              (capacity st) (pairs st));;
      atomic_fetch_add a 1;;
      ret true
  | _, _ =>
      free new_key;;
      free new_value;;
      ret false
  end.

(** [store_ptr] is [None] for a null [KeyValueStore**], else the pointer it
    points to; the answer carries the content of [*store_ptr] on return. *)
Definition store_add_or_update_item (store_ptr : option pointer) (key0 value0 : option string)
    : M (bool * option pointer) :=
  match store_ptr, key0, value0 with
  | None, _, _ => ret (false, store_ptr)
  | Some NULL, _, _ => ret (false, store_ptr)
  | Some Wild, _, _ => undefined
  | Some (Ptr _), None, _ => ret (false, store_ptr)
  | Some (Ptr _), Some _, None => ret (false, store_ptr)
  | Some (Ptr a), Some k, Some v =>
      hit ← scan a k (λ i p, update_item a i p v);
      match hit with
      | Some done => ret (done, store_ptr)
      | None =>
          grown ← grow_if_full a;
          match grown with
          | Some a' => done ← append_item a' k v; ret (done, Some (Ptr a'))
          | None => ret (false, store_ptr)
          end
      end
  end.

Definition store_get_value (store : pointer) (key0 : option string) : M pointer :=
  match store, key0 with
  | NULL, _ => ret NULL
  | Wild, _ => undefined
  | Ptr _, None => ret NULL
  | Ptr a, Some k =>
      found ← scan a k (λ _ p, ret (value p));
      ret (default NULL found)
  end.

(** ** What a store holds *)

(** The store a pointer leads to. *)
Definition table (w : world) (p : pointer) : option KeyValueStore :=
  match p with
  | Ptr a =>
      match heap w !! a with
      | Some (Table st) => Some st
      | _ => None
      end
  | _ => None
  end.

(** The string a [char*] leads to in a given heap. *)
Definition text (h : gmap positive block) (p : pointer) : option string :=
  match p with
  | Ptr a =>
      match h !! a with
      | Some (Chars s) => Some s
      | _ => None
      end
  | _ => None
  end.

Definition entry (h : gmap positive block) (p : KeyValuePair) : option (string * string) :=
  match text h (key p), text h (value p) with
  | Some k, Some v => Some (k, v)
  | _, _ => None
  end.

(** [pairs[0..item_count)] *)
Definition live (st : KeyValueStore) : list KeyValuePair :=
  take (Z.to_nat (item_count st)) (pairs st).

(** The pointers a run of pairs owns. *)
Fixpoint owned (ps : list KeyValuePair) : list pointer :=
  match ps with
  | [] => []
  | p :: ps => key p :: value p :: owned ps
  end.

(** The key/value strings of [pairs[0..item_count)], in array order. *)
Definition entries (h : gmap positive block) (st : KeyValueStore) : list (string * string) :=
  omap (entry h) (live st).

Definition keys (h : gmap positive block) (st : KeyValueStore) : list string :=
  (entries h st).*1.

(** The first value stored under [k] in a list of entries. *)
Fixpoint assoc (k : string) (es : list (string * string)) : option string :=
  match es with
  | [] => None
  | (k', v) :: es => if String.eqb k' k then Some v else assoc k es
  end.

(** ** Well-formed stores *)

Record wf_store (h : gmap positive block) (st : KeyValueStore) : Prop := {
  wf_add_count : 0 ≤ add_count st ≤ UINT_MAX;
  wf_item_count : 0 ≤ item_count st ≤ capacity st;
  wf_capacity : 1 ≤ capacity st ≤ SIZE_MAX;
  wf_slots : Z.of_nat (length (pairs st)) = capacity st;
  wf_strings : Forall (λ q, is_Some (text h q)) (owned (live st));
  wf_separate : NoDup (owned (live st));
  wf_keys : NoDup (keys h st)
}.

(** [p] points to a well-formed store, in a heap that fits the address space. *)
Definition wf (w : world) (p : pointer) : Prop :=
  Z.of_nat (size (heap w)) ≤ SIZE_MAX ∧
  ∃ st, table w p = Some st ∧ wf_store (heap w) st.

(** The two ways a request for a fresh block can end; [fs] is what is left
    of the script.  With an empty script the request is refused only when
    no address is left. *)
Inductive allocated (b : block) (w : world) : pointer → world → Prop :=
  | allocated_null fs :
      (faults w = [] → fs = [] ∧ SIZE_MAX ≤ Z.of_nat (size (heap w))) →
      allocated b w NULL (mkWorld (heap w) fs)
  | allocated_ptr fs a :
      (faults w = [] → fs = []) →
      heap w !! a = None →
      Z.of_nat (size (heap w)) < SIZE_MAX →
      allocated b w (Ptr a) (mkWorld (<[a := b]> (heap w)) fs).

(** ** The scan *)

(** The first pair of a run whose key reads [k], with its position. *)
Definition first_hit (h : gmap positive block) (k : string) (ps : list KeyValuePair)
    : option (nat * KeyValuePair) :=
  list_find (λ p, text h (key p) = Some k) ps.

(** ** Growing a full store *)

(** The ways [realloc] can end on a store [st] living at [a]. *)
Inductive reallocated (w : world) (a : positive) (st : KeyValueStore) (slots : Z)
    : pointer → world → Prop :=
  | reallocated_null fs :
      (faults w = [] → fs = [] ∧ SIZE_MAX ≤ Z.of_nat (size (heap w))) →
      reallocated w a st slots NULL (mkWorld (heap w) fs)
  | reallocated_in_place fs :
      (faults w = [] → fs = []) →
      reallocated w a st slots (Ptr a)
        (mkWorld (<[a := Table (resized slots st)]> (heap w)) fs)
  | reallocated_moved fs a' :
      (faults w = [] → fs = []) →
      heap w !! a' = None →
      Z.of_nat (size (heap w)) < SIZE_MAX →
      reallocated w a st slots (Ptr a')
        (mkWorld (<[a' := Table (resized slots st)]> (delete a (heap w))) fs).

(** The store after lines 66-74 ran. *)
Definition grown (st : KeyValueStore) : KeyValueStore :=
  mkStore (add_count st) (item_count st) (size_wrap (capacity st * 2))
          (resize (Z.to_nat (size_wrap (capacity st * 2))) wild_pair (pairs st)).

(** The ways [grow_if_full] can end on a store [st] living at [a]. *)
Inductive growth (w : world) (a : positive) (st : KeyValueStore)
    : option positive → world → Prop :=
  | growth_not_needed :
      item_count st < capacity st →
      growth w a st (Some a) w
  | growth_refused fs :
      capacity st ≤ item_count st →
      (faults w = [] → fs = [] ∧ SIZE_MAX ≤ Z.of_nat (size (heap w))) →
      growth w a st None (mkWorld (heap w) fs)
  | growth_in_place fs :
      capacity st ≤ item_count st →
      (faults w = [] → fs = []) →
      growth w a st (Some a) (mkWorld (<[a := Table (grown st)]> (heap w)) fs)
  | growth_moved fs a' :
      capacity st ≤ item_count st →
      (faults w = [] → fs = []) →
      heap w !! a' = None →
      Z.of_nat (size (heap w)) < SIZE_MAX →
      growth w a st (Some a') (mkWorld (<[a' := Table (grown st)]> (delete a (heap w))) fs).

(** ** The store as a list of entries *)

(** Replace the value of the first entry stored under [k]. *)
Fixpoint overwrite (k v : string) (es : list (string * string)) : list (string * string) :=
  match es with
  | [] => []
  | (k', v') :: es => if String.eqb k' k then (k', v) :: es else (k', v') :: overwrite k v es
  end.

(** What a successful upsert does to the entries. *)
Definition upsert_entries (k v : string) (es : list (string * string))
    : list (string * string) :=
  match assoc k es with
  | Some _ => overwrite k v es
  | None => es ++ [(k, v)]
  end.

(** The pointer [store_get_value] answers for [k]. *)
Definition value_pointer (h : gmap positive block) (st : KeyValueStore) (k : string) : pointer :=
  match first_hit h k (live st) with
  | Some (_, p) => value p
  | None => NULL
  end.

(** What one call [store_add_or_update_item(&s, k, v)] answering [b] made of
    the store [st] in world [w]: the store [st'] in world [w']. *)
Record upsert_post (w : world) (st : KeyValueStore) (k v : string)
    (b : bool) (w' : world) (st' : KeyValueStore) : Prop := {
  post_add_count :
    add_count st' = if b then uint_wrap (add_count st + 1) else add_count st;
  post_entries :
    entries (heap w') st' =
    if b then upsert_entries k v (entries (heap w) st) else entries (heap w) st;
  post_item_count :
    item_count st' =
    if b && negb (bool_decide (k ∈ keys (heap w) st)) then item_count st + 1
    else item_count st;
  post_capacity :
    capacity st' = capacity st ∨
    (capacity st' = 2 * capacity st ∧ item_count st = capacity st ∧ k ∉ keys (heap w) st);
  post_released :
    k ∈ keys (heap w) st →
    if b then
      text (heap w') (value_pointer (heap w) st k) = None ∧
      size (heap w') = size (heap w)
    else heap w' = heap w ∧ st' = st
}.

(** ** Destruction *)

(** The heap once a run of pointers has been freed. *)
Definition release (qs : list pointer) (h : gmap positive block) : gmap positive block :=
  foldl (λ h q, match q with Ptr x => delete x h | _ => h end) h qs.

(** The heap without the blocks of the store at [a]: its table and the
    strings its live pairs point to. *)
Definition outside (h : gmap positive block) (a : positive) (st : KeyValueStore)
    : gmap positive block :=
  release (Ptr a :: owned (live st)) h.

(** ** Sessions: a caller issuing calls one after the other *)

Inductive call : Type :=
  | Upsert (k v : string)
  | Lookup (k : string).

Inductive answer : Type :=
  | Done (b : bool)
  | Found (p : pointer).

#[global] Instance call_eq_dec : EqDecision call.
Proof. solve_decision. Defined.

#[global] Instance answer_eq_dec : EqDecision answer.
Proof. solve_decision. Defined.

(** One call on the caller's variable [store]; answers what the call
    returned and what the variable holds afterwards. *)
Definition perform (c : call) (store : pointer) : M (answer * pointer) :=
  match c with
  | Upsert k v =>
      '(b, sp) ← store_add_or_update_item (Some store) (Some k) (Some v);
      ret (Done b, default store sp)
  | Lookup k =>
      p ← store_get_value store (Some k);
      ret (Found p, store)
  end.

Fixpoint session (cs : list call) (store : pointer) : M (list answer * pointer) :=
  match cs with
  | [] => ret ([], store)
  | c :: cs =>
      '(r, store) ← perform c store;
      '(rs, store) ← session cs store;
      ret (r :: rs, store)
  end.

(** The session that upserts a list of key/value pairs in order. *)
Definition upserts (kvs : list (string * string)) : list call :=
  map (λ kv, Upsert kv.1 kv.2) kvs.

(** The number of upserts of a session that answered [true]. *)
Fixpoint successes (rs : list answer) : Z :=
  match rs with
  | [] => 0
  | Done true :: rs => 1 + successes rs
  | _ :: rs => successes rs
  end.

(** The stores a caller can hold: created, with a capacity whose byte count
    fits [size_t], then driven by calls. *)
Inductive reachable : world → pointer → Prop :=
  | reachable_create w0 c a w :
      Z.of_nat (size (heap w0)) ≤ SIZE_MAX → 0 ≤ c ≤ MAX_CAPACITY →
      store_create c w0 = Some (Ptr a, w) →
      reachable w (Ptr a)
  | reachable_call w p c r p' w' :
      reachable w p →
      perform c p w = Some ((r, p'), w') →
      reachable w' p'.

(** The entries a session leaves, replayed on lists: only the upserts that
    answered [true] count. *)
Fixpoint replay (cs : list call) (rs : list answer) (es : list (string * string))
    : list (string * string) :=
  match cs, rs with
  | Upsert k v :: cs, Done true :: rs => replay cs rs (upsert_entries k v es)
  | _ :: cs, _ :: rs => replay cs rs es
  | _, _ => es
  end.

(** ** Concrete worlds *)

(** No block live, every request granted. *)
Definition empty_world : world := mkWorld ∅ [].

(** A full store of capacity 2 holding a ↦ 1 and b ↦ 2; the library will
    grant the next [realloc] in place, grant the [malloc] after it and deny
    the one after that. *)
Definition full_store : KeyValueStore :=
  mkStore 2 2 2 [mkPair (Ptr 2) (Ptr 3); mkPair (Ptr 4) (Ptr 5)].

Definition full_world : world :=
  mkWorld (list_to_map [(1%positive, Table full_store);
                        (2%positive, Chars "a"); (3%positive, Chars "1");
                        (4%positive, Chars "b"); (5%positive, Chars "2")])
          [InPlace; Grant; Deny].

(** A store whose counter stands at [UINT_MAX]. *)
Definition saturated_store : KeyValueStore :=
  mkStore UINT_MAX 1 8 (mkPair (Ptr 2) (Ptr 3) :: replicate 7 wild_pair).

Definition saturated_world : world :=
  mkWorld (list_to_map [(1%positive, Table saturated_store);
                        (2%positive, Chars "k"); (3%positive, Chars "v")])
          [].

(** The world after [store_create(2)] in the empty world. *)
Definition created_world : world :=
  match store_create 2 empty_world with
  | Some (_, w) => w
  | None => empty_world
  end.

(** ** The stress harness *)

(** The order in which a scheduler lets the threads take their next call:
    [interleave sched ts] runs thread [t] for one call at each [t] of
    [sched], and answers the calls in the order they ran when that ran
    every thread to its end. *)
Fixpoint interleave {A} (sched : list nat) (ts : list (list A)) : option (list A) :=
  match sched with
  | [] => if forallb (λ l, bool_decide (length l = 0%nat)) ts then Some [] else None
  | t :: sched =>
      match ts !! t with
      | Some (x :: xs) => cons x <$> interleave sched (<[t := xs]> ts)
      | _ => None
      end
  end.

(** The entries after a run of upserts that all answered [true]. *)
Definition upsert_all (kvs : list (string * string)) (es : list (string * string))
    : list (string * string) :=
  foldl (λ es kv, upsert_entries kv.1 kv.2 es) es kvs.

(** The value the last of a run of upserts gave to [k]. *)
Definition last_write (k : string) (kvs : list (string * string)) : option string :=
  snd <$> last (filter (λ kv, kv.1 = k) kvs).

(** [T] threads, [D] items each; [key t i] and [val t] are the strings
    thread [t] formats for its item [i], and [upd t] is the item whose key
    it upserts again at the end (item 0 in [worker_thread]).  The arguments
    of the calls a thread issues, in order: [D] inserts, then that update. *)
Definition worker_items (D : nat) (key : nat → nat → string) (val : nat → string)
    (upd : nat → nat) (t : nat) : list (string * string) :=
  ((λ i, (key t i, val t)) <$> seq 0 D) ++ [(key t (upd t), "UPDATED_VALUE"%string)].

Definition workers (T D : nat) (key : nat → nat → string) (val : nat → string)
    (upd : nat → nat) : list (list (string * string)) :=
  worker_items D key val upd <$> seq 0 T.

(** Every key of every thread. *)
Definition worker_keys (T D : nat) (key : nat → nat → string) : list string :=
  (λ s, key s.1 s.2) <$> list_prod (seq 0 T) (seq 0 D).

(** ** The harness of the source: 4 threads, 100 items each *)

Definition NUM_THREADS : nat := 4.
Definition ITEMS_PER_THREAD : nat := 100.

(** [worker_thread] ends with the update of its item 0. *)
Definition updated_item (t : nat) : nat := 0.

(** The largest [int]: thread ids and item numbers are [int]s. *)
Definition INT_MAX : Z := 2147483647.

(** [snprintf(key_buffer, 64, "key_t%d_i%d", thread_id, i)] *)
Definition thread_key (t i : nat) : string :=
  "key_t" +:+ pretty t +:+ "_i" +:+ pretty i.

(** [snprintf(value_buffer, 64, "value_from_thread_%d", thread_id)] *)
Definition thread_value (t : nat) : string :=
  "value_from_thread_" +:+ pretty t.

(** A scheduler that lets the threads take turns. *)
Definition round_robin : list nat :=
  concat (replicate (S ITEMS_PER_THREAD) (seq 0 NUM_THREADS)).

Definition round_robin_items : list (string * string) :=
  default [] (interleave round_robin
                (workers NUM_THREADS ITEMS_PER_THREAD thread_key thread_value updated_item)).

(** [p ? p : "NOT FOUND"], as [main] prints a looked-up value. *)
Definition shown (p : pointer) : M string :=
  match p with
  | NULL => ret "NOT FOUND"%string
  | _ => string_at p
  end.

(** [thrd_create], which the library may refuse. *)
Definition thrd_create : M bool :=
  d ← next_decision;
  ret (match d with Deny => false | _ => true end).

(** The loop of [main] that starts [n] threads; answers whether every
    [thrd_create] succeeded. *)
Fixpoint start_threads (n : nat) : M bool :=
  match n with
  | O => ret true
  | S n =>
      ok ← thrd_create;
      rest ← start_threads n;
      ret (ok && rest)
  end.

(** [main] under the scheduler [sched]: what it prints as actual item count,
    counter, value of key_t1_i50 and value of key_t1_i0; [None] when it
    returns 1.  The threads make their calls once all of them are started.
    Joining a thread that was never started is undefined, and [main] gets
    past its joins only when [sched] ran every thread to its end. *)
Definition main (sched : list nat) : M (option (Z * Z * string * string)) :=
  store ← store_create 10;
  match store with
  | Ptr _ =>
      ok ← mtx_init;
      if ok : bool then
        started ← start_threads NUM_THREADS;
        match started,
              interleave sched (workers NUM_THREADS ITEMS_PER_THREAD thread_key thread_value
                                        updated_item)
        with
        | true, Some items =>
            '(_, final_store) ← session (upserts items) store;
            match final_store with
            | Ptr a =>
                st ← load a;
                original_val ← store_get_value final_store (Some "key_t1_i50"%string);
                updated_val ← store_get_value final_store (Some "key_t1_i0"%string);
                original ← shown original_val;
                updated ← shown updated_val;
                store_destroy final_store;;
                ret (Some (item_count st, add_count st, original, updated))
            | _ => undefined
            end
        | _, _ => undefined
        end
      else
        store_destroy store;;
        ret None
  | _ => ret None
  end.

(** [m] leaves the script alone and answers within [P]. *)
Definition yields {A} (P : A → Prop) (m : M A) : Prop :=
  ∀ w x w', m w = Some (x, w') → P x ∧ faults w' = faults w.

(** * Proofs *)

(** ** Running monadic code *)

Lemma bind_run {A B} (m : M A) (k : A → M B) w x w1 :
  m w = Some (x, w1) → bind m k w = k x w1.
Proof. unfold bind. by intros ->. Qed.

Lemma table_heap w a st : table w (Ptr a) = Some st ↔ heap w !! a = Some (Table st).
Proof.
  simpl. destruct (heap w !! a) as [[s|st']|]; split; intros H; by simplify_eq.
Qed.

Lemma load_run a w st : table w (Ptr a) = Some st → load a w = Some (st, w).
Proof. intros H%table_heap. unfold load. by rewrite H. Qed.

Lemma modify_run a f w st :
  table w (Ptr a) = Some st →
  modify a f w = Some ((), mkWorld (<[a := Table (f st)]> (heap w)) (faults w)).
Proof. intros H%table_heap. unfold modify. by rewrite H. Qed.

Lemma pair_at_run a i w st p :
  table w (Ptr a) = Some st → pairs st !! Z.to_nat i = Some p →
  pair_at a i w = Some (p, w).
Proof.
  intros Hst Hp. unfold pair_at. rewrite (bind_run _ _ _ _ _ (load_run _ _ _ Hst)).
  by rewrite Hp.
Qed.

Lemma string_at_run w q s : text (heap w) q = Some s → string_at q w = Some (s, w).
Proof.
  destruct q as [|a|]; simpl; try done.
  destruct (heap w !! a) as [[s'|?]|]; intros; by simplify_eq.
Qed.

Lemma free_run w a b :
  heap w !! a = Some b →
  free (Ptr a) w = Some ((), mkWorld (delete a (heap w)) (faults w)).
Proof. intros H. unfold free. by rewrite H. Qed.

Lemma fresh_heap (h : gmap positive block) : h !! fresh (dom h) = None.
Proof. apply not_elem_of_dom, is_fresh. Qed.

Lemma malloc_cases b w : ∃ p w1, malloc b w = Some (p, w1) ∧ allocated b w p w1.
Proof.
  unfold malloc, bind, next_decision.
  assert (Hplace : ∀ fs, (faults w = [] → fs = []) → ∃ p w1,
    (if room (mkWorld (heap w) fs) then place b (mkWorld (heap w) fs)
     else ret NULL (mkWorld (heap w) fs)) = Some (p, w1) ∧ allocated b w p w1).
  { intros fs Hfs. unfold room, place, ret. simpl.
    destruct (Z.ltb_spec (Z.of_nat (size (heap w))) SIZE_MAX).
    - eexists _, _. split; [done|]. constructor; [done | apply fresh_heap | done].
    - eexists _, _. split; [done|]. constructor. auto. }
  destruct w as [h fs]. simpl in *.
  destruct fs as [|[] fs]; simpl; try (apply Hplace; done).
  eexists _, _. split; [done|]. by apply (allocated_null b (mkWorld h (Deny :: fs))).
Qed.

Lemma duplicate_string_cases s w :
  ∃ p w1, duplicate_string (Some s) w = Some (p, w1) ∧ allocated (Chars s) w p w1.
Proof. apply malloc_cases. Qed.

(** ** Views of the heap *)

Lemma text_Some h q s : text h q = Some s ↔ ∃ a, q = Ptr a ∧ h !! a = Some (Chars s).
Proof.
  split.
  - destruct q as [|a|]; simpl; try done.
    destruct (h !! a) as [[s'|?]|] eqn:E; intros; simplify_eq. by exists a.
  - intros (a & -> & H). simpl. by rewrite H.
Qed.

Lemma text_agree h h' q :
  (∀ a, q = Ptr a → h' !! a = h !! a) → text h' q = text h q.
Proof. destruct q as [|a|]; simpl; try done. intros H. by rewrite (H a). Qed.

Lemma owned_app ps1 ps2 : owned (ps1 ++ ps2) = owned ps1 ++ owned ps2.
Proof. induction ps1 as [|p ps1 IH]; simpl; by rewrite ?IH. Qed.

Lemma elem_of_owned q ps : q ∈ owned ps ↔ ∃ p, p ∈ ps ∧ (q = key p ∨ q = value p).
Proof.
  induction ps as [|p ps IH]; simpl.
  - split; [by intros ?%elem_of_nil | by intros (? & ?%elem_of_nil & _)].
  - rewrite !elem_of_cons, IH. split.
    + intros [->|[->|(p' & ? & ?)]]; [exists p|exists p|exists p']; rewrite elem_of_cons; auto.
    + intros (p' & [->|?]%elem_of_cons & [->| ->]); eauto 6.
Qed.

Lemma omap_entry_cons h p ps :
  omap (entry h) (p :: ps) =
  match entry h p with
  | Some e => e :: omap (entry h) ps
  | None => omap (entry h) ps
  end.
Proof. done. Qed.

Lemma entry_agree h h' p :
  (∀ a, Ptr a = key p ∨ Ptr a = value p → h' !! a = h !! a) → entry h' p = entry h p.
Proof.
  intros H. unfold entry.
  rewrite (text_agree h h' (key p)), (text_agree h h' (value p)); [done|..];
    intros a Ha; apply H; auto.
Qed.

Lemma omap_entry_agree h h' ps :
  (∀ a, Ptr a ∈ owned ps → h' !! a = h !! a) →
  omap (entry h') ps = omap (entry h) ps.
Proof.
  induction ps as [|p ps IH]; [done|]. intros H.
  rewrite !omap_entry_cons, (entry_agree h h' p), IH; [done|..].
  - intros a Ha. apply H. simpl. rewrite !elem_of_cons. auto.
  - intros a [Ha|Ha]; apply H; simpl; rewrite !elem_of_cons, Ha; auto.
Qed.

Lemma Forall_text_agree h h' qs :
  (∀ a, Ptr a ∈ qs → h' !! a = h !! a) →
  Forall (λ q, is_Some (text h q)) qs → Forall (λ q, is_Some (text h' q)) qs.
Proof.
  intros H. rewrite !Forall_forall. intros Hq q Hin.
  rewrite (text_agree h h' q); [by apply Hq|]. intros a ->. by apply H.
Qed.

(** A pair whose two strings are live reads as an entry. *)
Lemma entry_Some h p k v :
  text h (key p) = Some k → text h (value p) = Some v → entry h p = Some (k, v).
Proof. unfold entry. by intros -> ->. Qed.

Lemma entry_is_Some h p :
  is_Some (text h (key p)) → is_Some (text h (value p)) →
  ∃ k v, text h (key p) = Some k ∧ text h (value p) = Some v ∧ entry h p = Some (k, v).
Proof. intros [k Hk] [v Hv]. exists k, v. by rewrite (entry_Some h p k v). Qed.

Lemma omap_entry_length h ps :
  Forall (λ q, is_Some (text h q)) (owned ps) → length (omap (entry h) ps) = length ps.
Proof.
  induction ps as [|p ps IH]; [done|]. intros H.
  apply Forall_cons in H as [Hk H]. apply Forall_cons in H as [Hv H].
  destruct (entry_is_Some h p Hk Hv) as (k & v & _ & _ & He).
  rewrite omap_entry_cons, He. simpl. by rewrite IH.
Qed.

Lemma for_loop_scan {A} a k (found : Z → KeyValuePair → M A) w st ps o :
  table w (Ptr a) = Some st →
  (∀ j p, ps !! j = Some p → pairs st !! (o + j)%nat = Some p) →
  Forall (λ p, is_Some (text (heap w) (key p))) ps →
  for_loop (Z.of_nat o) (length ps) (scan_body a k found) w =
  match first_hit (heap w) k ps with
  | Some (j, p) => bind (found (Z.of_nat (o + j)) p) (λ x, ret (Some x)) w
  | None => Some (None, w)
  end.
Proof.
  intros Hst. revert o. induction ps as [|p ps IH]; intros o Hps Hkeys; [done|].
  apply Forall_cons in Hkeys as [[s Hs] Hkeys].
  assert (Hp : pairs st !! Z.to_nat (Z.of_nat o) = Some p).
  { rewrite Nat2Z.id, <- (Nat.add_0_r o). by apply Hps. }
  cbn [length for_loop]. unfold scan_body at 1.
  unfold bind at 1 2. rewrite (pair_at_run a _ w st p Hst Hp).
  unfold bind at 1. rewrite (string_at_run w _ s Hs).
  unfold first_hit. cbn [list_find]. rewrite Hs.
  destruct (String.eqb_spec s k) as [->|Hne].
  - rewrite decide_True by done. rewrite Nat.add_0_r.
    unfold bind. by destruct (found (Z.of_nat o) p w) as [[x w1]|].
  - rewrite decide_False by congruence.
    unfold ret at 1. replace (Z.of_nat o + 1) with (Z.of_nat (S o)) by lia.
    rewrite IH; [|intros j q Hq; rewrite Nat.add_succ_l, <- Nat.add_succ_r; by apply Hps|done].
    unfold first_hit.
    destruct (list_find _ ps) as [[j q]|]; simpl; [|done].
    by rewrite Nat.add_succ_r.
Qed.

Lemma live_lookup st j p : live st !! j = Some p → pairs st !! j = Some p.
Proof. unfold live. intros H. by apply lookup_take_Some in H as [? _]. Qed.

Lemma live_length st :
  0 ≤ item_count st ≤ Z.of_nat (length (pairs st)) →
  length (live st) = Z.to_nat (item_count st).
Proof. intros H. unfold live. rewrite length_take. lia. Qed.

Lemma Forall_owned_keys (P : pointer → Prop) ps :
  Forall P (owned ps) → Forall (λ p, P (key p)) ps.
Proof.
  induction ps as [|p ps IH]; simpl; [constructor|].
  intros H. apply Forall_cons in H as [Hk H]. apply Forall_cons in H as [_ H]. auto.
Qed.

Lemma scan_run {A} a k (found : Z → KeyValuePair → M A) w st :
  table w (Ptr a) = Some st → wf_store (heap w) st →
  scan a k found w =
  match first_hit (heap w) k (live st) with
  | Some (j, p) => bind (found (Z.of_nat j) p) (λ x, ret (Some x)) w
  | None => Some (None, w)
  end.
Proof.
  intros Hst Hwf. unfold scan. rewrite (bind_run _ _ _ _ _ (load_run _ _ _ Hst)).
  rewrite <- live_length by (destruct Hwf; lia).
  apply (for_loop_scan a k found w st (live st) 0 Hst).
  - intros j p. apply live_lookup.
  - apply (Forall_owned_keys (λ q, is_Some (text (heap w) q))), Hwf.
Qed.

Lemma assoc_first_hit h k ps :
  Forall (λ q, is_Some (text h q)) (owned ps) →
  assoc k (omap (entry h) ps) =
  match first_hit h k ps with
  | Some (_, p) => text h (value p)
  | None => None
  end.
Proof.
  induction ps as [|p ps IH]; [done|]. intros H.
  apply Forall_cons in H as [Hk H]. apply Forall_cons in H as [Hv H].
  destruct (entry_is_Some h p Hk Hv) as (k' & v' & Hk' & Hv' & He).
  rewrite omap_entry_cons, He. unfold first_hit. cbn [assoc list_find]. rewrite Hk'.
  destruct (String.eqb_spec k' k) as [->|Hne].
  - by rewrite decide_True.
  - rewrite decide_False by congruence. rewrite IH by done. unfold first_hit.
    by destruct (list_find _ ps) as [[j q]|].
Qed.

Lemma assoc_None_keys k es : assoc k es = None ↔ k ∉ es.*1.
Proof.
  induction es as [|[k' v'] es IH]; simpl.
  - split; [intros _; apply not_elem_of_nil | done].
  - rewrite not_elem_of_cons. destruct (String.eqb_spec k' k) as [->|Hne].
    + split; [done | by intros [? _]].
    + rewrite IH. split; [by split | by intros [_ ?]].
Qed.

Lemma elem_assoc k v es : NoDup es.*1 → (k, v) ∈ es → assoc k es = Some v.
Proof.
  induction es as [|[k' v'] es IH]; simpl; [by intros _ ?%elem_of_nil|].
  intros [Hk' Hnd]%NoDup_cons [Heq|Hin]%elem_of_cons.
  - simplify_eq. by rewrite String.eqb_refl.
  - destruct (String.eqb_spec k' k) as [->|Hne]; [|by apply IH].
    destruct Hk'. apply (list_elem_of_fmap_2 fst) in Hin. done.
Qed.

Lemma set_pair_run a i f w st p :
  table w (Ptr a) = Some st → pairs st !! Z.to_nat i = Some p →
  set_pair a i f w =
  Some ((), mkWorld (<[a := Table (mkStore (add_count st) (item_count st) (capacity st)
                                           (<[Z.to_nat i := f p]> (pairs st)))]> (heap w))
                    (faults w)).
Proof.
  intros Hst Hp. unfold set_pair.
  rewrite (bind_run _ _ _ _ _ (pair_at_run a i w st p Hst Hp)).
  by rewrite (modify_run a _ w st Hst).
Qed.

Lemma atomic_fetch_add_run a n w st :
  table w (Ptr a) = Some st →
  atomic_fetch_add a n w =
  Some ((), mkWorld (<[a := Table (mkStore (uint_wrap (add_count st + n)) (item_count st)
                                           (capacity st) (pairs st))]> (heap w))
                    (faults w)).
Proof. intros Hst. unfold atomic_fetch_add. by rewrite (modify_run a _ w st Hst). Qed.

Lemma table_insert h fs a st : table (mkWorld (<[a := Table st]> h) fs) (Ptr a) = Some st.
Proof. apply table_heap. cbn. by rewrite lookup_insert_eq. Qed.

(** ** Updating the value of a key that is present *)

Lemma update_item_run w a st j p k v :
  table w (Ptr a) = Some st → wf_store (heap w) st →
  first_hit (heap w) k (live st) = Some (j, p) →
  ∃ b w', update_item a (Z.of_nat j) p v w = Some (b, w') ∧
    if b : bool then
      ∃ an va old, value p = Ptr va ∧ heap w !! va = Some (Chars old) ∧
        heap w !! an = None ∧ Z.of_nat (size (heap w)) < SIZE_MAX ∧
        heap w' = <[a := Table (mkStore (uint_wrap (add_count st + 1)) (item_count st)
                              (capacity st)
                              (<[j := mkPair (key p) (Ptr an)]> (pairs st)))]>
                    (delete va (<[an := Chars v]> (heap w)))
    else heap w' = heap w.
Proof.
  intros Hst Hwf Hhit. unfold first_hit in Hhit.
  apply list_find_Some in Hhit as (Hj & Hk & Hfirst).
  assert (Hp : pairs st !! j = Some p) by by apply live_lookup.
  assert (Hown : value p ∈ owned (live st)).
  { apply elem_of_owned. exists p. split; [by eapply list_elem_of_lookup_2 | by right]. }
  destruct Hwf as [_ _ _ _ Hstr _ _].
  rewrite Forall_forall in Hstr. destruct (Hstr _ Hown) as [old Hold].
  apply text_Some in Hold as (va & Hva & Hold).
  unfold update_item.
  destruct (duplicate_string_cases v w) as (q & w1 & Hdup & Halloc).
  rewrite (bind_run _ _ _ _ _ Hdup).
  destruct Halloc as [fs _|fs an _ Han Hroom].
  { exists false. eexists. split; [done|done]. }
  exists true. rewrite Hva.
  assert (Hne : an ≠ va) by congruence.
  assert (Ha : heap w !! a = Some (Table st)) by by apply table_heap.
  assert (Haa : a ≠ an ∧ a ≠ va) by (split; congruence). destruct Haa as [Haan Hava].
  set (h1 := <[an:=Chars v]> (heap w)).
  assert (H1 : heap (mkWorld h1 fs) !! va = Some (Chars old)).
  { cbn. unfold h1. by rewrite lookup_insert_ne. }
  rewrite (bind_run _ _ _ _ _ (free_run _ va _ H1)). cbn [heap faults].
  set (h2 := delete va h1).
  assert (H2 : table (mkWorld h2 fs) (Ptr a) = Some st).
  { apply table_heap. cbn. unfold h2, h1. by rewrite lookup_delete_ne, lookup_insert_ne. }
  rewrite (bind_run _ _ _ _ _ (set_pair_run a _ _ _ st p H2 ltac:(by rewrite Nat2Z.id))).
  cbn [heap faults].
  rewrite (bind_run _ _ _ _ _ (atomic_fetch_add_run a _ _ _ (table_insert _ _ _ _))).
  cbn [heap faults add_count item_count capacity pairs key value].
  eexists. split; [done|]. exists an, va, old. cbn [heap].
  rewrite insert_insert_eq, Nat2Z.id. done.
Qed.

Lemma uint_wrap_range z : 0 ≤ uint_wrap z ≤ UINT_MAX.
Proof. unfold uint_wrap, UINT_MAX. pose proof (Z.mod_pos_bound z (4294967295 + 1)). lia. Qed.

Lemma live_insert st j p' c cap :
  (j < length (live st))%nat →
  live (mkStore c (item_count st) cap (<[j := p']> (pairs st))) =
  take j (live st) ++ p' :: drop (S j) (live st).
Proof.
  intros Hj. unfold live in *. cbn [item_count pairs].
  rewrite take_insert_lt by (rewrite length_take in Hj; lia).
  by rewrite insert_take_drop.
Qed.

Lemma update_item_abstract h a st j p k v an va old :
  h !! a = Some (Table st) → wf_store h st →
  live st !! j = Some p → text h (key p) = Some k →
  (∀ i y, live st !! i = Some y → (i < j)%nat → text h (key y) ≠ Some k) →
  value p = Ptr va → h !! va = Some (Chars old) → h !! an = None →
  let st' := mkStore (uint_wrap (add_count st + 1)) (item_count st) (capacity st)
                     (<[j := mkPair (key p) (Ptr an)]> (pairs st)) in
  let h' := <[a := Table st']> (delete va (<[an := Chars v]> h)) in
  wf_store h' st' ∧
  ∃ es1 es2, entries h st = es1 ++ (k, old) :: es2 ∧
             entries h' st' = es1 ++ (k, v) :: es2 ∧
             k ∉ es1.*1.
Proof.
  intros Ha Hwf Hj Hk Hfirst Hva Hold Han st' h'.
  destruct Hwf as [Hadd Hitem Hcap Hslots Hstr Hsep Hkeys].
  pose proof (take_drop_middle _ _ _ Hj) as Hsplit.
  set (l1 := take j (live st)) in *. set (l2 := drop (S j) (live st)) in *.
  assert (Hlive' : live st' = l1 ++ mkPair (key p) (Ptr an) :: l2).
  { apply live_insert. by eapply lookup_lt_Some. }
  assert (Hk1 : ∀ y, y ∈ l1 → text h (key y) ≠ Some k).
  { intros y (i & Hy & Hi)%elem_of_take. by apply (Hfirst i). }
  unfold keys, entries in *. rewrite Hlive'. rewrite <- Hsplit in Hstr, Hsep, Hkeys |- *.
  clear Hj Hfirst. clearbody l1 l2.
  rewrite owned_app in Hstr, Hsep. cbn [owned] in Hstr, Hsep. rewrite Hva in Hstr, Hsep.
  apply Forall_app in Hstr as [Hstr1 Hstr2].
  apply Forall_cons in Hstr2 as [Hkp Hstr2]. apply Forall_cons in Hstr2 as [_ Hstr2].
  apply NoDup_app in Hsep as (Hsep1 & Hdisj & Hsep2).
  apply NoDup_cons in Hsep2 as [Hkva Hsep2]. apply NoDup_cons in Hsep2 as [Hva2 Hsep2].
  assert (Hva1 : Ptr va ∉ owned l1).
  { intros Hin. apply (Hdisj _ Hin). rewrite !elem_of_cons. auto. }
  assert (Hfresh : ∀ q, is_Some (text h q) → q ≠ Ptr an).
  { intros q [s Hs] ->. simpl in Hs. by rewrite Han in Hs. }
  assert (Hagree : ∀ qs, Forall (λ q, is_Some (text h q)) qs → Ptr va ∉ qs →
                         ∀ x, Ptr x ∈ qs → h' !! x = h !! x).
  { intros qs Hqs Hnin x Hx. rewrite Forall_forall in Hqs.
    destruct (Hqs _ Hx) as [s (x' & Hx' & Hs)%text_Some]. simplify_eq.
    unfold h'. rewrite lookup_insert_ne, lookup_delete_ne, lookup_insert_ne; congruence. }
  assert (Hnew : text h' (Ptr an) = Some v).
  { apply text_Some. exists an. split; [done|]. unfold h'.
    rewrite lookup_insert_ne, lookup_delete_ne, lookup_insert_eq; congruence. }
  assert (Hkey' : text h' (key p) = Some k).
  { rewrite <- Hk. apply text_agree. intros x Hx.
    apply (Hagree [key p]); [by constructor | | rewrite Hx; by apply list_elem_of_singleton].
    intros ?%list_elem_of_singleton. apply Hkva. rewrite elem_of_cons. auto. }
  assert (He : entry h p = Some (k, old)).
  { apply entry_Some; [done|]. rewrite Hva. apply text_Some. eauto. }
  assert (He' : entry h' (mkPair (key p) (Ptr an)) = Some (k, v)) by by apply entry_Some.
  assert (Hes1 : omap (entry h') l1 = omap (entry h) l1) by (apply omap_entry_agree; eauto).
  assert (Hes2 : omap (entry h') l2 = omap (entry h) l2) by (apply omap_entry_agree; eauto).
  rewrite !omap_app, !omap_entry_cons, He, He', Hes1, Hes2 in *.
  split; [split|].
  - apply uint_wrap_range.
  - done.
  - done.
  - cbn [pairs st']. by rewrite length_insert.
  - rewrite Hlive', owned_app. cbn [owned key value].
    apply Forall_app. split; [|repeat apply Forall_cons_2].
    + eapply Forall_text_agree; [|done]. eauto.
    + by rewrite Hkey'.
    + by rewrite Hnew.
    + eapply Forall_text_agree; [|done]. eauto.
  - rewrite Hlive', owned_app. cbn [owned key value].
    apply NoDup_app. split; [done|]. split.
    + intros q Hq1 [->|[->|Hq2]%elem_of_cons]%elem_of_cons; [| |].
      * apply (Hdisj _ Hq1). rewrite !elem_of_cons. auto.
      * rewrite Forall_forall in Hstr1. by apply (Hfresh _ (Hstr1 _ Hq1)).
      * apply (Hdisj _ Hq1). rewrite !elem_of_cons. auto.
    + apply NoDup_cons. split; [|apply NoDup_cons; split; [|done]].
      * rewrite not_elem_of_cons. split; [by apply Hfresh|].
        rewrite not_elem_of_cons in Hkva. tauto.
      * intros Hin. rewrite Forall_forall in Hstr2. by apply (Hfresh _ (Hstr2 _ Hin)).
  - unfold keys, entries. rewrite Hlive', omap_app, omap_entry_cons, He', Hes1, Hes2.
    by rewrite fmap_app, fmap_cons in Hkeys |- *.
  - exists (omap (entry h) l1), (omap (entry h) l2). split; [done|]. split; [done|].
    clear -Hk1 Hstr1. induction l1 as [|y l1 IH]; [apply not_elem_of_nil|].
    cbn [owned] in Hstr1.
    apply Forall_cons in Hstr1 as [Hy1 Hstr1]. apply Forall_cons in Hstr1 as [Hy2 Hstr1].
    destruct (entry_is_Some h y Hy1 Hy2) as (ky & vy & Hky & _ & Hey).
    rewrite omap_entry_cons, Hey, fmap_cons. cbn [fst].
    apply not_elem_of_cons. split.
    + intros ->. apply (Hk1 y); [apply elem_of_cons; auto | done].
    + apply IH; [done|]. intros z Hz. apply Hk1, elem_of_cons. auto.
Qed.

Lemma realloc_cases w a st slots :
  table w (Ptr a) = Some st →
  ∃ p w1, realloc a slots w = Some (p, w1) ∧ reallocated w a st slots p w1.
Proof.
  intros Ha%table_heap. destruct w as [h fs]. cbn [heap] in *.
  assert (Hmove : ∀ fs', (fs = [] → fs' = []) → ∃ p w1,
    match h !! a with
    | Some (Table st0) =>
        if room (mkWorld h fs') then
          bind (place (Table (resized slots st0))) (λ p, free (Ptr a);; ret p) (mkWorld h fs')
        else ret NULL (mkWorld h fs')
    | _ => None
    end = Some (p, w1) ∧ reallocated (mkWorld h fs) a st slots p w1).
  { intros fs' Hfs. rewrite Ha. unfold room. cbn [heap].
    destruct (Z.ltb_spec (Z.of_nat (size h)) SIZE_MAX) as [Hroom|Hfull].
    - pose proof (fresh_heap h) as Hfresh.
      assert (Hne : fresh (dom h) ≠ a) by congruence.
      unfold place, bind, free, ret. cbn [heap faults].
      rewrite lookup_insert_ne, Ha by done.
      eexists _, _. split; [done|]. rewrite delete_insert_ne by done.
      by apply reallocated_moved.
    - eexists _, _. split; [done|]. apply (reallocated_null (mkWorld h fs)). auto. }
  unfold realloc, bind, next_decision. cbn [heap faults].
  destruct fs as [|[] fs]; cbn [heap faults]; try (apply Hmove; done).
  - eexists _, _. split; [done|]. by apply (reallocated_null (mkWorld h (Deny :: fs))).
  - rewrite Ha. eexists _, _. split; [done|].
    by apply (reallocated_in_place (mkWorld h (InPlace :: fs))).
Qed.

Lemma grow_if_full_cases w a st :
  table w (Ptr a) = Some st →
  ∃ r w1, grow_if_full a w = Some (r, w1) ∧ growth w a st r w1.
Proof.
  intros Hst. unfold grow_if_full. rewrite (bind_run _ _ _ _ _ (load_run _ _ _ Hst)).
  destruct (Z.geb_spec (item_count st) (capacity st)) as [Hfull|Hroom];
    [|eexists _, _; split; [done|by constructor]].
  destruct (realloc_cases w a st (size_wrap (capacity st * 2)) Hst) as (p & w1 & Hre & Hcase).
  rewrite (bind_run _ _ _ _ _ Hre).
  destruct Hcase as [fs Hfs|fs Hfs|fs a' Hfs Ha' Hsize].
  - eexists _, _. split; [done|]. by apply growth_refused.
  - rewrite (bind_run _ _ _ _ _ (modify_run a _ _ _ (table_insert _ _ _ _))).
    cbn [heap faults]. rewrite insert_insert_eq.
    eexists _, _. split; [done|]. by apply growth_in_place.
  - rewrite (bind_run _ _ _ _ _ (modify_run a' _ _ _ (table_insert _ _ _ _))).
    cbn [heap faults]. rewrite insert_insert_eq.
    eexists _, _. split; [done|]. by apply growth_moved.
Qed.

(** ** Counting live blocks *)

Lemma length_le_size (h : gmap positive block) (xs : list positive) :
  NoDup xs → (∀ x, x ∈ xs → is_Some (h !! x)) → (length xs ≤ size h)%nat.
Proof.
  intros Hnd Hin. rewrite <- (size_dom (D := gset positive)).
  rewrite <- (size_list_to_set (C := gset positive) xs Hnd).
  apply subseteq_size. intros x Hx%elem_of_list_to_set. by apply elem_of_dom, Hin.
Qed.

Lemma owned_length ps : length (owned ps) = (2 * length ps)%nat.
Proof. induction ps as [|p ps IH]; simpl; lia. Qed.

Lemma strings_addresses h qs :
  Forall (λ q, is_Some (text h q)) qs →
  ∃ xs, qs = Ptr <$> xs ∧ ∀ x, x ∈ xs → ∃ s, h !! x = Some (Chars s).
Proof.
  induction 1 as [|q qs [s (x & -> & Hx)%text_Some] _ (xs & -> & Hxs)].
  - exists []. split; [done|]. by intros x ?%elem_of_nil.
  - exists (x :: xs). split; [done|]. intros y [->|Hy]%elem_of_cons; eauto.
Qed.

Lemma live_blocks h a st :
  h !! a = Some (Table st) → wf_store h st →
  2 * item_count st + 1 ≤ Z.of_nat (size h).
Proof.
  intros Ha Hwf. destruct (strings_addresses h _ (wf_strings _ _ Hwf)) as (xs & Hxs & Hlive).
  pose proof (wf_separate _ _ Hwf) as Hnd. rewrite Hxs in Hnd.
  apply (NoDup_fmap_1 Ptr) in Hnd.
  assert (Hlen : length xs = (2 * Z.to_nat (item_count st))%nat).
  { rewrite <- (length_fmap Ptr xs), <- Hxs, owned_length, live_length; [done|].
    destruct Hwf; lia. }
  assert (Hsize : (length (a :: xs) ≤ size h)%nat).
  { apply length_le_size.
    - apply NoDup_cons. split; [|done]. intros [s Hs]%Hlive. congruence.
    - intros x [->|[s Hs]%Hlive]%elem_of_cons; eauto. }
  cbn [length] in Hsize. destruct Hwf. lia.
Qed.

(** ** Moving a store between heaps that agree on its strings *)

Lemma wf_store_transfer h h' st st' :
  wf_store h st →
  (∀ x, Ptr x ∈ owned (live st) → h' !! x = h !! x) →
  live st' = live st →
  0 ≤ add_count st' ≤ UINT_MAX →
  0 ≤ item_count st' ≤ capacity st' →
  1 ≤ capacity st' ≤ SIZE_MAX →
  Z.of_nat (length (pairs st')) = capacity st' →
  wf_store h' st' ∧ entries h' st' = entries h st.
Proof.
  intros [_ _ _ _ Hstr Hsep Hkeys] Hagree Hlive ? ? ? ?.
  assert (Hes : entries h' st' = entries h st).
  { unfold entries. rewrite Hlive. by apply omap_entry_agree. }
  split; [split|]; try done.
  - rewrite Hlive. by eapply Forall_text_agree.
  - by rewrite Hlive.
  - unfold keys. by rewrite Hes.
Qed.

Lemma size_wrap_small z : 0 ≤ z ≤ SIZE_MAX → size_wrap z = z.
Proof. intros H. unfold size_wrap. apply Z.mod_small. lia. Qed.

Lemma grown_wf h h' st :
  wf_store h st →
  capacity st ≤ item_count st →
  2 * item_count st + 1 ≤ SIZE_MAX →
  (∀ x, Ptr x ∈ owned (live st) → h' !! x = h !! x) →
  wf_store h' (grown st) ∧ entries h' (grown st) = entries h st ∧
  capacity (grown st) = 2 * capacity st ∧ item_count (grown st) < capacity (grown st).
Proof.
  intros Hwf Hfull Hsize Hagree.
  pose proof Hwf as [Hadd Hitem Hcap Hslots _ _ _].
  assert (Hcap2 : size_wrap (capacity st * 2) = 2 * capacity st).
  { rewrite size_wrap_small; lia. }
  assert (Htr : wf_store h' (grown st) ∧ entries h' (grown st) = entries h st).
  { apply (wf_store_transfer h h' st (grown st)); unfold grown;
      cbn [add_count item_count capacity pairs]; rewrite ?Hcap2; try done; try lia.
    - unfold live. cbn [item_count pairs]. rewrite take_resize.
      rewrite Nat.min_l by lia. rewrite resize_le by lia. done.
    - rewrite length_resize. lia. }
  destruct Htr as [Hw He]. split; [done|]. split; [done|].
  unfold grown. cbn [capacity item_count]. rewrite Hcap2. lia.
Qed.

(** ** Appending a key that is absent *)

Lemma append_item_run w a st k v :
  table w (Ptr a) = Some st →
  0 ≤ item_count st < Z.of_nat (length (pairs st)) →
  ∃ b w', append_item a k v w = Some (b, w') ∧
    if b : bool then
      ∃ ak av, heap w !! ak = None ∧ heap w !! av = None ∧ ak ≠ av ∧
        Z.of_nat (size (heap w)) + 1 < SIZE_MAX ∧
        heap w' = <[a := Table (mkStore (uint_wrap (add_count st + 1))
                                        (size_wrap (item_count st + 1)) (capacity st)
                                        (<[Z.to_nat (item_count st) := mkPair (Ptr ak) (Ptr av)]>
                                           (pairs st)))]>
                    (<[av := Chars v]> (<[ak := Chars k]> (heap w)))
    else heap w' = heap w.
Proof.
  intros Hst Hn. apply table_heap in Hst as Ha. unfold append_item.
  destruct (duplicate_string_cases k w) as (qk & w1 & Hdk & Hk).
  rewrite (bind_run _ _ _ _ _ Hdk).
  destruct (duplicate_string_cases v w1) as (qv & w2 & Hdv & Hv).
  rewrite (bind_run _ _ _ _ _ Hdv).
  destruct Hk as [fs1 _|fs1 ak _ Hak Hroom1]; destruct Hv as [fs2 _|fs2 av _ Hav Hroom2];
    cbn [heap faults] in *.
  - exists false. eexists. split; [done|done].
  - exists false. eexists. split.
    + rewrite (bind_run _ _ _ _ _ (eq_refl : free NULL _ = Some ((), _))).
      rewrite (bind_run _ _ _ _ _ (free_run _ av _ (lookup_insert_eq _ _ _))). done.
    + cbn [heap]. by rewrite delete_insert_id.
  - exists false. eexists. split.
    + rewrite (bind_run _ _ _ _ _ (free_run _ ak _ (lookup_insert_eq _ _ _))).
      rewrite (bind_run _ _ _ _ _ (eq_refl : free NULL _ = Some ((), _))). done.
    + cbn [heap]. by rewrite delete_insert_id.
  - exists true.
    assert (Hne : ak ≠ av) by (intros ->; by rewrite lookup_insert_eq in Hav).
    rewrite lookup_insert_ne in Hav by done.
    assert (Haa : a ≠ ak ∧ a ≠ av) by (split; congruence). destruct Haa as [Haak Haav].
    destruct (lookup_lt_is_Some_2 (pairs st) (Z.to_nat (item_count st))) as [q Hq]; [lia|].
    set (h2 := <[av:=Chars v]> (<[ak:=Chars k]> (heap w))).
    assert (H2 : table (mkWorld h2 fs2) (Ptr a) = Some st).
    { apply table_heap. cbn. unfold h2. by rewrite !lookup_insert_ne. }
    rewrite (bind_run _ _ _ _ _ (load_run _ _ _ H2)).
    rewrite (bind_run _ _ _ _ _ (set_pair_run a _ _ _ st q H2 Hq)). cbn [heap faults].
    set (st1 := mkStore (add_count st) (item_count st) (capacity st)
                        (<[Z.to_nat (item_count st) := mkPair (Ptr ak) (value q)]> (pairs st))).
    assert (Hq1 : pairs st1 !! Z.to_nat (item_count st) = Some (mkPair (Ptr ak) (value q))).
    { apply list_lookup_insert_eq. by eapply lookup_lt_Some. }
    rewrite (bind_run _ _ _ _ _ (set_pair_run a _ _ _ st1 _ (table_insert _ _ _ _) Hq1)).
    unfold st1.
    cbn [heap faults add_count item_count capacity pairs key value].
    rewrite (bind_run _ _ _ _ _ (modify_run a _ _ _ (table_insert _ _ _ _))).
    cbn [heap faults add_count item_count capacity pairs].
    rewrite (bind_run _ _ _ _ _ (atomic_fetch_add_run a _ _ _ (table_insert _ _ _ _))).
    cbn [heap faults add_count item_count capacity pairs].
    eexists. split; [done|]. exists ak, av. cbn [heap].
    rewrite !insert_insert_eq, list_insert_insert_eq.
    repeat split; try done.
    rewrite map_size_insert_None in Hroom2 by done. lia.
Qed.

Lemma append_item_abstract h a st k v ak av :
  h !! a = Some (Table st) → wf_store h st →
  item_count st < capacity st → k ∉ keys h st →
  h !! ak = None → h !! av = None → ak ≠ av →
  let st' := mkStore (uint_wrap (add_count st + 1)) (size_wrap (item_count st + 1))
                     (capacity st)
                     (<[Z.to_nat (item_count st) := mkPair (Ptr ak) (Ptr av)]> (pairs st)) in
  let h' := <[a := Table st']> (<[av := Chars v]> (<[ak := Chars k]> h)) in
  wf_store h' st' ∧ entries h' st' = entries h st ++ [(k, v)] ∧
  item_count st' = item_count st + 1.
Proof.
  intros Ha Hwf Hroom Hk Hak Hav Hne st' h'.
  destruct Hwf as [Hadd Hitem Hcap Hslots Hstr Hsep Hkeys].
  assert (Hn : size_wrap (item_count st + 1) = item_count st + 1)
    by (apply size_wrap_small; lia).
  assert (Hlive' : live st' = live st ++ [mkPair (Ptr ak) (Ptr av)]).
  { unfold live, st'. cbn [item_count pairs]. rewrite Hn.
    replace (Z.to_nat (item_count st + 1)) with (S (Z.to_nat (item_count st))) by lia.
    rewrite (take_S_r _ _ (mkPair (Ptr ak) (Ptr av)))
      by (apply list_lookup_insert_eq; lia).
    by rewrite take_insert_ge. }
  assert (Hfresh : ∀ q, is_Some (text h q) → q ≠ Ptr ak ∧ q ≠ Ptr av).
  { intros q [s Hs]. split; intros ->; simpl in Hs; by rewrite ?Hak, ?Hav in Hs. }
  assert (Hagree : ∀ x, Ptr x ∈ owned (live st) → h' !! x = h !! x).
  { intros x Hx. rewrite Forall_forall in Hstr.
    destruct (Hstr _ Hx) as [s (x' & Hx' & Hs)%text_Some]. simplify_eq.
    unfold h'. rewrite !lookup_insert_ne; congruence. }
  assert (Hnk : text h' (Ptr ak) = Some k).
  { apply text_Some. exists ak. split; [done|]. unfold h'.
    rewrite lookup_insert_ne by congruence. rewrite lookup_insert_ne by congruence.
    by rewrite lookup_insert_eq. }
  assert (Hnv : text h' (Ptr av) = Some v).
  { apply text_Some. exists av. split; [done|]. unfold h'.
    rewrite lookup_insert_ne by congruence. by rewrite lookup_insert_eq. }
  assert (Hes : entries h' st' = entries h st ++ [(k, v)]).
  { unfold entries. rewrite Hlive', omap_app, omap_entry_cons.
    rewrite (entry_Some h' _ k v) by done. by rewrite (omap_entry_agree h h'). }
  split; [split|by rewrite Hes]; cbn [st' add_count item_count capacity pairs].
  - apply uint_wrap_range.
  - lia.
  - done.
  - by rewrite length_insert.
  - rewrite Hlive', owned_app. cbn [owned key value]. apply Forall_app. split.
    + by eapply Forall_text_agree.
    + repeat apply Forall_cons_2; [by rewrite Hnk | by rewrite Hnv | done].
  - rewrite Hlive', owned_app. cbn [owned key value]. apply NoDup_app.
    split; [done|]. split.
    + intros q Hq. rewrite Forall_forall in Hstr. destruct (Hfresh _ (Hstr _ Hq)).
      rewrite !not_elem_of_cons. repeat split; [done..|apply not_elem_of_nil].
    + apply NoDup_cons. split; [|apply NoDup_singleton].
      rewrite list_elem_of_singleton. congruence.
  - unfold keys in *. rewrite Hes, fmap_app. apply NoDup_app. split; [done|]. split.
    + intros k' Hk' ->%list_elem_of_singleton. done.
    + apply NoDup_singleton.
Qed.

Lemma overwrite_middle k v es1 old es2 :
  k ∉ es1.*1 → overwrite k v (es1 ++ (k, old) :: es2) = es1 ++ (k, v) :: es2.
Proof.
  induction es1 as [|[k' v'] es1 IH]; simpl.
  - intros _. by rewrite String.eqb_refl.
  - intros [Hne Hk]%not_elem_of_cons.
    destruct (String.eqb_spec k' k) as [->|_]; [done|]. by rewrite IH.
Qed.

Lemma assoc_middle k v es1 es2 :
  k ∉ es1.*1 → assoc k (es1 ++ (k, v) :: es2) = Some v.
Proof.
  induction es1 as [|[k' v'] es1 IH]; simpl.
  - intros _. by rewrite String.eqb_refl.
  - intros [Hne Hk]%not_elem_of_cons.
    destruct (String.eqb_spec k' k) as [->|_]; [done|]. by apply IH.
Qed.

Lemma entries_length h st :
  wf_store h st → Z.of_nat (length (entries h st)) = item_count st.
Proof.
  intros Hwf. unfold entries. rewrite omap_entry_length by apply Hwf.
  rewrite live_length; destruct Hwf; lia.
Qed.

Lemma first_hit_keys h st k :
  wf_store h st →
  (is_Some (first_hit h k (live st)) ↔ k ∈ keys h st).
Proof.
  intros Hwf. unfold keys, entries.
  pose proof (assoc_first_hit h k (live st) (wf_strings _ _ Hwf)) as Hassoc.
  pose proof (assoc_None_keys k (omap (entry h) (live st))) as Hnone.
  destruct (first_hit h k (live st)) as [[j p]|] eqn:Hhit.
  - split; [intros _|by eauto].
    destruct (decide (k ∈ (omap (entry h) (live st)).*1)) as [|Hn]; [done|].
    apply Hnone in Hn. rewrite Hn in Hassoc.
    apply list_find_Some in Hhit as (Hj & _ & _).
    assert (Hin : value p ∈ owned (live st)).
    { apply elem_of_owned. exists p. split; [by eapply list_elem_of_lookup_2|auto]. }
    pose proof (wf_strings _ _ Hwf) as Hstr. rewrite Forall_forall in Hstr.
    destruct (Hstr _ Hin) as [s Hs]. congruence.
  - split; [by intros [? ?]|]. intros Hin. by apply Hnone in Hin.
Qed.

(** ** The three stages of an upsert, on well-formed stores *)

Lemma wf_same_heap w w' p : heap w' = heap w → wf w p → wf w' p.
Proof.
  intros Hh [Hsize (st & Hst & Hwf)]. unfold wf. rewrite Hh. split; [done|].
  exists st. split; [|done]. destruct p as [|a|]; try done. simpl in *. by rewrite Hh.
Qed.

Lemma table_same_heap w w' p : heap w' = heap w → table w' p = table w p.
Proof. intros Hh. destruct p as [|a|]; try done. simpl. by rewrite Hh. Qed.

Lemma update_item_spec w a st j p k v :
  wf w (Ptr a) → table w (Ptr a) = Some st →
  first_hit (heap w) k (live st) = Some (j, p) →
  ∃ b w' st', update_item a (Z.of_nat j) p v w = Some (b, w') ∧
    table w' (Ptr a) = Some st' ∧ wf w' (Ptr a) ∧
    if b : bool then
      add_count st' = uint_wrap (add_count st + 1) ∧
      item_count st' = item_count st ∧ capacity st' = capacity st ∧
      (∃ es1 old es2, entries (heap w) st = es1 ++ (k, old) :: es2 ∧
                      entries (heap w') st' = es1 ++ (k, v) :: es2 ∧ k ∉ es1.*1) ∧
      text (heap w') (value p) = None ∧ size (heap w') = size (heap w)
    else heap w' = heap w ∧ st' = st.
Proof.
  intros Hw Hst Hhit. pose proof Hw as [Hsize (st0 & Hst0 & Hwf)].
  assert (st0 = st) by congruence. subst st0. apply table_heap in Hst as Ha.
  destruct (update_item_run w a st j p k v Hst Hwf Hhit) as (b & w' & Hrun & Hpost).
  exists b, w'. destruct b.
  - destruct Hpost as (an & va & old & Hva & Hold & Han & Hroom & Hh').
    apply list_find_Some in Hhit as (Hj & Hk & Hfirst).
    destruct (update_item_abstract (heap w) a st j p k v an va old
                Ha Hwf Hj Hk Hfirst Hva Hold Han) as (Hwf' & es1 & es2 & Hes & Hes' & Hk1).
    rewrite <- Hh' in Hwf', Hes'.
    assert (Hne : a ≠ va ∧ an ≠ va) by (split; congruence). destruct Hne as [Hava Hanva].
    eexists. split; [done|]. split; [apply table_heap; rewrite Hh'; apply lookup_insert_eq|].
    assert (Hsz : size (heap w') = size (heap w)).
    { rewrite Hh', map_size_insert_Some, map_size_delete_Some, map_size_insert_None; try done.
      - by rewrite lookup_insert_ne.
      - rewrite lookup_delete_ne, lookup_insert_ne by congruence. eauto. }
    split.
    { split; [lia|]. eexists. split; [|done]. apply table_heap. rewrite Hh'.
      apply lookup_insert_eq. }
    do 3 (split; [done|]). split; [by exists es1, old, es2|]. split; [|done].
    rewrite Hva. simpl. by rewrite Hh', lookup_insert_ne, lookup_delete_eq.
  - exists st. split; [done|]. split; [by rewrite (table_same_heap w w')|].
    split; [by apply (wf_same_heap w)|done].
Qed.

Lemma grow_if_full_spec w a st :
  wf w (Ptr a) → table w (Ptr a) = Some st →
  ∃ r w1, grow_if_full a w = Some (r, w1) ∧
    match r with
    | None => heap w1 = heap w ∧ capacity st ≤ item_count st
    | Some a1 =>
        ∃ st1, table w1 (Ptr a1) = Some st1 ∧ wf w1 (Ptr a1) ∧
          entries (heap w1) st1 = entries (heap w) st ∧
          add_count st1 = add_count st ∧ item_count st1 = item_count st ∧
          item_count st1 < capacity st1 ∧
          ((a1 = a ∧ w1 = w) ∨
           (capacity st1 = 2 * capacity st ∧ item_count st = capacity st))
    end.
Proof.
  intros Hw Hst. pose proof Hw as [Hsize (st0 & Hst0 & Hwf)].
  assert (st0 = st) by congruence. subst st0. apply table_heap in Hst as Ha.
  destruct (grow_if_full_cases w a st Hst) as (r & w1 & Hrun & Hcase).
  exists r, w1. split; [done|].
  pose proof (live_blocks _ _ _ Ha Hwf) as Hblocks.
  assert (Hstrings : ∀ x, Ptr x ∈ owned (live st) → ∃ s, heap w !! x = Some (Chars s)).
  { intros x Hx. pose proof (wf_strings _ _ Hwf) as Hstr. rewrite Forall_forall in Hstr.
    destruct (Hstr _ Hx) as [s (x' & ? & ?)%text_Some]. simplify_eq. eauto. }
  destruct Hcase as [Hroom|fs Hfull _|fs Hfull _|fs a' Hfull _ Ha' Hroom].
  - exists st. repeat split; try done; eauto.
  - done.
  - destruct (grown_wf (heap w) (<[a := Table (grown st)]> (heap w)) st Hwf Hfull)
      as (Hwf1 & Hes & Hcap & Hlt); [lia| |].
    { intros x [s Hs]%Hstrings. rewrite lookup_insert_ne; congruence. }
    exists (grown st). split; [apply table_insert|]. split; [|repeat split; try done].
    + split; [|exists (grown st); split; [apply table_insert|done]].
      cbn [heap]. rewrite map_size_insert_Some; eauto.
    + right. split; [done|]. destruct Hwf; lia.
  - destruct (grown_wf (heap w) (<[a' := Table (grown st)]> (delete a (heap w))) st Hwf Hfull)
      as (Hwf1 & Hes & Hcap & Hlt); [lia| |].
    { intros x [s Hs]%Hstrings. rewrite lookup_insert_ne, lookup_delete_ne; congruence. }
    exists (grown st). split; [apply table_insert|]. split; [|repeat split; try done].
    + split; [|exists (grown st); split; [apply table_insert|done]].
      cbn [heap]. rewrite map_size_insert_None, map_size_delete_Some; eauto.
      * lia.
      * rewrite lookup_delete_ne; congruence.
    + right. split; [done|]. destruct Hwf; lia.
Qed.

Lemma append_item_spec w a st k v :
  wf w (Ptr a) → table w (Ptr a) = Some st →
  item_count st < capacity st → k ∉ keys (heap w) st →
  ∃ b w' st', append_item a k v w = Some (b, w') ∧
    table w' (Ptr a) = Some st' ∧ wf w' (Ptr a) ∧
    if b : bool then
      add_count st' = uint_wrap (add_count st + 1) ∧
      item_count st' = item_count st + 1 ∧ capacity st' = capacity st ∧
      entries (heap w') st' = entries (heap w) st ++ [(k, v)]
    else heap w' = heap w ∧ st' = st.
Proof.
  intros Hw Hst Hroom Hk. pose proof Hw as [Hsize (st0 & Hst0 & Hwf)].
  assert (st0 = st) by congruence. subst st0. apply table_heap in Hst as Ha.
  destruct (append_item_run w a st k v Hst) as (b & w' & Hrun & Hpost);
    [destruct Hwf; lia|].
  exists b, w'. destruct b.
  - destruct Hpost as (ak & av & Hak & Hav & Hne & Hsz & Hh').
    destruct (append_item_abstract (heap w) a st k v ak av Ha Hwf Hroom Hk Hak Hav Hne)
      as (Hwf' & Hes & Hn).
    rewrite <- Hh' in Hwf', Hes.
    eexists. split; [done|].
    assert (Hst' : table w' (Ptr a) = Some 
      (mkStore (uint_wrap (add_count st + 1)) (size_wrap (item_count st + 1)) (capacity st)
               (<[Z.to_nat (item_count st):=mkPair (Ptr ak) (Ptr av)]> (pairs st)))).
    { apply table_heap. rewrite Hh'. apply lookup_insert_eq. }
    split; [done|]. split; [|by repeat split].
    split; [|eexists; by split].
    rewrite Hh', map_size_insert_Some, !map_size_insert_None; try done.
    + lia.
    + rewrite lookup_insert_ne; done.
    + rewrite !lookup_insert_ne by congruence. eauto.
  - exists st. split; [done|]. split; [by rewrite (table_same_heap w w')|].
    split; [by apply (wf_same_heap w)|done].
Qed.

(** ** One upsert on a well-formed store *)

Theorem upsert_spec w a st k v :
  wf w (Ptr a) → table w (Ptr a) = Some st →
  ∃ b a' w' st',
    store_add_or_update_item (Some (Ptr a)) (Some k) (Some v) w
      = Some ((b, Some (Ptr a')), w') ∧
    table w' (Ptr a') = Some st' ∧ wf w' (Ptr a') ∧
    upsert_post w st k v b w' st'.
Proof.
  intros Hw Hst. pose proof Hw as [Hsize (st0 & Hst0 & Hwf)].
  assert (st0 = st) by congruence. subst st0.
  pose proof (first_hit_keys (heap w) st k Hwf) as Hkeys.
  pose proof (assoc_first_hit (heap w) k (live st) (wf_strings _ _ Hwf)) as Hassoc.
  unfold store_add_or_update_item. unfold bind at 1. rewrite (scan_run a k _ w st Hst Hwf).
  destruct (first_hit (heap w) k (live st)) as [[j p]|] eqn:Hhit.
  - assert (Hin : k ∈ keys (heap w) st) by (apply Hkeys; eauto).
    destruct (update_item_spec w a st j p k v Hw Hst Hhit)
      as (b & w' & st' & Hrun & Hst' & Hw' & Hpost).
    rewrite (bind_run _ _ _ _ _ Hrun). exists b, a, w', st'.
    split; [done|]. split; [done|]. split; [done|].
    destruct b.
    + destruct Hpost as (Hadd & Hn & Hcap & (es1 & old & es2 & Hes & Hes' & Hk1) & Hrel & Hsz).
      split; try done.
      * rewrite Hes', Hes. unfold upsert_entries.
        by rewrite assoc_middle, overwrite_middle.
      * by rewrite bool_decide_eq_true_2.
      * by left.
      * intros _. unfold value_pointer. by rewrite Hhit.
    + destruct Hpost as [Hh ->]. split; try done.
      * by rewrite Hh.
      * by left.
  - assert (Hnin : k ∉ keys (heap w) st).
    { intros Hin%Hkeys. by destruct Hin. }
    unfold ret at 1.
    destruct (grow_if_full_spec w a st Hw Hst) as (r & w1 & Hgrow & Hr).
    rewrite (bind_run _ _ _ _ _ Hgrow).
    destruct r as [a1|].
    + destruct Hr as (st1 & Hst1 & Hw1 & Hes1 & Hadd1 & Hn1 & Hlt1 & Hcap1).
      destruct (append_item_spec w1 a1 st1 k v Hw1 Hst1 Hlt1)
        as (b & w' & st' & Hrun & Hst' & Hw' & Hpost); [unfold keys; by rewrite Hes1|].
      rewrite (bind_run _ _ _ _ _ Hrun). exists b, a1, w', st'.
      split; [done|]. split; [done|]. split; [done|].
      assert (Hcap : capacity st1 = capacity st ∨
                     (capacity st1 = 2 * capacity st ∧ item_count st = capacity st ∧
                      k ∉ keys (heap w) st)).
      { destruct Hcap1 as [[-> ->]|[? ?]]; [left; congruence | by right]. }
      destruct b.
      * destruct Hpost as (Hadd & Hn & Hc & Hes). split.
        -- congruence.
        -- rewrite Hes, Hes1. unfold upsert_entries.
           by rewrite (proj2 (assoc_None_keys _ _) Hnin).
        -- rewrite bool_decide_eq_false_2 by done. simpl. congruence.
        -- by rewrite Hc.
        -- done.
      * destruct Hpost as [Hh ->]. split; try done.
        by rewrite Hh.
    + destruct Hr as [Hh Hfull]. exists false, a, w1, st.
      split; [done|]. split; [by rewrite (table_same_heap w w1)|].
      split; [by apply (wf_same_heap w)|]. split; try done.
      * by rewrite Hh.
      * by left.
Qed.

(** ** Lookup *)

Lemma get_value_spec w a st k :
  wf w (Ptr a) → table w (Ptr a) = Some st →
  store_get_value (Ptr a) (Some k) w = Some (value_pointer (heap w) st k, w) ∧
  text (heap w) (value_pointer (heap w) st k) = assoc k (entries (heap w) st).
Proof.
  intros [Hsize (st0 & Hst0 & Hwf)] Hst. assert (st0 = st) by congruence. subst st0.
  unfold store_get_value, value_pointer, entries.
  rewrite (assoc_first_hit _ _ _ (wf_strings _ _ Hwf)).
  unfold bind. rewrite (scan_run a k _ w st Hst Hwf).
  by destruct (first_hit (heap w) k (live st)) as [[j p]|].
Qed.

(** ** Creation *)

Lemma wf_store_empty h c :
  1 ≤ c ≤ SIZE_MAX →
  wf_store h (mkStore 0 0 c (replicate (Z.to_nat c) wild_pair)).
Proof.
  intros Hc. split; cbn [add_count item_count capacity pairs]; try (unfold UINT_MAX; lia).
  - rewrite length_replicate. lia.
  - constructor.
  - constructor.
  - constructor.
Qed.

Lemma create_fits c :
  0 ≤ c ≤ MAX_CAPACITY →
  1 ≤ (if c =? 0 then 8 else c) ≤ SIZE_MAX ∧
  slots_of (size_wrap (sizeof_KeyValueStore
                       + size_wrap ((if c =? 0 then 8 else c) * sizeof_KeyValuePair)))
  = Z.to_nat (if c =? 0 then 8 else c) ∧
  (size_wrap (sizeof_KeyValueStore
              + size_wrap ((if c =? 0 then 8 else c) * sizeof_KeyValuePair))
   <? sizeof_mtx_t) = false ∧
  (size_wrap (sizeof_KeyValueStore
              + size_wrap ((if c =? 0 then 8 else c) * sizeof_KeyValuePair))
   <? sizeof_KeyValueStore) = false.
Proof.
  intros Hc. set (c' := if c =? 0 then 8 else c).
  change MAX_CAPACITY with 1152921504606846971 in Hc.
  assert (Hc' : 1 ≤ c' ≤ 1152921504606846971).
  { unfold c'. destruct (Z.eqb_spec c 0); lia. }
  unfold slots_of, sizeof_mtx_t, sizeof_KeyValueStore, sizeof_KeyValuePair.
  rewrite !size_wrap_small by (rewrite ?size_wrap_small; unfold SIZE_MAX; lia).
  split; [unfold SIZE_MAX; lia|]. split; [|split; apply Z.ltb_ge; lia].
  f_equal. replace (64 + c' * 16 - 64) with (c' * 16) by lia. apply Z.div_mul. lia.
Qed.

Lemma create_spec w c :
  Z.of_nat (size (heap w)) ≤ SIZE_MAX → 0 ≤ c ≤ MAX_CAPACITY →
  ∃ p w', store_create c w = Some (p, w') ∧
    match p with
    | NULL => heap w' = heap w
    | Ptr a =>
        heap w !! a = None ∧
        heap w' = <[a := Table (mkStore 0 0 (if c =? 0 then 8 else c)
                                 (replicate (Z.to_nat (if c =? 0 then 8 else c)) wild_pair))]>
                    (heap w) ∧
        wf w' (Ptr a)
    | Wild => False
    end.
Proof.
  intros Hsize Hc. unfold store_create.
  destruct (create_fits c Hc) as (Hc' & -> & -> & ->).
  set (c' := if c =? 0 then 8 else c) in *.
  destruct (malloc_cases (Table (mkStore 0 0 0 (replicate (Z.to_nat c') wild_pair))) w)
    as (p & w1 & Hm & Hcase).
  rewrite (bind_run _ _ _ _ _ Hm).
  destruct Hcase as [fs _|fs a _ Ha Hroom]; [by eexists _, _|].
  unfold mtx_init, next_decision. unfold bind at 1 2. cbn [heap faults].
  assert (Hok : ∀ fs', ∃ p w',
    bind (modify a (λ st, mkStore 0 0 c' (pairs st))) (λ _, ret (Ptr a))
      (mkWorld (<[a:=Table (mkStore 0 0 0 (replicate (Z.to_nat c') wild_pair))]> (heap w)) fs')
      = Some (p, w') ∧
    match p with
    | NULL => heap w' = heap w
    | Ptr a =>
        heap w !! a = None ∧
        heap w' = <[a := Table (mkStore 0 0 c' (replicate (Z.to_nat c') wild_pair))]> (heap w) ∧
        wf w' (Ptr a)
    | Wild => False
    end).
  { intros fs'. rewrite (bind_run _ _ _ _ _ (modify_run a _ _ _ (table_insert _ _ _ _))).
    cbn [heap faults pairs]. rewrite insert_insert_eq.
    eexists _, _. split; [done|]. split; [done|]. split; [done|].
    split; cbn [heap].
    - rewrite map_size_insert_None by done. lia.
    - eexists. split; [apply table_insert|]. by apply wf_store_empty. }
  destruct fs as [|[] fs]; cbn [heap faults]; try apply Hok.
  unfold ret at 1.
  rewrite (bind_run _ _ _ _ _ (free_run _ a _ (lookup_insert_eq _ _ _))).
  eexists _, _. split; [done|]. cbn [heap]. by rewrite delete_insert_id.
Qed.

Lemma release_cons q qs h :
  release (q :: qs) h = release qs (match q with Ptr x => delete x h | _ => h end).
Proof. done. Qed.

Lemma release_lookup_ne qs h x : Ptr x ∉ qs → release qs h !! x = h !! x.
Proof.
  revert h. induction qs as [|q qs IH]; intros h Hx; [done|].
  apply not_elem_of_cons in Hx as [Hq Hx]. rewrite release_cons, IH by done.
  destruct q as [|y|]; try done. rewrite lookup_delete_ne; congruence.
Qed.

Lemma release_lookup_eq qs h x : Ptr x ∈ qs → release qs h !! x = None.
Proof.
  revert h. induction qs as [|q qs IH]; intros h Hx; [by apply elem_of_nil in Hx|].
  rewrite release_cons.
  destruct (decide (Ptr x ∈ qs)) as [Hin|Hnin]; [by apply IH|].
  apply elem_of_cons in Hx as [<-|?]; [|done].
  rewrite release_lookup_ne by done. apply lookup_delete_eq.
Qed.

Lemma destroy_loop a st ps o w :
  table w (Ptr a) = Some st →
  (∀ j p, ps !! j = Some p → pairs st !! (o + j)%nat = Some p) →
  Forall (λ q, is_Some (text (heap w) q)) (owned ps) →
  NoDup (owned ps) →
  for_loop (Z.of_nat o) (length ps) (destroy_body a) w =
  Some (None, mkWorld (release (owned ps) (heap w)) (faults w)).
Proof.
  revert o w. induction ps as [|p ps IH]; intros o w Hst Hps Hstr Hnd.
  { by destruct w. }
  cbn [owned] in *.
  apply Forall_cons in Hstr as [[sk (xk & Hk & Hxk)%text_Some] Hstr].
  apply Forall_cons in Hstr as [[sv (xv & Hv & Hxv)%text_Some] Hstr].
  apply NoDup_cons in Hnd as [Hk1 Hnd]. apply NoDup_cons in Hnd as [Hv1 Hnd].
  rewrite Hk, Hv in *. apply not_elem_of_cons in Hk1 as [Hkv Hk1].
  assert (Hp : pairs st !! Z.to_nat (Z.of_nat o) = Some p).
  { rewrite Nat2Z.id, <- (Nat.add_0_r o). by apply Hps. }
  apply table_heap in Hst as Ha.
  cbn [length for_loop]. unfold destroy_body at 1.
  unfold bind at 1 2. rewrite (pair_at_run a _ w st p Hst Hp). rewrite Hk, Hv.
  rewrite (bind_run _ _ _ _ _ (free_run _ xk _ Hxk)).
  assert (Hxv1 : heap (mkWorld (delete xk (heap w)) (faults w)) !! xv = Some (Chars sv)).
  { cbn. rewrite lookup_delete_ne; congruence. }
  rewrite (bind_run _ _ _ _ _ (free_run _ xv _ Hxv1)). cbn [heap faults]. unfold ret at 1.
  replace (Z.of_nat o + 1) with (Z.of_nat (S o)) by lia.
  rewrite IH; cbn [heap faults]; rewrite ?release_cons; try done.
  - apply table_heap. cbn. rewrite !lookup_delete_ne; congruence.
  - intros j q Hq. rewrite Nat.add_succ_l, <- Nat.add_succ_r. by apply Hps.
  - eapply Forall_text_agree; [|done]. intros x Hx. cbn.
    rewrite !lookup_delete_ne; congruence.
Qed.

Lemma destroy_spec w a st :
  wf w (Ptr a) → table w (Ptr a) = Some st →
  ∃ w', store_destroy (Ptr a) w = Some ((), w') ∧
    ∀ x, heap w' !! x =
         if decide (x = a ∨ Ptr x ∈ owned (live st)) then None else heap w !! x.
Proof.
  intros [Hsize (st0 & Hst0 & Hwf)] Hst. assert (st0 = st) by congruence. subst st0.
  apply table_heap in Hst as Ha.
  unfold store_destroy. rewrite (bind_run _ _ _ _ _ (load_run _ _ _ Hst)).
  rewrite <- live_length by (destruct Hwf; lia).
  rewrite (bind_run _ _ _ _ _ (destroy_loop a st (live st) 0 w Hst
             (live_lookup st) (wf_strings _ _ Hwf) (wf_separate _ _ Hwf))).
  assert (Hna : Ptr a ∉ owned (live st)).
  { intros Hin. pose proof (wf_strings _ _ Hwf) as Hstr. rewrite Forall_forall in Hstr.
    destruct (Hstr _ Hin) as [s (x & ? & ?)%text_Some]. simplify_eq. }
  assert (Hlive : heap (mkWorld (release (owned (live st)) (heap w)) (faults w)) !! a
                  = Some (Table st)).
  { cbn. by rewrite release_lookup_ne. }
  rewrite (free_run _ a _ Hlive). eexists. split; [done|]. cbn [heap]. intros x.
  destruct (decide (x = a)) as [->|Hne].
  - rewrite decide_True by auto. apply lookup_delete_eq.
  - rewrite lookup_delete_ne by done.
    destruct (decide (Ptr x ∈ owned (live st))) as [Hin|Hnin].
    + rewrite decide_True by auto. by apply release_lookup_eq.
    + rewrite decide_False by tauto. by apply release_lookup_ne.
Qed.

Lemma perform_spec c w a st :
  wf w (Ptr a) → table w (Ptr a) = Some st →
  ∃ r a' w' st',
    perform c (Ptr a) w = Some ((r, Ptr a'), w') ∧
    table w' (Ptr a') = Some st' ∧ wf w' (Ptr a') ∧
    match c with
    | Upsert k v => ∃ b, r = Done b ∧ upsert_post w st k v b w' st'
    | Lookup k =>
        r = Found (value_pointer (heap w) st k) ∧ a' = a ∧ w' = w ∧ st' = st ∧
        text (heap w) (value_pointer (heap w) st k) = assoc k (entries (heap w) st)
    end.
Proof.
  intros Hw Hst. destruct c as [k v|k]; unfold perform.
  - destruct (upsert_spec w a st k v Hw Hst) as (b & a' & w' & st' & Hrun & Hst' & Hw' & Hpost).
    rewrite (bind_run _ _ _ _ _ Hrun). exists (Done b), a', w', st'.
    split; [done|]. eauto.
  - destruct (get_value_spec w a st k Hw Hst) as [Hrun Htext].
    rewrite (bind_run _ _ _ _ _ Hrun). exists (Found (value_pointer (heap w) st k)), a, w, st.
    split; [done|]. eauto 10.
Qed.

Lemma reachable_wf w p : reachable w p → ∃ a, p = Ptr a ∧ wf w (Ptr a).
Proof.
  induction 1 as [w0 c a w Hsize Hc Hcreate|w p c r p' w' _ (a & -> & Hw) Hrun].
  - destruct (create_spec w0 c Hsize Hc) as (p & w1 & Hrun & Hp).
    assert (p = Ptr a ∧ w1 = w) as [-> ->] by (split; congruence).
    exists a. split; [done|]. apply Hp.
  - pose proof Hw as (_ & st & Hst & _).
    destruct (perform_spec c w a st Hw Hst) as (r1 & a' & w1 & st' & Hrun1 & _ & Hw' & _).
    assert (p' = Ptr a' ∧ w1 = w') as [-> ->] by (split; congruence). eauto.
Qed.

Lemma uint_wrap_succ x n : uint_wrap (uint_wrap (x + 1) + n) = uint_wrap (x + (1 + n)).
Proof. unfold uint_wrap. rewrite Zplus_mod_idemp_l. f_equal. lia. Qed.

Lemma uint_wrap_small z : 0 ≤ z ≤ UINT_MAX → uint_wrap z = z.
Proof. intros H. unfold uint_wrap. apply Z.mod_small. lia. Qed.

Lemma successes_nonneg rs : 0 ≤ successes rs.
Proof. induction rs as [|[[]|] rs IH]; simpl; lia. Qed.

Lemma session_spec cs w a st :
  wf w (Ptr a) → table w (Ptr a) = Some st →
  ∃ rs a' w' st',
    session cs (Ptr a) w = Some ((rs, Ptr a'), w') ∧
    table w' (Ptr a') = Some st' ∧ wf w' (Ptr a') ∧
    length rs = length cs ∧
    add_count st' = uint_wrap (add_count st + successes rs) ∧
    entries (heap w') st' = replay cs rs (entries (heap w) st) ∧
    capacity st ≤ capacity st'.
Proof.
  revert w a st. induction cs as [|c cs IH]; intros w a st Hw Hst.
  - exists [], a, w, st. do 4 (split; [done|]). split; [|split; [done|lia]].
    cbn [successes]. rewrite Z.add_0_r, uint_wrap_small; [done|].
    destruct Hw as (_ & st0 & ? & []). by simplify_eq.
  - destruct (perform_spec c w a st Hw Hst) as (r & a1 & w1 & st1 & Hrun1 & Hst1 & Hw1 & Hpost).
    destruct (IH w1 a1 st1 Hw1 Hst1)
      as (rs & a' & w' & st' & Hrun & Hst' & Hw' & Hlen & Hadd & Hes & Hcap).
    exists (r :: rs), a', w', st'. cbn [session].
    rewrite (bind_run _ _ _ _ _ Hrun1). rewrite (bind_run _ _ _ _ _ Hrun).
    split; [done|]. split; [done|]. split; [done|]. split; [by rewrite !length_cons, Hlen|].
    assert (Hwf : wf_store (heap w) st).
    { destruct Hw as (_ & st0 & ? & ?). by simplify_eq. }
    destruct c as [k v|k].
    + destruct Hpost as (b & -> & [Hadd1 Hes1 Hn1 Hcap1 _]).
      rewrite Hadd, Hes, Hadd1, Hes1. destruct b; cbn [successes replay].
      * rewrite uint_wrap_succ. repeat split; try done. destruct Hwf. lia.
      * repeat split; try done. destruct Hwf. lia.
    + destruct Hpost as (-> & -> & -> & -> & _). by rewrite Hadd, Hes.
Qed.

(** ** Interleaved upserts *)

Lemma replay_upsert_all kvs rs es :
  Forall (λ r, r = Done true) rs → length rs = length kvs →
  replay (upserts kvs) rs es = upsert_all kvs es.
Proof.
  revert rs es. induction kvs as [|[k v] kvs IH]; intros rs es Hrs Hlen.
  - by destruct rs.
  - destruct rs as [|r rs]; [done|]. apply Forall_cons in Hrs as [-> Hrs].
    cbn [upserts map replay fst snd]. fold (upserts kvs). rewrite IH; [done|done|].
    by simplify_eq/=.
Qed.

Lemma successes_all rs : Forall (λ r, r = Done true) rs → successes rs = Z.of_nat (length rs).
Proof. induction 1 as [|r rs -> _ IH]; cbn [successes length]; lia. Qed.

Lemma assoc_app k es1 es2 :
  assoc k (es1 ++ es2) = match assoc k es1 with Some v => Some v | None => assoc k es2 end.
Proof.
  induction es1 as [|[k' v'] es1 IH]; [done|]. cbn [app assoc].
  by destruct (String.eqb k' k).
Qed.

Lemma assoc_overwrite k k' v es :
  is_Some (assoc k' es) →
  assoc k (overwrite k' v es) = if decide (k' = k) then Some v else assoc k es.
Proof.
  induction es as [|[k1 v1] es IH]; cbn [assoc overwrite]; [by intros [? ?]|].
  destruct (String.eqb_spec k1 k') as [->|Hne1]; intros Hsome.
  - cbn [assoc]. destruct (String.eqb_spec k' k) as [->|Hne].
    + by rewrite decide_True.
    + by rewrite decide_False.
  - cbn [assoc]. destruct (String.eqb_spec k1 k) as [->|Hne].
    + by rewrite decide_False by congruence.
    + by apply IH.
Qed.

Lemma assoc_upsert_entries k k' v es :
  assoc k (upsert_entries k' v es) = if decide (k' = k) then Some v else assoc k es.
Proof.
  unfold upsert_entries. destruct (assoc k' es) as [old|] eqn:Hk'.
  - apply assoc_overwrite. by rewrite Hk'.
  - rewrite assoc_app. cbn [assoc]. destruct (String.eqb_spec k' k) as [->|Hne].
    + by rewrite Hk', decide_True.
    + rewrite decide_False by done. by destruct (assoc k es).
Qed.

Lemma assoc_upsert_all k kvs es :
  assoc k (upsert_all kvs es) =
  match last_write k kvs with Some v => Some v | None => assoc k es end.
Proof.
  revert es. induction kvs as [|[k' v'] kvs IH] using rev_ind; intros es; [done|].
  unfold upsert_all, last_write. rewrite foldl_app, filter_app. cbn [foldl fst snd].
  fold (upsert_all kvs es). rewrite assoc_upsert_entries, IH.
  rewrite filter_cons, filter_nil. cbn [fst]. destruct (decide (k' = k)) as [->|Hne].
  - by rewrite last_snoc.
  - by rewrite app_nil_r.
Qed.

Lemma interleave_step {A} t sched (ts : list (list A)) l :
  interleave (t :: sched) ts = Some l →
  ∃ x xs l', ts !! t = Some (x :: xs) ∧ l = x :: l' ∧
             interleave sched (<[t := xs]> ts) = Some l'.
Proof.
  cbn [interleave]. destruct (ts !! t) as [[|x xs]|]; try done.
  destruct (interleave sched _) as [l'|] eqn:Hl'; [|done]. intros [= <-].
  by exists x, xs, l'.
Qed.

Lemma interleave_done {A} (ts : list (list A)) l :
  interleave [] ts = Some l → l = [] ∧ ∀ t xs, ts !! t = Some xs → xs = [].
Proof.
  cbn [interleave]. destruct (forallb _ ts) eqn:Hall; [|done]. intros [= <-].
  split; [done|]. intros t xs Hxs. rewrite forallb_forall in Hall.
  apply list_elem_of_lookup_2, list_elem_of_In, Hall, bool_decide_eq_true in Hxs.
  by apply length_zero_iff_nil.
Qed.

Lemma insert_tail_lookup {A} (ts : list (list A)) t x xs t' ys :
  ts !! t = Some (x :: xs) → <[t := xs]> ts !! t' = Some ys →
  ∃ zs, ts !! t' = Some zs ∧ (∀ y, y ∈ ys → y ∈ zs).
Proof.
  intros Ht Hys. destruct (decide (t = t')) as [<-|Hne].
  - rewrite list_lookup_insert_eq in Hys by by eapply lookup_lt_Some.
    simplify_eq. exists (x :: ys). split; [done|]. intros y Hy. apply elem_of_cons. auto.
  - rewrite list_lookup_insert_ne in Hys by done. eauto.
Qed.

Lemma interleave_elem_of {A} sched (ts : list (list A)) l x :
  interleave sched ts = Some l →
  x ∈ l ↔ ∃ t xs, ts !! t = Some xs ∧ x ∈ xs.
Proof.
  revert ts l. induction sched as [|t sched IH]; intros ts l Hl.
  - apply interleave_done in Hl as [-> Hnil]. split; [by intros ?%elem_of_nil|].
    intros (t & xs & Hxs & Hx). rewrite (Hnil _ _ Hxs) in Hx. by apply elem_of_nil in Hx.
  - apply interleave_step in Hl as (y & ys & l' & Ht & -> & Hl').
    rewrite elem_of_cons, (IH _ _ Hl'). split.
    + intros [->|(t' & xs & Hxs & Hx)].
      * exists t, (y :: ys). split; [done|]. apply elem_of_cons. auto.
      * destruct (insert_tail_lookup ts t y ys t' xs Ht Hxs) as (zs & ? & Hsub). eauto.
    + intros (t' & xs & Hxs & Hx). destruct (decide (t' = t)) as [->|Hne].
      * rewrite Ht in Hxs. simplify_eq. apply elem_of_cons in Hx as [->|Hx]; [by left|].
        right. exists t, ys. split; [|done].
        apply list_lookup_insert_eq. by eapply lookup_lt_Some.
      * right. exists t', xs. split; [|done]. by rewrite list_lookup_insert_ne.
Qed.

Lemma interleave_filter {A} (P : A → Prop) `{!∀ x, Decision (P x)} sched
    (ts : list (list A)) l t :
  interleave sched ts = Some l →
  (∀ t' xs x, ts !! t' = Some xs → x ∈ xs → P x → t' = t) →
  filter P l = filter P (default [] (ts !! t)).
Proof.
  revert ts l. induction sched as [|t0 sched IH]; intros ts l Hl Hown.
  - apply interleave_done in Hl as [-> Hnil].
    destruct (ts !! t) as [xs|] eqn:Hxs; [|done]. by rewrite (Hnil _ _ Hxs).
  - apply interleave_step in Hl as (y & ys & l' & Ht0 & -> & Hl').
    assert (Hown' : ∀ t' xs x, <[t0 := ys]> ts !! t' = Some xs → x ∈ xs → P x → t' = t).
    { intros t' xs x Hxs Hx HP.
      destruct (insert_tail_lookup ts t0 y ys t' xs Ht0 Hxs) as (zs & ? & Hsub). eauto. }
    rewrite filter_cons, (IH _ _ Hl' Hown'). destruct (decide (t0 = t)) as [->|Hne].
    + rewrite Ht0, list_lookup_insert_eq by by eapply lookup_lt_Some.
      cbn [from_option id]. by rewrite filter_cons.
    + rewrite list_lookup_insert_ne by done. rewrite decide_False; [done|].
      intros HP. apply Hne. eapply Hown; [done| |done]. apply elem_of_cons. auto.
Qed.

Lemma interleave_length {A} sched (ts : list (list A)) l :
  interleave sched ts = Some l → length l = sum_list (length <$> ts).
Proof.
  revert ts l. induction sched as [|t sched IH]; intros ts l Hl.
  - apply interleave_done in Hl as [-> Hnil]. symmetry.
    induction ts as [|xs ts IHts]; [done|]. cbn [fmap list_fmap sum_list sum_list_with].
    rewrite (Hnil 0%nat xs) by done. rewrite IHts; [done|].
    intros t ys Hys. by apply (Hnil (S t)).
  - apply interleave_step in Hl as (y & ys & l' & Ht & -> & Hl').
    cbn [length]. rewrite (IH _ _ Hl'). clear -Ht.
    revert t Ht. induction ts as [|xs ts IHts]; intros [|t] Ht; simplify_eq/=; [done|].
    rewrite <- (IHts t Ht). lia.
Qed.

Lemma elem_of_keys_assoc k (es : list (string * string)) :
  k ∈ es.*1 ↔ is_Some (assoc k es).
Proof.
  pose proof (assoc_None_keys k es) as Hnone.
  destruct (assoc k es) as [v|] eqn:Hk.
  - split; [by eauto|]. intros _. destruct (decide (k ∈ es.*1)) as [|Hn]; [done|].
    by apply Hnone in Hn.
  - split; [|by intros [? ?]]. intros Hin. by apply Hnone in Hin.
Qed.

Lemma upsert_all_cons k v kvs es :
  upsert_all ((k, v) :: kvs) es = upsert_all kvs (upsert_entries k v es).
Proof. done. Qed.

Lemma elem_of_keys_upsert_all k kvs es :
  k ∈ (upsert_all kvs es).*1 ↔ k ∈ es.*1 ∨ k ∈ kvs.*1.
Proof.
  revert es. induction kvs as [|[k' v'] kvs IH]; intros es.
  - cbn. rewrite elem_of_nil. tauto.
  - rewrite upsert_all_cons, IH, fmap_cons, elem_of_cons, !elem_of_keys_assoc, assoc_upsert_entries.
    cbn [fst]. destruct (decide (k' = k)) as [->|Hne]; [by intuition eauto|].
    intuition congruence.
Qed.

Lemma NoDup_fmap_inj {A B} (f : A → B) (l : list A) x y :
  NoDup (f <$> l) → x ∈ l → y ∈ l → f x = f y → x = y.
Proof.
  induction l as [|z l IH]; [by intros _ ?%elem_of_nil|].
  rewrite fmap_cons, NoDup_cons. intros [Hz Hnd] Hx Hy Hf.
  apply elem_of_cons in Hx as [->|Hx]; apply elem_of_cons in Hy as [->|Hy]; auto.
  - destruct Hz. rewrite Hf. by apply list_elem_of_fmap_2.
  - destruct Hz. rewrite <- Hf. by apply list_elem_of_fmap_2.
Qed.

(** ** When every request is granted *)

Lemma yields_ret {A} (P : A → Prop) x : P x → yields P (ret x).
Proof. intros HP w y w' [= <- <-]. done. Qed.

Lemma yields_bind {A B} (P : A → Prop) (Q : B → Prop) (m : M A) (k : A → M B) :
  yields P m → (∀ x, P x → yields Q (k x)) → yields Q (bind m k).
Proof.
  intros Hm Hk w y w'. unfold bind. destruct (m w) as [[x w1]|] eqn:Hrun; [|done].
  destruct (Hm _ _ _ Hrun) as [HP <-]. apply Hk, HP.
Qed.

Lemma yields_any {A} (P : A → Prop) (m : M A) :
  yields P m → yields (λ _, True) m.
Proof. intros Hm w x w' Hrun. by destruct (Hm _ _ _ Hrun). Qed.

Lemma yields_free p : yields (λ _, True) (free p).
Proof.
  intros w x w'. unfold free. destruct p as [|a|]; [by intros [= <- <-]| |done].
  destruct (heap w !! a); [|done]. by intros [= <- <-].
Qed.

Lemma yields_load a : yields (λ _, True) (load a).
Proof.
  intros w x w'. unfold load. destruct (heap w !! a) as [[|st]|]; try done.
  by intros [= <- <-].
Qed.

Lemma yields_modify a f : yields (λ _, True) (modify a f).
Proof.
  intros w x w'. unfold modify. destruct (heap w !! a) as [[|st]|]; try done.
  by intros [= <- <-].
Qed.

Lemma yields_pair_at a i : yields (λ _, True) (pair_at a i).
Proof.
  unfold pair_at. eapply yields_bind; [apply yields_load|]. intros st _.
  destruct (pairs st !! Z.to_nat i); [by apply yields_ret | by intros w x w'].
Qed.

Lemma yields_set_pair a i f : yields (λ _, True) (set_pair a i f).
Proof.
  unfold set_pair. eapply yields_bind; [apply yields_pair_at|]. intros p _.
  apply yields_modify.
Qed.

Lemma yields_atomic_fetch_add a n : yields (λ _, True) (atomic_fetch_add a n).
Proof. apply yields_modify. Qed.

Lemma update_item_granted a i p v w b w' :
  faults w = [] → Z.of_nat (size (heap w)) < SIZE_MAX →
  update_item a i p v w = Some (b, w') → b = true ∧ faults w' = [].
Proof.
  intros Hfs Hroom. unfold update_item.
  destruct (duplicate_string_cases v w) as (q & w1 & Hdup & Halloc).
  rewrite (bind_run _ _ _ _ _ Hdup).
  destruct Halloc as [fs Hdenied|fs an Hquiet Han _]; [destruct (Hdenied Hfs); lia|].
  rewrite (Hquiet Hfs). intros Hrun.
  eapply (yields_bind _ (λ b, b = true)) in Hrun as [-> ->]; [done|apply yields_free|].
  intros _ _. eapply yields_bind; [apply yields_set_pair|]. intros _ _.
  eapply yields_bind; [apply yields_atomic_fetch_add|]. intros _ _.
  by apply yields_ret.
Qed.

Lemma append_item_granted a k v w b w' :
  faults w = [] → Z.of_nat (size (heap w)) + 2 ≤ SIZE_MAX →
  append_item a k v w = Some (b, w') → b = true ∧ faults w' = [].
Proof.
  intros Hfs Hroom. unfold append_item.
  destruct (duplicate_string_cases k w) as (qk & w1 & Hdk & Hk).
  rewrite (bind_run _ _ _ _ _ Hdk).
  destruct Hk as [fs1 Hdenied|fs1 ak Hquiet1 Hak _]; [destruct (Hdenied Hfs); lia|].
  rewrite (Hquiet1 Hfs).
  destruct (duplicate_string_cases v (mkWorld (<[ak:=Chars k]> (heap w)) [])) as (qv & w2 & Hdv & Hv).
  rewrite (bind_run _ _ _ _ _ Hdv).
  destruct Hv as [fs2 Hdenied|fs2 av Hquiet2 Hav _].
  { destruct (Hdenied eq_refl) as [_ Hfull]. cbn [heap] in Hfull.
    rewrite map_size_insert_None in Hfull by done. lia. }
  rewrite (Hquiet2 eq_refl). intros Hrun.
  eapply (yields_bind _ (λ b, b = true)) in Hrun as [-> ->]; [done|apply yields_load|].
  intros st _. eapply yields_bind; [apply yields_set_pair|]. intros _ _.
  eapply yields_bind; [apply yields_set_pair|]. intros _ _.
  eapply yields_bind; [apply yields_modify|]. intros _ _.
  eapply yields_bind; [apply yields_atomic_fetch_add|]. intros _ _.
  by apply yields_ret.
Qed.

Lemma growth_size w a st r w1 :
  table w (Ptr a) = Some st → growth w a st r w1 → size (heap w1) = size (heap w).
Proof.
  intros Ha%table_heap [Hroom|fs Hfull _|fs Hfull _|fs a' Hfull _ Ha' Hroom]; cbn [heap];
    try done.
  - rewrite map_size_insert_Some; eauto.
  - rewrite map_size_insert_None, map_size_delete_Some; eauto.
    + assert (size (heap w) ≠ 0%nat); [|lia]. apply map_size_ne_0_lookup_2 with a. eauto.
    + rewrite lookup_delete_ne; congruence.
Qed.

Lemma growth_granted w a st r w1 :
  growth w a st r w1 →
  faults w = [] → Z.of_nat (size (heap w)) < SIZE_MAX →
  is_Some r ∧ faults w1 = [].
Proof.
  intros [Hroom|fs Hfull Hdenied|fs Hfull Hquiet|fs a' Hfull Hquiet Ha' Hroom] Hfs Hsize;
    cbn [faults]; eauto.
  destruct (Hdenied Hfs). lia.
Qed.

(** One upsert allocates at most two blocks more than it frees; when
    every request is granted and two addresses are left, it answers [true]. *)
Lemma upsert_room w a st k v b sp w' :
  wf w (Ptr a) → table w (Ptr a) = Some st →
  store_add_or_update_item (Some (Ptr a)) (Some k) (Some v) w = Some ((b, sp), w') →
  (size (heap w') ≤ size (heap w) + 2)%nat ∧
  (faults w = [] → Z.of_nat (size (heap w)) + 2 ≤ SIZE_MAX → b = true ∧ faults w' = []).
Proof.
  intros Hw Hst. pose proof Hw as [Hsize (st0 & Hst0 & Hwf)].
  assert (st0 = st) by congruence. subst st0.
  unfold store_add_or_update_item. unfold bind at 1. rewrite (scan_run a k _ w st Hst Hwf).
  destruct (first_hit (heap w) k (live st)) as [[j p]|] eqn:Hhit.
  - destruct (update_item_spec w a st j p k v Hw Hst Hhit)
      as (b1 & w1 & st1 & Hrun & _ & _ & Hpost).
    rewrite (bind_run _ _ _ _ _ Hrun). intros [= <- <- <-]. split.
    + destruct b1; [destruct Hpost as (_ & _ & _ & _ & _ & ->)|destruct Hpost as [-> _]]; lia.
    + intros Hfs Hroom. apply (update_item_granted a (Z.of_nat j) p v w); [done|lia|done].
  - unfold ret at 1.
    destruct (grow_if_full_cases w a st Hst) as (r & w1 & Hgrow & Hcase).
    destruct (grow_if_full_spec w a st Hw Hst) as (r' & w1' & Hgrow' & Hr).
    assert (r' = r ∧ w1' = w1) as [-> ->] by (split; congruence).
    pose proof (growth_size w a st r w1 Hst Hcase) as Hsz1.
    rewrite (bind_run _ _ _ _ _ Hgrow). destruct r as [a1|].
    + destruct Hr as (st1 & Hst1 & Hw1 & _ & _ & _ & Hlt & _).
      pose proof Hw1 as (_ & st0 & ? & Hwf1). assert (st0 = st1) by congruence. subst st0.
      destruct (append_item_run w1 a1 st1 k v Hst1) as (b2 & w2 & Hrun & Hpost);
        [destruct Hwf1; lia|].
      rewrite (bind_run _ _ _ _ _ Hrun). intros [= <- <- <-]. split.
      * destruct b2.
        -- destruct Hpost as (ak & av & Hak & Hav & Hne & _ & ->).
           rewrite map_size_insert_Some, !map_size_insert_None; try done; [lia|..].
           ++ by rewrite lookup_insert_ne.
           ++ apply table_heap in Hst1.
              rewrite !lookup_insert_ne by congruence. eauto.
        -- rewrite Hpost. lia.
      * intros Hfs Hroom.
        destruct (growth_granted w a st _ w1 Hcase Hfs) as [_ Hfs1]; [lia|].
        apply (append_item_granted a1 k v w1); [done|lia|done].
    + intros [= <- <- <-]. split; [lia|]. intros Hfs Hroom.
      destruct (growth_granted w a st _ w1 Hcase Hfs) as [[? [=]] _]. lia.
Qed.

Lemma upserts_granted kvs w a st rs p' w' :
  wf w (Ptr a) → table w (Ptr a) = Some st →
  faults w = [] →
  Z.of_nat (size (heap w)) + 2 * Z.of_nat (length kvs) ≤ SIZE_MAX →
  session (upserts kvs) (Ptr a) w = Some ((rs, p'), w') →
  Forall (λ r, r = Done true) rs.
Proof.
  revert w a st rs. induction kvs as [|[k v] kvs IH]; intros w a st rs Hw Hst Hfs Hroom.
  - intros [= <- <- <-]. constructor.
  - destruct (upsert_spec w a st k v Hw Hst) as (b & a1 & w1 & st1 & Hup & Hst1 & Hw1 & _).
    destruct (upsert_room w a st k v _ _ _ Hw Hst Hup) as [Hsz Hgranted].
    cbn [length] in Hroom. destruct Hgranted as [-> Hfs1]; [done|lia|].
    cbn [upserts map session perform fst snd]. fold (upserts kvs).
    rewrite (bind_run _ _ _ _ _ (bind_run _ _ _ _ _ Hup)).
    cbn [from_option id]. unfold ret at 1.
    destruct (session (upserts kvs) (Ptr a1) w1) as [[[rs1 p1] w2]|] eqn:Hrest;
      unfold bind; rewrite Hrest; [|done].
    intros [= <- <- <-]. constructor; [done|].
    apply (IH w1 a1 st1 rs1 Hw1 Hst1 Hfs1); [lia|done].
Qed.

Lemma create_granted w c p w' :
  faults w = [] → Z.of_nat (size (heap w)) < SIZE_MAX →
  store_create c w = Some (p, w') →
  p ≠ NULL ∧ faults w' = [] ∧ size (heap w') = S (size (heap w)).
Proof.
  intros Hfs Hroom. unfold store_create.
  set (c' := if c =? 0 then 8 else c).
  set (bytes := size_wrap (sizeof_KeyValueStore + size_wrap (c' * sizeof_KeyValuePair))).
  destruct (malloc_cases (Table (mkStore 0 0 0 (replicate (slots_of bytes) wild_pair))) w)
    as (q & w1 & Hm & Hcase).
  rewrite (bind_run _ _ _ _ _ Hm).
  destruct Hcase as [fs Hdenied|fs a Hquiet Ha _]; [destruct (Hdenied Hfs); lia|].
  destruct (bytes <? sizeof_mtx_t); [done|].
  rewrite (Hquiet Hfs). unfold mtx_init, next_decision. unfold bind at 1 2. cbn [heap faults].
  unfold ret at 1. destruct (bytes <? sizeof_KeyValueStore); [done|].
  rewrite (bind_run _ _ _ _ _ (modify_run a _ _ _ (table_insert _ _ _ _))).
  intros [= <- <-]. cbn [heap faults]. split; [done|]. split; [done|].
  rewrite insert_insert_eq. by apply map_size_insert_None.
Qed.

Lemma created_upserts_granted w0 c kvs p w :
  faults w0 = [] →
  Z.of_nat (size (heap w0)) + 2 * Z.of_nat (length kvs) + 1 ≤ SIZE_MAX →
  Z.of_nat (size (heap w0)) ≤ SIZE_MAX → 0 ≤ c ≤ MAX_CAPACITY →
  store_create c w0 = Some (p, w) →
  p ≠ NULL ∧
  ∀ rs p' w', session (upserts kvs) p w = Some ((rs, p'), w') →
              Forall (λ r, r = Done true) rs.
Proof.
  intros Hfs Hroom Hsize Hc Hcreate.
  destruct (create_granted w0 c p w Hfs) as (Hnn & Hfs' & Hsz); [lia|done|].
  split; [done|]. intros rs p' w' Hsession.
  destruct (create_spec w0 c Hsize Hc) as (p0 & w1 & Hcreate' & Hp).
  assert (p0 = p ∧ w1 = w) as [-> ->] by (split; congruence).
  destruct p as [|a|]; [done| |done]. destruct Hp as (_ & _ & Hw).
  pose proof Hw as (_ & st & Hst & _).
  apply (upserts_granted kvs w a st rs p' w' Hw Hst Hfs'); [|done]. rewrite Hsz. lia.
Qed.

(** ** Runs long enough for the counter to wrap *)

Lemma interleave_single {A} (l : list A) :
  interleave (replicate (length l) 0%nat) [l] = Some l.
Proof.
  induction l as [|x l IH]; [done|].
  cbn [length replicate interleave]. change ([x :: l] !! 0%nat) with (Some (x :: l)).
  cbv beta iota. change (<[0%nat := l]> [x :: l]) with [l]. by rewrite IH.
Qed.

Lemma worker_keys_single D : worker_keys 1 D (λ _ i, pretty i) = pretty <$> seq 0 D.
Proof.
  unfold worker_keys. change (seq 0 1) with [0%nat]. cbn [list_prod].
  rewrite app_nil_r, <- list_fmap_compose. by apply list_fmap_ext.
Qed.

Lemma worker_items_length D key val upd t :
  length (worker_items D key val upd t) = S D.
Proof. unfold worker_items. rewrite length_app, length_fmap, length_seq. cbn. lia. Qed.

(** A thread upserting [UINT_MAX] keys and then its first key again, alone
    and with every request granted: all [UINT_MAX + 1] calls answer [true],
    and the counter reads 0. *)
Lemma long_run_wraps :
  ∃ (D : nat) sched kvs w rs p' w' st',
    Z.of_nat D = UINT_MAX ∧
    NoDup (worker_keys 1 D (λ _ i, pretty i)) ∧
    interleave sched (workers 1 D (λ _ i, pretty i) (λ _, "v"%string) (λ _, 0%nat)) = Some kvs ∧
    store_create 10 empty_world = Some (Ptr 1, w) ∧
    session (upserts kvs) (Ptr 1) w = Some ((rs, p'), w') ∧
    Forall (λ r, r = Done true) rs ∧
    successes rs = UINT_MAX + 1 ∧
    table w' p' = Some st' ∧
    add_count st' = 0.
Proof.
  assert (HD : ∃ D : nat, Z.of_nat D = UINT_MAX) by (exists (Z.to_nat UINT_MAX); by rewrite Z2Nat.id).
  destruct HD as [D HD].
  set (kvs := worker_items D (λ _ i, pretty i) (λ _, "v"%string) (λ _, 0%nat) 0).
  assert (Hlen : length kvs = S D) by apply worker_items_length.
  destruct (create_spec empty_world 10) as (p & w & Hcreate & Hp); [compute_done..|].
  destruct (create_granted empty_world 10 p w eq_refl) as (Hnn & Hfs & Hsz);
    [compute_done|done|].
  assert (p = Ptr 1) as ->.
  { revert Hcreate. clear. by vm_compute; intros [= <- _]. }
  destruct Hp as (_ & _ & Hw). pose proof Hw as (_ & st & Hst & _).
  destruct (session_spec (upserts kvs) w 1 st Hw Hst)
    as (rs & a' & w' & st' & Hsession & Hst' & Hw' & Hlrs & Hadd & _).
  assert (Hall : Forall (λ r, r = Done true) rs).
  { apply (upserts_granted kvs w 1 st rs (Ptr a') w' Hw Hst Hfs); [|done].
    rewrite Hsz, Hlen. change (size (heap empty_world)) with 0%nat.
    unfold SIZE_MAX, UINT_MAX in *. lia. }
  assert (Hn : successes rs = UINT_MAX + 1).
  { rewrite (successes_all rs Hall), Hlrs. unfold upserts. rewrite length_map, Hlen. lia. }
  exists D, (replicate (S D) 0%nat), kvs, w, rs, (Ptr a'), w', st'.
  split; [done|]. split; [rewrite worker_keys_single; apply NoDup_fmap_2; [apply _|apply NoDup_seq]|].
  split; [rewrite <- Hlen; apply interleave_single|].
  do 5 (split; [done|]).
  rewrite Hadd, Hn.
  assert (add_count st = 0) as ->.
  { clear -Hst Hcreate. vm_compute in Hcreate. injection Hcreate as <-.
    vm_compute in Hst. by injection Hst as <-. }
  done.
Qed.

(** ** What an upsert leaves alone *)

Lemma outside_lookup h a st x :
  outside h a st !! x
  = if decide (x = a ∨ Ptr x ∈ owned (live st)) then None else h !! x.
Proof.
  unfold outside. destruct (decide (x = a ∨ Ptr x ∈ owned (live st))) as [Hin|Hnin].
  - apply release_lookup_eq. rewrite elem_of_cons. destruct Hin as [->|?]; auto.
  - apply release_lookup_ne. rewrite elem_of_cons. intros [[= ->]|?]; tauto.
Qed.

Lemma owned_strings h st x :
  wf_store h st → Ptr x ∈ owned (live st) → ∃ s, h !! x = Some (Chars s).
Proof.
  intros Hwf Hx. pose proof (wf_strings _ _ Hwf) as Hstr. rewrite Forall_forall in Hstr.
  destruct (Hstr _ Hx) as [s (x' & ? & ?)%text_Some]. simplify_eq. eauto.
Qed.

Lemma owned_pointers h st q :
  wf_store h st → q ∈ owned (live st) → ∃ x s, q = Ptr x ∧ h !! x = Some (Chars s).
Proof.
  intros Hwf Hq. pose proof (wf_strings _ _ Hwf) as Hstr. rewrite Forall_forall in Hstr.
  destruct (Hstr _ Hq) as [s (x & ? & ?)%text_Some]. eauto.
Qed.

Lemma live_grown st :
  0 ≤ item_count st ≤ capacity st → Z.of_nat (length (pairs st)) = capacity st →
  capacity st ≤ size_wrap (capacity st * 2) →
  live (grown st) = live st.
Proof.
  intros Hn Hslots Hcap. unfold live, grown. cbn [item_count pairs].
  rewrite take_resize, Nat.min_l by lia. by rewrite resize_le by lia.
Qed.

Lemma value_hit_ext h h' k ps ps' :
  Forall2 (λ p p', (text h' (key p') = Some k ↔ text h (key p) = Some k) ∧
                   (text h (key p) = Some k → value p' = value p)) ps ps' →
  match first_hit h' k ps' with Some (_, p) => value p | None => NULL end
  = match first_hit h k ps with Some (_, p) => value p | None => NULL end.
Proof.
  unfold first_hit. induction 1 as [|p p' ps ps' [Hiff Hval] _ IH]; [done|].
  cbn [list_find]. repeat case_decide; try tauto; try by apply Hval.
  destruct (list_find _ ps') as [[? ?]|], (list_find _ ps) as [[? ?]|]; done.
Qed.

Lemma value_hit_snoc h h' k ps ps' p0 :
  Forall2 (λ p p', (text h' (key p') = Some k ↔ text h (key p) = Some k) ∧
                   (text h (key p) = Some k → value p' = value p)) ps ps' →
  text h' (key p0) ≠ Some k →
  match first_hit h' k (ps' ++ [p0]) with Some (_, p) => value p | None => NULL end
  = match first_hit h k ps with Some (_, p) => value p | None => NULL end.
Proof.
  unfold first_hit. intros Hps Hp0. induction Hps as [|p p' ps ps' [Hiff Hval] _ IH].
  - cbn [app list_find]. by rewrite decide_False.
  - cbn [app list_find]. repeat case_decide; try tauto; try by apply Hval.
    destruct (list_find _ (ps' ++ _)) as [[? ?]|], (list_find _ ps) as [[? ?]|]; done.
Qed.

Lemma value_hit_same h h' k ps :
  (∀ p, p ∈ ps → text h' (key p) = text h (key p)) →
  Forall2 (λ p p', (text h' (key p') = Some k ↔ text h (key p) = Some k) ∧
                   (text h (key p) = Some k → value p' = value p)) ps ps.
Proof.
  intros Hps. apply Forall_Forall2_diag, Forall_forall. intros p Hp.
  by rewrite (Hps p Hp).
Qed.

Lemma key_owned p ps : p ∈ ps → key p ∈ owned ps.
Proof. intros Hp. apply elem_of_owned. eauto. Qed.

Lemma update_item_frame h a st j p v an va old :
  h !! a = Some (Table st) → wf_store h st →
  live st !! j = Some p →
  value p = Ptr va → h !! va = Some (Chars old) → h !! an = None →
  let st' := mkStore (uint_wrap (add_count st + 1)) (item_count st) (capacity st)
                     (<[j := mkPair (key p) (Ptr an)]> (pairs st)) in
  let h' := <[a := Table st']> (delete va (<[an := Chars v]> h)) in
  outside h' a st' = outside h a st ∧
  (∀ q, q ∈ owned (live st) → q ≠ Ptr va → q ∈ owned (live st') ∧ text h' q = text h q) ∧
  (∀ k', text h (key p) ≠ Some k' → value_pointer h' st' k' = value_pointer h st k').
Proof.
  intros Ha Hwf Hj Hva Hold Han st' h'.
  pose proof (wf_separate _ _ Hwf) as Hsep.
  pose proof (take_drop_middle _ _ _ Hj) as Hsplit.
  set (l1 := take j (live st)) in *. set (l2 := drop (S j) (live st)) in *.
  assert (Hlive' : live st' = l1 ++ mkPair (key p) (Ptr an) :: l2).
  { apply live_insert. by eapply lookup_lt_Some. }
  assert (Hin' : ∀ q, q ∈ owned (live st') ↔
                      q ∈ owned l1 ∨ q = key p ∨ q = Ptr an ∨ q ∈ owned l2).
  { intros q. rewrite Hlive', owned_app. cbn [owned key value].
    by rewrite elem_of_app, !elem_of_cons. }
  assert (Hin : ∀ q, q ∈ owned (live st) ↔
                     q ∈ owned l1 ∨ q = key p ∨ q = Ptr va ∨ q ∈ owned l2).
  { intros q. rewrite <- Hsplit, owned_app. cbn [owned]. rewrite Hva.
    by rewrite elem_of_app, !elem_of_cons. }
  rewrite <- Hsplit, owned_app in Hsep. cbn [owned] in Hsep. rewrite Hva in Hsep.
  apply NoDup_app in Hsep as (_ & Hdisj & Hsep2).
  apply NoDup_cons in Hsep2 as [Hkva Hsep2]. apply NoDup_cons in Hsep2 as [Hva2 _].
  assert (Hva1 : Ptr va ∉ owned l1).
  { intros Hq. apply (Hdisj _ Hq). rewrite !elem_of_cons. auto. }
  assert (Hkp : key p ≠ Ptr va).
  { intros Heq. apply Hkva. rewrite Heq, elem_of_cons. auto. }
  assert (Hva' : Ptr va ∉ owned (live st')).
  { rewrite Hin'. intros [?|[?|[[= ->]|?]]]; try done. congruence. }
  assert (Han' : Ptr an ∉ owned (live st)).
  { intros Hq. destruct (owned_strings h st _ Hwf Hq) as [s Hs]. congruence. }
  assert (Haa : a ≠ va ∧ a ≠ an) by (split; congruence).
  assert (Hkeep : ∀ q, q ∈ owned (live st) → q ≠ Ptr va →
                       q ∈ owned (live st') ∧ text h' q = text h q).
  { intros q Hq Hne. split.
    + apply Hin'. apply Hin in Hq. destruct Hq as [?|[?|[?|?]]]; auto. done.
    + destruct (owned_pointers h st q Hwf Hq) as (x & s & -> & Hx).
      apply text_agree. intros y [= <-]. unfold h'.
      rewrite lookup_insert_ne, lookup_delete_ne, lookup_insert_ne; congruence. }
  split; [|split; [done|]].
  - apply map_eq. intros x. rewrite !outside_lookup.
    destruct (decide (x = a)) as [->|Hxa].
    { by rewrite !decide_True by auto. }
    destruct (decide (x = an)) as [->|Hxn].
    { rewrite decide_True by (right; apply Hin'; auto).
      by rewrite decide_False by (intros [?|?]; done). }
    destruct (decide (x = va)) as [->|Hxv].
    { rewrite decide_False by (intros [?|?]; done).
      rewrite decide_True by (right; apply Hin; auto).
      unfold h'. by rewrite lookup_insert_ne, lookup_delete_eq. }
    assert (Hiff : Ptr x ∈ owned (live st') ↔ Ptr x ∈ owned (live st)).
    { rewrite Hin', Hin. split; intros [?|[?|[?|?]]]; auto; congruence. }
    destruct (decide (Ptr x ∈ owned (live st))) as [Hx|Hx].
    + rewrite !decide_True; [done|auto|right; by apply Hiff].
    + rewrite !decide_False; [|tauto|intros [?|?%Hiff]; done].
      unfold h'. by rewrite lookup_insert_ne, lookup_delete_ne, lookup_insert_ne.
  - intros k' Hk'. unfold value_pointer. rewrite Hlive', <- Hsplit.
    assert (Hkey : text h' (key p) = text h (key p)).
    { apply Hkeep; [|done]. apply Hin. auto. }
    apply value_hit_ext. apply Forall2_app; [|constructor].
    + apply value_hit_same. intros y Hy. apply Hkeep.
      * apply Hin. left. by apply key_owned.
      * intros Heq. apply Hva1. rewrite <- Heq. by apply key_owned.
    + cbn [key value]. rewrite Hkey. tauto.
    + apply value_hit_same. intros y Hy. apply Hkeep.
      * apply Hin. do 3 right. by apply key_owned.
      * intros Heq. apply Hva2. rewrite <- Heq. by apply key_owned.
Qed.

Lemma live_append st p c :
  0 ≤ item_count st < Z.of_nat (length (pairs st)) →
  item_count st + 1 ≤ SIZE_MAX →
  live (mkStore c (size_wrap (item_count st + 1)) (capacity st)
                (<[Z.to_nat (item_count st) := p]> (pairs st)))
  = live st ++ [p].
Proof.
  intros Hn Hmax. unfold live. cbn [item_count pairs].
  rewrite size_wrap_small by lia.
  replace (Z.to_nat (item_count st + 1)) with (S (Z.to_nat (item_count st))) by lia.
  rewrite (take_S_r _ _ p) by (apply list_lookup_insert_eq; lia).
  by rewrite take_insert_ge.
Qed.

Lemma append_item_frame h a st k v ak av :
  h !! a = Some (Table st) → wf_store h st →
  item_count st < capacity st →
  h !! ak = None → h !! av = None →
  let st' := mkStore (uint_wrap (add_count st + 1)) (size_wrap (item_count st + 1))
                     (capacity st)
                     (<[Z.to_nat (item_count st) := mkPair (Ptr ak) (Ptr av)]> (pairs st)) in
  let h' := <[a := Table st']> (<[av := Chars v]> (<[ak := Chars k]> h)) in
  outside h' a st' = outside h a st ∧
  (∀ q, q ∈ owned (live st) → q ∈ owned (live st') ∧ text h' q = text h q) ∧
  (∀ k', k' ≠ k → ak ≠ av → value_pointer h' st' k' = value_pointer h st k').
Proof.
  intros Ha Hwf Hroom Hak Hav st' h'.
  assert (Hlive' : live st' = live st ++ [mkPair (Ptr ak) (Ptr av)]).
  { apply live_append; destruct Hwf; lia. }
  assert (Hin' : ∀ q, q ∈ owned (live st') ↔ q ∈ owned (live st) ∨ q = Ptr ak ∨ q = Ptr av).
  { intros q. rewrite Hlive', owned_app. cbn [owned key value].
    rewrite elem_of_app, !elem_of_cons, elem_of_nil. tauto. }
  assert (Hnew : (Ptr ak ∉ owned (live st)) ∧ (Ptr av ∉ owned (live st))).
  { split; intros Hq; destruct (owned_strings h st _ Hwf Hq) as [s Hs]; congruence. }
  destruct Hnew as [Hnk Hnv].
  assert (Haa : a ≠ ak ∧ a ≠ av) by (split; congruence).
  assert (Hkeep : ∀ q, q ∈ owned (live st) → q ∈ owned (live st') ∧ text h' q = text h q).
  { intros q Hq. split; [apply Hin'; auto|].
    destruct (owned_pointers h st q Hwf Hq) as (x & s & -> & Hx).
    apply text_agree. intros y [= <-]. unfold h'.
    rewrite !lookup_insert_ne; congruence. }
  split; [|split; [done|]].
  - apply map_eq. intros x. rewrite !outside_lookup.
    destruct (decide (x = a)) as [->|Hxa].
    { by rewrite !decide_True by auto. }
    destruct (decide (x = ak)) as [->|Hxk].
    { rewrite decide_True by (right; apply Hin'; auto).
      by rewrite decide_False by (intros [?|?]; done). }
    destruct (decide (x = av)) as [->|Hxv].
    { rewrite decide_True by (right; apply Hin'; auto).
      by rewrite decide_False by (intros [?|?]; done). }
    assert (Hiff : Ptr x ∈ owned (live st') ↔ Ptr x ∈ owned (live st)).
    { rewrite Hin'. split; [intros [?|[?|?]]|]; auto; congruence. }
    destruct (decide (Ptr x ∈ owned (live st))) as [Hx|Hx].
    + rewrite !decide_True; [done|auto|right; by apply Hiff].
    + rewrite !decide_False; [|tauto|intros [?|?%Hiff]; done].
      unfold h'. by rewrite !lookup_insert_ne.
  - intros k' Hk' Hne. unfold value_pointer. rewrite Hlive'.
    assert (Hold : Forall2 (λ p p', (text h' (key p') = Some k' ↔ text h (key p) = Some k') ∧
                     (text h (key p) = Some k' → value p' = value p)) (live st) (live st)).
    { apply value_hit_same. intros y Hy. by apply Hkeep, key_owned. }
    assert (Hnk' : text h' (Ptr ak) ≠ Some k').
    { unfold h'. cbn [text]. rewrite !lookup_insert_ne, lookup_insert_eq by congruence.
      congruence. }
    by apply value_hit_snoc.
Qed.

Lemma growth_frame w a st r w1 :
  table w (Ptr a) = Some st → wf_store (heap w) st →
  2 * item_count st + 1 ≤ SIZE_MAX →
  growth w a st r w1 →
  match r with
  | None => heap w1 = heap w
  | Some a1 =>
      ∃ st1, table w1 (Ptr a1) = Some st1 ∧
        outside (heap w1) a1 st1 = outside (heap w) a st ∧
        live st1 = live st ∧
        (∀ x, x ≠ a → x ≠ a1 → heap w1 !! x = heap w !! x) ∧
        (a1 = a ∨ item_count st = capacity st) ∧
        (a1 ≠ a → heap w1 !! a = None)
  end.
Proof.
  intros Hst Hwf Hcap2 Hcase. apply table_heap in Hst as Ha.
  assert (Hlive : capacity st ≤ item_count st → live (grown st) = live st).
  { intros Hfull. apply live_grown; try apply Hwf.
    rewrite size_wrap_small; destruct Hwf; lia. }
  assert (Hna : Ptr a ∉ owned (live st)).
  { intros Hq. destruct (owned_strings _ _ _ Hwf Hq) as [s Hs]. congruence. }
  destruct Hcase as [Hroom|fs Hfull _|fs Hfull _|fs a' Hfull _ Ha' Hroom]; cbn [heap].
  - exists st. repeat split; auto. done.
  - done.
  - exists (grown st). split; [apply table_insert|]. split; [|split; [auto|]].
    + apply map_eq. intros x. rewrite !outside_lookup, (Hlive Hfull).
      destruct (decide (x = a ∨ Ptr x ∈ owned (live st))) as [|Hx]; [done|].
      rewrite lookup_insert_ne; [done|]. intros <-. tauto.
    + split; [intros x Hx _; by rewrite lookup_insert_ne|]. split; [auto|done].
  - assert (Hne : a ≠ a') by congruence.
    assert (Hna' : Ptr a' ∉ owned (live st)).
    { intros Hq. destruct (owned_strings _ _ _ Hwf Hq) as [s Hs]. congruence. }
    exists (grown st). split; [apply table_insert|]. split; [|split; [auto|]].
    + apply map_eq. intros x. rewrite !outside_lookup, (Hlive Hfull).
      destruct (decide (x = a')) as [->|Hxa'].
      { rewrite decide_True by auto.
        by rewrite decide_False by (intros [?|?]; [congruence|done]). }
      destruct (decide (x = a)) as [->|Hxa].
      { rewrite decide_False by (intros [?|?]; [congruence|done]).
        rewrite decide_True by auto.
        by rewrite lookup_insert_ne, lookup_delete_eq. }
      destruct (decide (Ptr x ∈ owned (live st))) as [Hx|Hx].
      * by rewrite !decide_True by auto.
      * rewrite !decide_False by tauto. by rewrite lookup_insert_ne, lookup_delete_ne.
    + split; [intros x Hx Hx'; by rewrite lookup_insert_ne, lookup_delete_ne|].
      split; [right; destruct Hwf; lia|].
      intros _. by rewrite lookup_insert_ne, lookup_delete_eq.
Qed.

Lemma upsert_frame w a st k v :
  wf w (Ptr a) → table w (Ptr a) = Some st →
  ∃ b a' w' st',
    store_add_or_update_item (Some (Ptr a)) (Some k) (Some v) w
      = Some ((b, Some (Ptr a')), w') ∧
    table w' (Ptr a') = Some st' ∧
    outside (heap w') a' st' = outside (heap w) a st ∧
    (a' = a ∨ item_count st = capacity st ∧ k ∉ keys (heap w) st) ∧
    (a' ≠ a → table w' (Ptr a) = None) ∧
    (∀ q, q ∈ owned (live st) → (b = true → q ≠ value_pointer (heap w) st k) →
          q ∈ owned (live st') ∧ text (heap w') q = text (heap w) q) ∧
    (∀ k', (b = true → k' ≠ k) →
           value_pointer (heap w') st' k' = value_pointer (heap w) st k').
Proof.
  intros Hw Hst. pose proof Hw as [Hsize (st0 & Hst0 & Hwf)].
  assert (st0 = st) by congruence. subst st0. apply table_heap in Hst as Ha.
  pose proof (first_hit_keys (heap w) st k Hwf) as Hkeys.
  unfold store_add_or_update_item. unfold bind at 1. rewrite (scan_run a k _ w st Hst Hwf).
  unfold value_pointer at 1.
  destruct (first_hit (heap w) k (live st)) as [[j p]|] eqn:Hhit.
  - destruct (update_item_run w a st j p k v Hst Hwf Hhit) as (b & w' & Hrun & Hpost).
    rewrite (bind_run _ _ _ _ _ Hrun). exists b, a, w'.
    apply list_find_Some in Hhit as (Hj & Hk & _). destruct b.
    + destruct Hpost as (an & va & old & Hva & Hold & Han & _ & Hh').
      destruct (update_item_frame (heap w) a st j p v an va old Ha Hwf Hj Hva Hold Han)
        as (Hout & Hkeep & Hptr).
      rewrite <- Hh' in Hout, Hkeep, Hptr.
      eexists. split; [done|]. split; [apply table_heap; rewrite Hh'; apply lookup_insert_eq|].
      split; [done|]. split; [by left|]. split; [done|]. split.
      * intros q Hq Hne. apply Hkeep; [done|]. rewrite <- Hva. by apply Hne.
      * intros k' Hk'. apply Hptr. rewrite Hk. intros [= ->]. by apply Hk'.
    + exists st. split; [done|]. split; [by rewrite (table_same_heap w w')|].
      split; [by rewrite Hpost|]. split; [by left|]. split; [done|]. split.
      * intros q Hq _. by rewrite Hpost.
      * intros k' _. by rewrite Hpost.
  - assert (Hnin : k ∉ keys (heap w) st).
    { intros Hin%Hkeys. by destruct Hin. }
    unfold ret at 1.
    destruct (grow_if_full_cases w a st Hst) as (r & w1 & Hgrow & Hcase).
    destruct (grow_if_full_spec w a st Hw Hst) as (r0 & w0 & Hgrow0 & Hr).
    assert (r0 = r ∧ w0 = w1) as [-> ->] by (split; congruence).
    pose proof (live_blocks _ _ _ Ha Hwf) as Hblocks.
    pose proof (growth_frame w a st r w1 Hst Hwf ltac:(lia) Hcase) as Hframe.
    rewrite (bind_run _ _ _ _ _ Hgrow). destruct r as [a1|].
    + destruct Hr as (st1 & Hst1 & Hw1 & _ & _ & _ & Hlt1 & _).
      destruct Hframe as (st2 & Hst2 & Hout1 & Hlive1 & Hsame1 & Ha1 & Hgone).
      assert (st2 = st1) by congruence. subst st2.
      pose proof Hw1 as [_ (st2 & Hst2' & Hwf1)].
      assert (st2 = st1) by congruence. subst st2. apply table_heap in Hst1 as Ha1'.
      assert (Htexts : ∀ q, q ∈ owned (live st) → text (heap w1) q = text (heap w) q).
      { intros q Hq. destruct (owned_pointers _ _ q Hwf Hq) as (x & s & -> & Hx).
        apply text_agree. intros y [= <-].
        assert (Hx1 : Ptr x ∈ owned (live st1)) by by rewrite Hlive1.
        destruct (owned_strings _ _ _ Hwf1 Hx1) as [s1 Hs1].
        apply Hsame1; congruence. }
      assert (Hptr1 : ∀ k', value_pointer (heap w1) st1 k' = value_pointer (heap w) st k').
      { intros k'. unfold value_pointer. rewrite Hlive1.
        apply value_hit_ext, value_hit_same. intros y Hy. by apply Htexts, key_owned. }
      destruct (append_item_run w1 a1 st1 k v Hst1) as (b & w' & Hrun & Hpost).
      { destruct Hwf1; lia. }
      rewrite (bind_run _ _ _ _ _ Hrun). exists b, a1, w'. destruct b.
      * destruct Hpost as (ak & av & Hak & Hav & Hne & _ & Hh').
        destruct (append_item_frame (heap w1) a1 st1 k v ak av Ha1' Hwf1 Hlt1 Hak Hav)
          as (Hout & Hkeep & Hptr).
        rewrite <- Hh' in Hout, Hkeep, Hptr.
        eexists. split; [done|].
        split; [apply table_heap; rewrite Hh'; apply lookup_insert_eq|].
        split; [congruence|]. split; [destruct Ha1; auto|]. split; [|split].
        -- intros Hne'. specialize (Hgone Hne'). cbn [table]. rewrite Hh'.
           rewrite lookup_insert_ne by done.
           destruct (decide (a = av)) as [->|Hav']; [by rewrite lookup_insert_eq|].
           rewrite lookup_insert_ne by done.
           destruct (decide (a = ak)) as [->|Hak']; [by rewrite lookup_insert_eq|].
           rewrite lookup_insert_ne by done. by rewrite Hgone.
        -- intros q Hq _. rewrite <- Hlive1 in Hq. destruct (Hkeep q Hq) as [? ->].
           split; [done|]. apply Htexts. by rewrite <- Hlive1.
        -- intros k' Hk'. rewrite Hptr; auto.
      * exists st1. split; [done|]. split; [by rewrite (table_same_heap w1 w')|].
        split; [rewrite Hpost; congruence|]. split; [destruct Ha1; auto|]. split; [|split].
        -- intros Hne'. cbn [table]. by rewrite Hpost, (Hgone Hne').
        -- intros q Hq _. rewrite Hlive1, Hpost. split; [done|]. by apply Htexts.
        -- intros k' _. by rewrite Hpost.
    + exists false, a, w1, st. split; [done|].
      split; [by rewrite (table_same_heap w w1)|]. split; [by rewrite Hframe|].
      split; [by left|]. split; [done|]. split.
      * intros q Hq _. by rewrite Hframe.
      * intros k' _. by rewrite Hframe.
Qed.

Lemma perform_frame c w a st :
  wf w (Ptr a) → table w (Ptr a) = Some st →
  ∃ r a' w' st',
    perform c (Ptr a) w = Some ((r, Ptr a'), w') ∧
    table w' (Ptr a') = Some st' ∧ wf w' (Ptr a') ∧
    outside (heap w') a' st' = outside (heap w) a st.
Proof.
  intros Hw Hst.
  destruct (perform_spec c w a st Hw Hst) as (r & a' & w' & st' & Hrun & Hst' & Hw' & Hpost).
  exists r, a', w', st'. do 3 (split; [done|]). destruct c as [k v|k].
  - destruct (upsert_frame w a st k v Hw Hst)
      as (b & a1 & w1 & st1 & Hrun1 & Hst1 & Hout & _).
    revert Hrun. unfold perform. rewrite (bind_run _ _ _ _ _ Hrun1). intros [= _ <- <-].
    congruence.
  - by destruct Hpost as (_ & -> & -> & -> & _).
Qed.

Lemma session_frame cs w a st :
  wf w (Ptr a) → table w (Ptr a) = Some st →
  ∃ rs a' w' st',
    session cs (Ptr a) w = Some ((rs, Ptr a'), w') ∧
    table w' (Ptr a') = Some st' ∧ wf w' (Ptr a') ∧
    outside (heap w') a' st' = outside (heap w) a st.
Proof.
  revert w a st. induction cs as [|c cs IH]; intros w a st Hw Hst.
  - by exists [], a, w, st.
  - destruct (perform_frame c w a st Hw Hst) as (r & a1 & w1 & st1 & Hrun1 & Hst1 & Hw1 & Hout1).
    destruct (IH w1 a1 st1 Hw1 Hst1) as (rs & a' & w' & st' & Hrun & Hst' & Hw' & Hout).
    exists (r :: rs), a', w', st'. cbn [session].
    rewrite (bind_run _ _ _ _ _ Hrun1), (bind_run _ _ _ _ _ Hrun).
    do 3 (split; [done|]). congruence.
Qed.

Lemma release_size qs (h : gmap positive block) :
  NoDup qs → (∀ q, q ∈ qs → ∃ x, q = Ptr x ∧ is_Some (h !! x)) →
  (size (release qs h) + length qs = size h)%nat.
Proof.
  revert h. induction qs as [|q qs IH]; intros h Hnd Hqs; [simpl; lia|].
  apply NoDup_cons in Hnd as [Hq Hnd].
  destruct (Hqs q) as (x & -> & [b Hx]); [apply elem_of_cons; auto|].
  rewrite release_cons, length_cons.
  assert (Hsz : size h = S (size (delete x h))).
  { rewrite <- (insert_delete_id h x b Hx) at 1. apply map_size_insert_None, lookup_delete_eq. }
  rewrite Hsz, <- (IH (delete x h)); [lia|done|].
  intros q' Hq'. destruct (Hqs q') as (y & -> & Hy); [apply elem_of_cons; auto|].
  exists y. split; [done|]. rewrite lookup_delete_ne; [done|]. by intros ->.
Qed.

Lemma outside_size h a st :
  h !! a = Some (Table st) → wf_store h st →
  Z.of_nat (size h) = Z.of_nat (size (outside h a st)) + 1 + 2 * item_count st.
Proof.
  intros Ha Hwf. unfold outside.
  assert (Hnd : NoDup (Ptr a :: owned (live st))).
  { apply NoDup_cons. split; [|apply Hwf].
    intros Hq. destruct (owned_strings _ _ _ Hwf Hq) as [s Hs]. congruence. }
  pose proof (release_size (Ptr a :: owned (live st)) h Hnd) as Hsz.
  rewrite length_cons, owned_length, live_length in Hsz by (destruct Hwf; lia).
  rewrite <- Hsz; [destruct Hwf; lia|].
  intros q [->|Hq]%elem_of_cons; [eauto|].
  destruct (owned_pointers _ _ _ Hwf Hq) as (x & s & -> & Hx). eauto.
Qed.

Lemma outside_created (h : gmap positive block) a st :
  h !! a = None → live st = [] → outside (<[a := Table st]> h) a st = h.
Proof.
  intros Ha Hlive. unfold outside. rewrite Hlive. cbn [owned release foldl].
  by apply delete_insert_id.
Qed.

Lemma stale_pointer w a :
  table w (Ptr a) = None →
  (∀ k, store_get_value (Ptr a) (Some k) w = None) ∧
  (∀ k v, store_add_or_update_item (Some (Ptr a)) (Some k) (Some v) w = None) ∧
  store_destroy (Ptr a) w = None.
Proof.
  intros Hnone.
  assert (Hload : load a w = None).
  { unfold load. cbn [table] in Hnone. by destruct (heap w !! a) as [[]|]. }
  repeat split; intros;
    unfold store_get_value, store_add_or_update_item, store_destroy, scan, bind;
    by rewrite Hload.
Qed.

(** ** Capacity over a session *)

Lemma session_capacity cs w a st c0 :
  wf w (Ptr a) → table w (Ptr a) = Some st →
  (∃ n : nat, capacity st = c0 * 2 ^ Z.of_nat n) →
  (capacity st = c0 ∨ capacity st ≤ 2 * item_count st) →
  ∃ rs a' w' st',
    session cs (Ptr a) w = Some ((rs, Ptr a'), w') ∧
    table w' (Ptr a') = Some st' ∧
    (∃ n : nat, capacity st' = c0 * 2 ^ Z.of_nat n) ∧
    (capacity st' = c0 ∨ capacity st' ≤ 2 * item_count st').
Proof.
  revert w a st. induction cs as [|c cs IH]; intros w a st Hw Hst Hpow Htight.
  - by exists [], a, w, st.
  - destruct (perform_spec c w a st Hw Hst) as (r & a1 & w1 & st1 & Hrun1 & Hst1 & Hw1 & Hpost).
    destruct (IH w1 a1 st1 Hw1 Hst1) as (rs & a' & w' & st' & Hrun & Hst' & Hpow' & Htight').
    + destruct c as [k v|k]; [|by destruct Hpost as (_ & _ & _ & -> & _)].
      destruct Hpost as (b & _ & [_ _ _ [->|(-> & _)] _]); [done|].
      destruct Hpow as [n ->]. exists (S n). rewrite Nat2Z.inj_succ, Z.pow_succ_r; lia.
    + destruct c as [k v|k]; [|by destruct Hpost as (_ & _ & _ & -> & _)].
      destruct Hpost as (b & _ & [_ _ Hn [Hcap|(Hcap & Hfull & _)] _]).
      * rewrite Hcap. destruct Htight as [?|?]; [by left|right].
        destruct (b && _); lia.
      * right. destruct (b && _); lia.
    + exists (r :: rs), a', w', st'. cbn [session].
      by rewrite (bind_run _ _ _ _ _ Hrun1), (bind_run _ _ _ _ _ Hrun).
Qed.

(** ** Keys over a session *)

Lemma keys_overwrite k v (es : list (string * string)) : (overwrite k v es).*1 = es.*1.
Proof.
  induction es as [|[k' v'] es IH]; [done|]. cbn [overwrite].
  destruct (String.eqb k' k); [done|]. by rewrite !fmap_cons, IH.
Qed.

Lemma keys_upsert_entries k v (es : list (string * string)) :
  es.*1 `prefix_of` (upsert_entries k v es).*1.
Proof.
  unfold upsert_entries. destruct (assoc k es).
  - by rewrite keys_overwrite.
  - rewrite fmap_app. by apply prefix_app_r.
Qed.

Lemma keys_replay cs rs (es : list (string * string)) :
  es.*1 `prefix_of` (replay cs rs es).*1.
Proof.
  revert rs es. induction cs as [|c cs IH]; intros rs es; [by destruct rs|].
  destruct rs as [|r rs]; [by destruct c|].
  destruct c as [k v|k]; cbn [replay]; [|apply IH].
  destruct r as [[]|]; [|apply IH..].
  etrans; [apply keys_upsert_entries|apply IH].
Qed.

(** ** The strings the harness formats *)

Lemma string_length_app (s1 s2 : string) :
  String.length (s1 +:+ s2) = (String.length s1 + String.length s2)%nat.
Proof. induction s1 as [|c s1 IH]; [done|]. simpl. by f_equal. Qed.

Lemma pretty_N_go_length (n : nat) x s :
  (x < 10 ^ N.of_nat n)%N →
  (String.length (pretty_N_go x s) ≤ String.length s + n)%nat.
Proof.
  revert x s. induction n as [|n IH]; intros x s Hx.
  - assert (x = 0%N) as -> by (cbn in Hx; lia). rewrite pretty_N_go_0. lia.
  - assert (x = 0 ∨ 0 < x)%N as [->|Hpos] by lia; [rewrite pretty_N_go_0; lia|].
    rewrite pretty_N_go_step by done.
    etrans; [apply IH|cbn; lia].
    rewrite Nat2N.inj_succ, N.pow_succ_r' in Hx.
    apply N.Div0.div_lt_upper_bound. lia.
Qed.

Lemma pretty_nat_length (n : nat) (x : nat) :
  (0 < n)%nat → Z.of_nat x < 10 ^ Z.of_nat n →
  (String.length (pretty x) ≤ n)%nat.
Proof.
  intros Hn Hx. unfold pretty, pretty_nat, pretty, pretty_N.
  case_decide; [cbn; lia|].
  etrans; [apply (pretty_N_go_length n)|cbn; lia].
  apply N2Z.inj_lt. rewrite N2Z.inj_pow, !nat_N_Z. done.
Qed.

(** No decimal numeral has an underscore in it. *)
Lemma pretty_N_go_plain x s :
  (∀ s1 s2, s ≠ s1 +:+ "_" +:+ s2) →
  ∀ s1 s2, pretty_N_go x s ≠ s1 +:+ "_" +:+ s2.
Proof.
  revert s. induction (N.lt_wf_0 x) as [x _ IH]; intros s Hs.
  assert (x = 0 ∨ 0 < x)%N as [->|?] by lia.
  - by rewrite pretty_N_go_0.
  - rewrite pretty_N_go_step by done. apply IH; [by apply N.div_lt|].
    intros [|c s1] s2; cbn.
    + unfold pretty_N_char. by repeat case_match.
    + intros [= _ Heq]. by apply (Hs s1 s2).
Qed.

Lemma pretty_nat_plain (n : nat) s1 s2 : pretty n ≠ s1 +:+ "_" +:+ s2.
Proof.
  unfold pretty, pretty_nat, pretty, pretty_N. case_decide.
  - by destruct s1 as [|c [|c' s1']].
  - apply pretty_N_go_plain. by intros [|c s] s'.
Qed.

(** Two strings cut at their first underscore. *)
Lemma cut_at_underscore s1 r1 s2 r2 :
  (∀ x y, s1 ≠ x +:+ "_" +:+ y) → (∀ x y, s2 ≠ x +:+ "_" +:+ y) →
  s1 +:+ "_" +:+ r1 = s2 +:+ "_" +:+ r2 → s1 = s2 ∧ r1 = r2.
Proof.
  revert s2. induction s1 as [|c s1 IH]; intros [|c' s2] H1 H2 Heq; simplify_eq/=.
  - done.
  - by destruct (H2 "" s2).
  - by destruct (H1 "" s1).
  - destruct (IH s2) as [-> ->]; [| |done|done].
    + intros x y ->. by apply (H1 (String c' x) y).
    + intros x y ->. by apply (H2 (String c' x) y).
Qed.

Lemma thread_key_inj t i t' i' : thread_key t i = thread_key t' i' → t = t' ∧ i = i'.
Proof.
  unfold thread_key. cbn [String.append]. intros [= Heq].
  apply cut_at_underscore in Heq as [Ht [= Hi]]; try apply pretty_nat_plain.
  split; by apply (inj pretty).
Qed.

Lemma NoDup_list_prod {A B} (l : list A) (k : list B) :
  NoDup l → NoDup k → NoDup (list_prod l k).
Proof.
  intros Hl Hk. induction Hl as [|x l Hx Hl IH]; cbn [list_prod]; [constructor|].
  apply NoDup_app. split; [|split; [|done]].
  - apply (NoDup_fmap_2 (pair x)), Hk.
  - intros [x' y] [y' [[= -> ->] _]]%list_elem_of_fmap Hin.
    apply list_elem_of_In, in_prod_iff in Hin as [Hin _]. by apply list_elem_of_In in Hin.
Qed.

Lemma worker_keys_NoDup T D key :
  (∀ t i t' i', key t i = key t' i' → t = t' ∧ i = i') →
  NoDup (worker_keys T D key).
Proof.
  intros Hinj. unfold worker_keys. apply NoDup_fmap_2_strong.
  - intros [t i] [t' i'] _ _ Heq. cbn [fst snd] in Heq.
    by destruct (Hinj t i t' i' Heq) as [-> ->].
  - apply NoDup_list_prod; apply NoDup_seq.
Qed.

(** ** Running [main] *)

Lemma bind_inv {A B} (m : M A) (k : A → M B) w x w' :
  bind m k w = Some (x, w') → ∃ y w1, m w = Some (y, w1) ∧ k y w1 = Some (x, w').
Proof. unfold bind. destruct (m w) as [[y w1]|]; [eauto|done]. Qed.

Lemma mtx_init_heap w ok w' : mtx_init w = Some (ok, w') → heap w' = heap w.
Proof.
  unfold mtx_init, next_decision, bind, ret. destruct (faults w); by intros [= _ <-].
Qed.

Lemma mtx_init_granted w : faults w = [] → mtx_init w = Some (true, w).
Proof. intros Hfs. unfold mtx_init, next_decision, bind. by rewrite Hfs. Qed.

Lemma start_threads_granted n w : faults w = [] → start_threads n w = Some (true, w).
Proof.
  intros Hfs. induction n as [|n IH]; [done|]. cbn [start_threads].
  unfold thrd_create, next_decision, bind at 1 2 3. rewrite Hfs. unfold ret at 1.
  unfold bind. by rewrite IH.
Qed.

Lemma shown_run w q s : text (heap w) q = Some s → shown q w = Some (s, w).
Proof.
  intros Hs. pose proof Hs as (x & -> & _)%text_Some. by apply string_at_run.
Qed.

(** ** A run of the harness long enough for the counter to wrap *)

Lemma interleave_one {A} (l1 : list A) :
  interleave (replicate (length l1) 1%nat) [[]; l1] = Some l1.
Proof.
  induction l1 as [|x l1 IH]; [done|].
  cbn [length replicate interleave]. change ([[]; x :: l1] !! 1%nat) with (Some (x :: l1)).
  cbv beta iota. change (<[1%nat := l1]> [[]; x :: l1]) with [[]; l1]. by rewrite IH.
Qed.

Lemma interleave_two {A} (l0 l1 : list A) :
  interleave (replicate (length l0) 0%nat ++ replicate (length l1) 1%nat) [l0; l1]
  = Some (l0 ++ l1).
Proof.
  induction l0 as [|x l0 IH]; [by apply interleave_one|].
  cbn [length replicate app interleave].
  change ([x :: l0; l1] !! 0%nat) with (Some (x :: l0)).
  cbv beta iota. change (<[0%nat := l0]> [x :: l0; l1]) with [l0; l1]. by rewrite IH.
Qed.

(** Two threads of the harness with [INT_MAX] items each, one after the
    other and with every request granted: all [UINT_MAX + 1] calls answer
    [true], and the counter reads 0. *)
Lemma two_threads_wrap :
  ∃ (D : nat) sched kvs w rs p' w' st',
    Z.of_nat D = INT_MAX ∧
    interleave sched (workers 2 D thread_key thread_value updated_item) = Some kvs ∧
    store_create 10 empty_world = Some (Ptr 1, w) ∧
    session (upserts kvs) (Ptr 1) w = Some ((rs, p'), w') ∧
    Forall (λ r, r = Done true) rs ∧
    table w' p' = Some st' ∧
    add_count st' = 0.
Proof.
  assert (HD : ∃ D : nat, Z.of_nat D = INT_MAX)
    by (exists (Z.to_nat INT_MAX); by rewrite Z2Nat.id).
  destruct HD as [D HD].
  set (l0 := worker_items D thread_key thread_value updated_item 0).
  set (l1 := worker_items D thread_key thread_value updated_item 1).
  assert (Hl0 : length l0 = S D) by apply worker_items_length.
  assert (Hl1 : length l1 = S D) by apply worker_items_length.
  assert (Hlen : length (l0 ++ l1) = (2 * S D)%nat) by (rewrite length_app; lia).
  destruct (create_spec empty_world 10) as (p & w & Hcreate & Hp); [compute_done..|].
  destruct (create_granted empty_world 10 p w eq_refl) as (Hnn & Hfs & Hsz);
    [compute_done|done|].
  assert (p = Ptr 1) as ->.
  { revert Hcreate. clear. by vm_compute; intros [= <- _]. }
  destruct Hp as (_ & _ & Hw). pose proof Hw as (_ & st & Hst & _).
  destruct (session_spec (upserts (l0 ++ l1)) w 1 st Hw Hst)
    as (rs & a' & w' & st' & Hsession & Hst' & Hw' & Hlrs & Hadd & _).
  assert (Hall : Forall (λ r, r = Done true) rs).
  { apply (upserts_granted (l0 ++ l1) w 1 st rs (Ptr a') w' Hw Hst Hfs); [|done].
    rewrite Hsz, Hlen. change (size (heap empty_world)) with 0%nat.
    unfold SIZE_MAX, INT_MAX in *. lia. }
  assert (Hn : successes rs = UINT_MAX + 1).
  { rewrite (successes_all rs Hall), Hlrs. unfold upserts. rewrite length_map, Hlen.
    unfold UINT_MAX, INT_MAX in *. lia. }
  exists D, (replicate (S D) 0%nat ++ replicate (S D) 1%nat), (l0 ++ l1), w, rs, (Ptr a'),
    w', st'.
  split; [done|].
  split; [rewrite <- Hl0 at 1; rewrite <- Hl1; apply interleave_two|].
  do 4 (split; [done|]).
  rewrite Hadd, Hn.
  assert (add_count st = 0) as ->.
  { clear -Hst Hcreate. vm_compute in Hcreate. injection Hcreate as <-.
    vm_compute in Hst. by injection Hst as <-. }
  done.
Qed.

(** * The claims *)

(** C8, as the code has it. For a capacity whose byte count fits [size_t],
    [store_create] answers a well-formed store or NULL; a store it answers
    is empty, its counter is 0 and its capacity is the requested one, 8 when
    0 was requested. *)
Theorem store_create_fresh w c :
  Z.of_nat (size (heap w)) ≤ SIZE_MAX → 0 ≤ c ≤ MAX_CAPACITY →
  ∃ p w', store_create c w = Some (p, w') ∧
    (p = NULL ∧ heap w' = heap w ∨
     ∃ st, table w' p = Some st ∧ wf w' p ∧
       item_count st = 0 ∧ add_count st = 0 ∧ entries (heap w') st = [] ∧
       capacity st = if c =? 0 then 8 else c).
Proof.
  intros Hsize Hc. destruct (create_spec w c Hsize Hc) as (p & w' & Hrun & Hp).
  exists p, w'. split; [done|]. destruct p as [|a|]; [by left| |done].
  destruct Hp as (Ha & Hh & Hw). right.
  eexists. split; [apply table_heap; rewrite Hh; apply lookup_insert_eq|].
  by repeat (split; [done|]).
Qed.

Lemma store_create_fresh_witness :
  ∃ p w', store_create 0 empty_world = Some (p, w') ∧
    (p = NULL ∧ heap w' = heap empty_world ∨
     ∃ st, table w' p = Some st ∧ wf w' p ∧
       item_count st = 0 ∧ add_count st = 0 ∧ entries (heap w') st = [] ∧
       capacity st = 8).
Proof. apply (store_create_fresh empty_world 0); [by vm_compute | by vm_compute]. Defined.

(** C8 as stated fails: the byte count of a capacity of 2^60 wraps to 64,
    the size of the header alone, and [store_create] answers a store that
    records a capacity of 2^60 and has no slot at all, on which the first
    upsert writes past the block; the byte count of [SIZE_MAX] wraps to 48,
    and [store_create] itself writes past the block. *)
Lemma store_create_overflows :
  ∃ w st,
    store_create (2 ^ 60) empty_world = Some (Ptr 1, w) ∧
    table w (Ptr 1) = Some st ∧
    item_count st = 0 ∧ capacity st = 2 ^ 60 ∧ pairs st = [] ∧
    store_add_or_update_item (Some (Ptr 1)) (Some "k"%string) (Some "v"%string) w = None ∧
    store_create SIZE_MAX empty_world = None.
Proof. eexists _, _. repeat split; by vm_compute. Qed.

(** C10. Null arguments: [store_add_or_update_item] answers [false],
    [store_get_value] answers NULL and [store_destroy] returns, each leaving
    the world as it was. *)
Theorem null_arguments w :
  (∀ k v, store_add_or_update_item None k v w = Some ((false, None), w)) ∧
  (∀ k v, store_add_or_update_item (Some NULL) k v w = Some ((false, Some NULL), w)) ∧
  (∀ a v, store_add_or_update_item (Some (Ptr a)) None v w
          = Some ((false, Some (Ptr a)), w)) ∧
  (∀ a k, store_add_or_update_item (Some (Ptr a)) (Some k) None w
          = Some ((false, Some (Ptr a)), w)) ∧
  (∀ k, store_get_value NULL k w = Some (NULL, w)) ∧
  (∀ a, store_get_value (Ptr a) None w = Some (NULL, w)) ∧
  store_destroy NULL w = Some ((), w).
Proof. repeat split; by intros. Qed.

Ltac concrete_wf :=
  split; [by vm_compute|];
  eexists; split; [by vm_compute|];
  split; compute_done.

(** C7. On a well-formed store [store_get_value] answers a pointer to the
    value stored under [k] when some entry has key [k], NULL when none has,
    and leaves the world, hence length, capacity, entries and counter, as it
    was. *)
Theorem store_get_value_finds w a st k :
  wf w (Ptr a) → table w (Ptr a) = Some st →
  ∃ q, store_get_value (Ptr a) (Some k) w = Some (q, w) ∧
    (∀ v, (k, v) ∈ entries (heap w) st → text (heap w) q = Some v) ∧
    (k ∉ keys (heap w) st → q = NULL).
Proof.
  intros Hw Hst. destruct (get_value_spec w a st k Hw Hst) as [Hrun Htext].
  exists (value_pointer (heap w) st k). split; [done|].
  destruct Hw as (_ & st0 & Hst0 & Hwf). assert (st0 = st) by congruence. subst st0.
  split.
  - intros v Hin. rewrite Htext. apply elem_assoc; [apply Hwf|done].
  - intros Hnin. unfold value_pointer.
    destruct (first_hit (heap w) k (live st)) as [[j p]|] eqn:Hhit; [|done].
    destruct Hnin. apply first_hit_keys; [done|]. rewrite Hhit. eauto.
Qed.

Lemma store_get_value_finds_witness :
  ∃ q, store_get_value (Ptr 1) (Some "b"%string) full_world = Some (q, full_world) ∧
    (∀ v, (("b", v) : string * string) ∈ entries (heap full_world) full_store →
          text (heap full_world) q = Some v) ∧
    ("b"%string ∉ keys (heap full_world) full_store → q = NULL).
Proof.
  apply (store_get_value_finds full_world 1 full_store "b"); [concrete_wf | compute_done].
Defined.

Lemma first_key_split (k : string) (es : list (string * string)) :
  k ∈ es.*1 → ∃ es1 old es2, es = es1 ++ (k, old) :: es2 ∧ k ∉ es1.*1.
Proof.
  induction es as [|[k' v'] es IH]; [by intros ?%elem_of_nil|].
  rewrite fmap_cons. cbn [fst]. destruct (decide (k' = k)) as [->|Hne].
  - intros _. exists [], v', es. split; [done|]. apply not_elem_of_nil.
  - intros [?|Hin]%elem_of_cons; [congruence|].
    destruct (IH Hin) as (es1 & old & es2 & -> & Hk).
    exists ((k', v') :: es1), old, es2. split; [done|].
    rewrite fmap_cons. cbn [fst]. apply not_elem_of_cons. split; [congruence|done].
Qed.

(** C5. A successful upsert of a key that is present leaves length and
    capacity as they were and keeps every entry but the one of [k], whose
    value becomes [v]; the block that held the previous value is freed, and
    as many blocks are live as before. *)
Theorem update_overwrites_value w a st k v :
  wf w (Ptr a) → table w (Ptr a) = Some st → k ∈ keys (heap w) st →
  ∃ b w' st' q,
    store_add_or_update_item (Some (Ptr a)) (Some k) (Some v) w
      = Some ((b, Some (Ptr a)), w') ∧
    table w' (Ptr a) = Some st' ∧
    store_get_value (Ptr a) (Some k) w = Some (q, w) ∧
    (b = true →
       item_count st' = item_count st ∧ capacity st' = capacity st ∧
       (∃ es1 old es2,
          entries (heap w) st = es1 ++ (k, old) :: es2 ∧
          entries (heap w') st' = es1 ++ (k, v) :: es2 ∧
          text (heap w) q = Some old) ∧
       text (heap w') q = None ∧
       size (heap w') = size (heap w)).
Proof.
  intros Hw Hst Hin.
  destruct (upsert_spec w a st k v Hw Hst) as (b & a' & w' & st' & Hrun & Hst' & Hw' & Hpost).
  destruct (get_value_spec w a st k Hw Hst) as [Hget Htext].
  destruct Hpost as [_ Hes Hn Hcap Hrel].
  assert (a' = a) as ->.
  { revert Hrun. unfold store_add_or_update_item.
    destruct Hw as (_ & st0 & Hst0 & Hwf). assert (st0 = st) by congruence. subst st0.
    unfold bind at 1. rewrite (scan_run a k _ w st Hst Hwf).
    apply (first_hit_keys _ _ _ Hwf) in Hin as [[j p] Hhit]. rewrite Hhit.
    unfold bind. destruct (update_item _ _ _ _ _) as [[b1 w1]|]; [|done].
    unfold ret. congruence. }
  exists b, w', st', (value_pointer (heap w) st k).
  split; [done|]. split; [done|]. split; [done|]. intros ->.
  rewrite bool_decide_eq_true_2 in Hn by done. split; [done|].
  split; [by destruct Hcap as [?|(_ & _ & ?)]|].
  destruct (Hrel Hin) as [Hfreed Hsize].
  destruct (first_key_split k _ Hin) as (es1 & old & es2 & Hsplit & Hk1).
  split; [|done]. exists es1, old, es2. split; [done|]. unfold keys in *.
  rewrite Hes, Htext, Hsplit. unfold upsert_entries.
  by rewrite assoc_middle, overwrite_middle.
Qed.

Lemma update_overwrites_value_witness :
  ∃ b w' st' q,
    store_add_or_update_item (Some (Ptr 1)) (Some "a"%string) (Some "9"%string) full_world
      = Some ((b, Some (Ptr 1)), w') ∧
    table w' (Ptr 1) = Some st' ∧
    store_get_value (Ptr 1) (Some "a"%string) full_world = Some (q, full_world) ∧
    (b = true →
       item_count st' = item_count full_store ∧ capacity st' = capacity full_store ∧
       (∃ es1 old es2,
          entries (heap full_world) full_store = es1 ++ ("a"%string, old) :: es2 ∧
          entries (heap w') st' = es1 ++ ("a"%string, "9"%string) :: es2 ∧
          text (heap full_world) q = Some old) ∧
       text (heap w') q = None ∧
       size (heap w') = size (heap full_world)).
Proof.
  apply (update_overwrites_value full_world 1 full_store "a" "9");
    [concrete_wf | compute_done | compute_done].
Defined.

(** C1, as the code has it. An upsert on a well-formed store returns, and
    leaves a well-formed store.  When it answers [false], length, counter
    and entries are as before the call, and so is capacity unless the store
    was full and the key absent, in which case capacity may have doubled:
    growth is not undone when the copy of the key or value fails after it.
    When it answers [true], the entries are those of the completed upsert. *)
Theorem failed_upsert_keeps_entries w a st k v :
  wf w (Ptr a) → table w (Ptr a) = Some st →
  ∃ b a' w' st',
    store_add_or_update_item (Some (Ptr a)) (Some k) (Some v) w
      = Some ((b, Some (Ptr a')), w') ∧
    table w' (Ptr a') = Some st' ∧ wf w' (Ptr a') ∧
    (b = false →
       item_count st' = item_count st ∧ add_count st' = add_count st ∧
       entries (heap w') st' = entries (heap w) st ∧
       (capacity st' = capacity st ∨
        capacity st' = 2 * capacity st ∧ item_count st = capacity st ∧
        k ∉ keys (heap w) st)) ∧
    (b = true →
       entries (heap w') st' = upsert_entries k v (entries (heap w) st) ∧
       add_count st' = uint_wrap (add_count st + 1)).
Proof.
  intros Hw Hst.
  destruct (upsert_spec w a st k v Hw Hst) as (b & a' & w' & st' & Hrun & Hst' & Hw' & Hpost).
  exists b, a', w', st'. do 3 (split; [done|]).
  destruct Hpost as [Hadd Hes Hn Hcap _]. split; intros ->; by repeat split.
Qed.

Lemma failed_upsert_keeps_entries_witness :
  ∃ b a' w' st',
    store_add_or_update_item (Some (Ptr 1)) (Some "c"%string) (Some "3"%string) full_world
      = Some ((b, Some (Ptr a')), w') ∧
    table w' (Ptr a') = Some st' ∧ wf w' (Ptr a') ∧
    (b = false →
       item_count st' = item_count full_store ∧ add_count st' = add_count full_store ∧
       entries (heap w') st' = entries (heap full_world) full_store ∧
       (capacity st' = capacity full_store ∨
        capacity st' = 2 * capacity full_store ∧
        item_count full_store = capacity full_store ∧
        "c"%string ∉ keys (heap full_world) full_store)) ∧
    (b = true →
       entries (heap w') st' = upsert_entries "c" "3" (entries (heap full_world) full_store) ∧
       add_count st' = uint_wrap (add_count full_store + 1)).
Proof.
  apply (failed_upsert_keeps_entries full_world 1 full_store "c" "3");
    [concrete_wf | compute_done].
Defined.

(** C1 as stated fails: on the full store of [full_world] the upsert of the
    absent key c grows the store in place, copies the key, is denied the
    copy of the value and answers [false]; capacity went from 2 to 4. *)
Lemma failed_upsert_changes_capacity :
  wf full_world (Ptr 1) ∧ table full_world (Ptr 1) = Some full_store ∧
  ∃ w' st',
    store_add_or_update_item (Some (Ptr 1)) (Some "c"%string) (Some "3"%string) full_world
      = Some ((false, Some (Ptr 1)), w') ∧
    table w' (Ptr 1) = Some st' ∧
    capacity full_store = 2 ∧ capacity st' = 4.
Proof.
  split; [concrete_wf|]. split; [compute_done|].
  eexists _, _. split; [by vm_compute|]. split; [by vm_compute|]. done.
Qed.

(** C2, as the code has it. Over any session on a well-formed store the
    counter advances by the number of upserts that answered [true], modulo
    [UINT_MAX + 1] as [atomic_uint] arithmetic does; calls that answered
    [false], and lookups, leave it alone.  As long as the sum does not exceed
    [UINT_MAX] the counter is that sum exactly, so a fresh store (counter 0)
    shows N after N successful upserts for N up to [UINT_MAX]. *)
Theorem counter_counts_successes w a st cs :
  wf w (Ptr a) → table w (Ptr a) = Some st →
  ∃ rs a' w' st',
    session cs (Ptr a) w = Some ((rs, Ptr a'), w') ∧
    table w' (Ptr a') = Some st' ∧
    add_count st' = uint_wrap (add_count st + successes rs) ∧
    (add_count st + successes rs ≤ UINT_MAX →
     add_count st' = add_count st + successes rs).
Proof.
  intros Hw Hst.
  destruct (session_spec cs w a st Hw Hst)
    as (rs & a' & w' & st' & Hrun & Hst' & _ & _ & Hadd & _).
  exists rs, a', w', st'. do 3 (split; [done|]). intros Hle.
  rewrite Hadd. apply uint_wrap_small. pose proof (successes_nonneg rs).
  destruct Hw as (_ & st0 & ? & []). simplify_eq. lia.
Qed.

Lemma counter_counts_successes_witness :
  ∃ rs a' w' st',
    session [Upsert "a" "9"; Lookup "a"; Upsert "c" "3"; Upsert "b" "7"] (Ptr 1) full_world
      = Some ((rs, Ptr a'), w') ∧
    table w' (Ptr a') = Some st' ∧
    add_count st' = uint_wrap (add_count full_store + successes rs) ∧
    (add_count full_store + successes rs ≤ UINT_MAX →
     add_count st' = add_count full_store + successes rs).
Proof.
  apply (counter_counts_successes full_world 1 full_store); [concrete_wf | compute_done].
Defined.

(** C2 as stated fails: a successful upsert on a store whose counter stands
    at [UINT_MAX] takes the counter to 0; and a fresh store reaches that
    point, since [UINT_MAX + 1] upserts in a row can all answer [true],
    after which the counter reads 0. *)
Lemma counter_wraps_around :
  (wf saturated_world (Ptr 1) ∧ table saturated_world (Ptr 1) = Some saturated_store ∧
   ∃ w' st',
     store_add_or_update_item (Some (Ptr 1)) (Some "k"%string) (Some "w"%string) saturated_world
       = Some ((true, Some (Ptr 1)), w') ∧
     table w' (Ptr 1) = Some st' ∧
     add_count saturated_store = 4294967295 ∧ add_count st' = 0) ∧
  (∃ kvs w rs p' w' st',
     store_create 10 empty_world = Some (Ptr 1, w) ∧
     session (upserts kvs) (Ptr 1) w = Some ((rs, p'), w') ∧
     Forall (λ r, r = Done true) rs ∧
     successes rs = 4294967296 ∧
     table w' p' = Some st' ∧
     add_count st' = 0).
Proof.
  split.
  - split; [concrete_wf|]. split; [compute_done|].
    eexists _, _. split; [by vm_compute|]. split; [by vm_compute|]. done.
  - destruct long_run_wraps
      as (D & sched & kvs & w & rs & p' & w' & st' & _ & _ & _ & Hcreate & Hrun & Hrs
          & Hn & Hst' & Hadd).
    by exists kvs, w, rs, p', w', st'.
Qed.

(** C3. From creation on, with a capacity whose byte count fits [size_t],
    whatever upserts and lookups follow and however they end, the keys of
    [pairs[0..item_count)] are pairwise distinct; the store can then be
    destroyed, which leaves no store behind. *)
Theorem keys_stay_distinct w0 c cs :
  Z.of_nat (size (heap w0)) ≤ SIZE_MAX → 0 ≤ c ≤ MAX_CAPACITY →
  ∃ p w, store_create c w0 = Some (p, w) ∧
    (p = NULL ∨
     ∃ rs p' w' st',
       session cs p w = Some ((rs, p'), w') ∧
       table w' p' = Some st' ∧
       NoDup (keys (heap w') st') ∧
       ∃ w'', store_destroy p' w' = Some ((), w'') ∧ table w'' p' = None).
Proof.
  intros Hsize Hc. destruct (create_spec w0 c Hsize Hc) as (p & w & Hrun & Hp).
  exists p, w. split; [done|]. destruct p as [|a|]; [by left| |done]. right.
  destruct Hp as (_ & _ & Hw). pose proof Hw as (_ & st & Hst & _).
  destruct (session_spec cs w a st Hw Hst)
    as (rs & a' & w' & st' & Hsession & Hst' & Hw' & _).
  exists rs, (Ptr a'), w', st'. do 2 (split; [done|]).
  split; [destruct Hw' as (_ & st0 & ? & []); by simplify_eq|].
  destruct (destroy_spec w' a' st' Hw' Hst') as (w'' & Hdestroy & Hgone).
  exists w''. split; [done|]. simpl. rewrite Hgone. by rewrite decide_True by auto.
Qed.

Lemma keys_stay_distinct_witness :
  ∃ p w, store_create 2 empty_world = Some (p, w) ∧
    (p = NULL ∨
     ∃ rs p' w' st',
       session [Upsert "a" "1"; Upsert "b" "2"; Upsert "a" "3"; Lookup "b"; Upsert "c" "4"]
               p w = Some ((rs, p'), w') ∧
       table w' p' = Some st' ∧
       NoDup (keys (heap w') st') ∧
       ∃ w'', store_destroy p' w' = Some ((), w'') ∧ table w'' p' = None).
Proof. apply (keys_stay_distinct empty_world 2); compute_done. Defined.

Lemma replay_upserts kvs rs es :
  Forall (λ r, r = Done true) rs → length rs = length kvs →
  NoDup (es.*1 ++ kvs.*1) →
  replay (upserts kvs) rs es = es ++ kvs.
Proof.
  revert rs es. induction kvs as [|[k v] kvs IH]; intros rs es Hrs Hlen Hnd.
  - destruct rs; simpl; by rewrite ?app_nil_r.
  - destruct rs as [|r rs]; [done|]. apply Forall_cons in Hrs as [-> Hrs].
    cbn [upserts map replay fst snd]. fold (upserts kvs).
    assert (Hk : assoc k es = None).
    { apply assoc_None_keys. intros Hin. apply NoDup_app in Hnd as (_ & Hdisj & _).
      apply (Hdisj _ Hin). rewrite fmap_cons. apply elem_of_cons. by left. }
    unfold upsert_entries. rewrite Hk, IH; [by rewrite <- app_assoc|done|by simplify_eq/=|].
    rewrite fmap_app, <- app_assoc. by rewrite fmap_cons in Hnd.
Qed.

(** C4. Create a store with a capacity [C] whose byte count fits [size_t],
    then upsert more than [C] pairs with distinct keys; when all these
    upserts answer [true], as they do when the library grants every request,
    the store has grown and holds exactly the pairs upserted, in order, and
    a lookup of any of the keys answers a pointer to the value upserted with
    it. *)
Theorem growth_keeps_entries w0 c kvs :
  Z.of_nat (size (heap w0)) ≤ SIZE_MAX → 0 ≤ c ≤ MAX_CAPACITY →
  NoDup kvs.*1 → (if c =? 0 then 8 else c) < Z.of_nat (length kvs) →
  ∃ p w, store_create c w0 = Some (p, w) ∧
    (faults w0 = [] →
     Z.of_nat (size (heap w0)) + 2 * Z.of_nat (length kvs) + 1 ≤ SIZE_MAX →
     p ≠ NULL) ∧
    (p = NULL ∨
     ∃ rs p' w' st',
       session (upserts kvs) p w = Some ((rs, p'), w') ∧
       table w' p' = Some st' ∧
       (faults w0 = [] →
        Z.of_nat (size (heap w0)) + 2 * Z.of_nat (length kvs) + 1 ≤ SIZE_MAX →
        Forall (λ r, r = Done true) rs) ∧
       (Forall (λ r, r = Done true) rs →
        (if c =? 0 then 8 else c) < capacity st' ∧
        entries (heap w') st' = kvs ∧
        ∀ k v, (k, v) ∈ kvs →
          ∃ q, store_get_value p' (Some k) w' = Some (q, w') ∧
               text (heap w') q = Some v)).
Proof.
  intros Hsize Hc Hnd Hlen. destruct (create_spec w0 c Hsize Hc) as (p & w & Hrun & Hp).
  exists p, w. split; [done|].
  split; [intros Hfs Hroom; by apply (created_upserts_granted w0 c kvs p w Hfs Hroom)|].
  destruct p as [|a|]; [by left| |done]. right.
  destruct Hp as (_ & Hh & Hw).
  set (st := mkStore 0 0 (if c =? 0 then 8 else c)
                     (replicate (Z.to_nat (if c =? 0 then 8 else c)) wild_pair)) in *.
  assert (Hst : table w (Ptr a) = Some st).
  { apply table_heap. rewrite Hh. apply lookup_insert_eq. }
  destruct (session_spec (upserts kvs) w a st Hw Hst)
    as (rs & a' & w' & st' & Hsession & Hst' & Hw' & Hlrs & _ & Hes & _).
  exists rs, (Ptr a'), w', st'. do 2 (split; [done|]).
  split; [intros Hfs Hroom; by eapply (created_upserts_granted w0 c kvs)|].
  intros Hrs.
  assert (Hkvs : entries (heap w') st' = kvs).
  { rewrite Hes. change (entries (heap w) st) with (@nil (string * string)).
    apply (replay_upserts kvs rs []); [done| |done].
    rewrite Hlrs. unfold upserts. apply length_map. }
  pose proof Hw' as (_ & st0 & ? & Hwf'). assert (st0 = st') by congruence. subst st0.
  split; [|split; [done|]].
  - pose proof (entries_length _ _ Hwf') as Hn. rewrite Hkvs in Hn. destruct Hwf'. lia.
  - intros k v Hin.
    destruct (get_value_spec w' a' st' k Hw' Hst') as [Hget Htext].
    exists (value_pointer (heap w') st' k). split; [done|].
    rewrite Htext, Hkvs. by apply elem_assoc.
Qed.

Lemma growth_keeps_entries_witness :
  ∃ p w, store_create 2 empty_world = Some (p, w) ∧
    (faults empty_world = [] →
     Z.of_nat (size (heap empty_world)) + 2 * Z.of_nat 5 + 1 ≤ SIZE_MAX →
     p ≠ NULL) ∧
    (p = NULL ∨
     ∃ rs p' w' st',
       session (upserts [("a", "1"); ("b", "2"); ("c", "3"); ("d", "4"); ("e", "5")]%string)
               p w = Some ((rs, p'), w') ∧
       table w' p' = Some st' ∧
       (faults empty_world = [] →
        Z.of_nat (size (heap empty_world)) + 2 * Z.of_nat 5 + 1 ≤ SIZE_MAX →
        Forall (λ r, r = Done true) rs) ∧
       (Forall (λ r, r = Done true) rs →
        2 < capacity st' ∧
        entries (heap w') st'
          = [("a", "1"); ("b", "2"); ("c", "3"); ("d", "4"); ("e", "5")]%string ∧
        ∀ k v, (k, v) ∈ [("a", "1"); ("b", "2"); ("c", "3"); ("d", "4"); ("e", "5")]%string →
          ∃ q, store_get_value p' (Some k) w' = Some (q, w') ∧
               text (heap w') q = Some v)).
Proof.
  apply (growth_keeps_entries empty_world 2
           [("a", "1"); ("b", "2"); ("c", "3"); ("d", "4"); ("e", "5")]%string);
    compute_done.
Defined.

(** Five upserts into a store created with capacity 2, every request
    granted: two growth events, all five answer [true]. *)
Example growth_run :
  ∃ w w' st',
    store_create 2 empty_world = Some (Ptr 1, w) ∧
    session (upserts [("a", "1"); ("b", "2"); ("c", "3"); ("d", "4"); ("e", "5")]%string)
            (Ptr 1) w
      = Some (([Done true; Done true; Done true; Done true; Done true], Ptr 11), w') ∧
    table w' (Ptr 11) = Some st' ∧ capacity st' = 8 ∧ item_count st' = 5.
Proof.
  eexists _, _, _. split; [by vm_compute|]. split; [by vm_compute|].
  split; [by vm_compute|]. done.
Qed.

(** C6. In every store reachable by upserts and lookups from a
    [store_create] whose byte count fits [size_t],
    [0 ≤ item_count ≤ capacity]; each further call returns, keeps
    that, and either leaves capacity alone or doubles it, the latter only
    when the call is an upsert of an absent key into a store whose
    [item_count] equals its capacity. *)
Theorem capacity_bounds_length w p :
  reachable w p →
  ∃ st, table w p = Some st ∧
    0 ≤ item_count st ≤ capacity st ∧
    ∀ c, ∃ r p' w' st',
      perform c p w = Some ((r, p'), w') ∧
      table w' p' = Some st' ∧
      0 ≤ item_count st' ≤ capacity st' ∧
      (capacity st' = capacity st ∨
       capacity st' = 2 * capacity st ∧ item_count st = capacity st ∧
       ∃ k v, c = Upsert k v ∧ k ∉ keys (heap w) st).
Proof.
  intros (a & -> & Hw)%reachable_wf. pose proof Hw as (_ & st & Hst & Hwf).
  exists st. split; [done|]. split; [apply Hwf|]. intros c.
  destruct (perform_spec c w a st Hw Hst) as (r & a' & w' & st' & Hrun & Hst' & Hw' & Hpost).
  exists r, (Ptr a'), w', st'. do 2 (split; [done|]).
  split; [destruct Hw' as (_ & st0 & ? & []); by simplify_eq|].
  destruct c as [k v|k].
  - destruct Hpost as (b & _ & [_ _ _ Hcap _]).
    destruct Hcap as [?|(? & ? & ?)]; [by left|right; eauto 6].
  - destruct Hpost as (_ & _ & _ & -> & _). by left.
Qed.

Lemma created_world_reachable : reachable created_world (Ptr 1).
Proof. apply (reachable_create empty_world 2); compute_done. Qed.

Lemma capacity_bounds_length_witness :
  ∃ st, table created_world (Ptr 1) = Some st ∧
    0 ≤ item_count st ≤ capacity st ∧
    ∀ c, ∃ r p' w' st',
      perform c (Ptr 1) created_world = Some ((r, p'), w') ∧
      table w' p' = Some st' ∧
      0 ≤ item_count st' ≤ capacity st' ∧
      (capacity st' = capacity st ∨
       capacity st' = 2 * capacity st ∧ item_count st = capacity st ∧
       ∃ k v, c = Upsert k v ∧ k ∉ keys (heap created_world) st).
Proof. apply (capacity_bounds_length created_world (Ptr 1)), created_world_reachable. Defined.

Section harness.
Variables (T D : nat) (key : nat → nat → string) (val : nat → string) (upd : nat → nat).

Hypothesis keys_distinct : NoDup (worker_keys T D key).
Hypothesis upd_own : ∀ t, (upd t < D)%nat.

Local Abbreviation worker_items := (worker_items D key val upd).
Local Abbreviation workers := (workers T D key val upd).
Local Abbreviation worker_keys := (worker_keys T D key).
Lemma slot_elem t i : (t, i) ∈ list_prod (seq 0 T) (seq 0 D) ↔ (t < T)%nat ∧ (i < D)%nat.
Proof. rewrite list_elem_of_In, in_prod_iff, <- !list_elem_of_In, !elem_of_seq. lia. Qed.

Lemma key_inj t i t' i' :
  (t < T)%nat → (i < D)%nat → (t' < T)%nat → (i' < D)%nat →
  key t i = key t' i' → t = t' ∧ i = i'.
Proof.
  intros Ht Hi Ht' Hi' Hk.
  assert ((t, i) = (t', i')) as [= -> ->]; [|done].
  apply (NoDup_fmap_inj (λ s, key s.1 s.2) _ _ _ keys_distinct); [| |done];
    by apply slot_elem.
Qed.

Lemma workers_lookup t xs : workers !! t = Some xs ↔ (t < T)%nat ∧ xs = worker_items t.
Proof.
  unfold workers. rewrite list_lookup_fmap. split.
  - intros Hxs. destruct (seq 0 T !! t) as [t'|] eqn:Ht; [|done].
    apply lookup_seq in Ht as [-> ?]. by simplify_eq/=.
  - intros [Ht ->]. by rewrite lookup_seq_lt.
Qed.

Lemma worker_items_elem t k v :
  (k, v) ∈ worker_items t →
  ∃ i, (i < D)%nat ∧ k = key t i ∧ (v = val t ∨ i = upd t ∧ v = "UPDATED_VALUE"%string).
Proof.
  unfold worker_items. rewrite elem_of_app, list_elem_of_fmap, list_elem_of_singleton.
  intros [(i & [= -> ->] & Hi%elem_of_seq)|[= -> ->]].
  - exists i. split; [lia|]. auto.
  - exists (upd t). auto.
Qed.

Lemma elem_of_worker_keys k :
  k ∈ worker_keys ↔ ∃ t i, (t < T)%nat ∧ (i < D)%nat ∧ k = key t i.
Proof.
  unfold worker_keys. rewrite list_elem_of_fmap. split.
  - intros ([t i] & -> & Hs%slot_elem). exists t, i. tauto.
  - intros (t & i & Ht & Hi & ->). exists (t, i). split; [done|]. by apply slot_elem.
Qed.

Lemma worker_keys_length : length worker_keys = (T * D)%nat.
Proof. unfold worker_keys. by rewrite length_fmap, length_prod, !length_seq. Qed.

Lemma workers_total : sum_list (length <$> workers) = (T * D + T)%nat.
Proof.
  unfold workers. rewrite <- list_fmap_compose.
  rewrite (list_fmap_ext _ (λ _, S D) (seq 0 T)).
  - rewrite sum_list_fmap_const, length_seq. lia.
  - intros i t _. unfold worker_items. cbn.
    rewrite length_app, length_fmap, length_seq. cbn. lia.
Qed.

Lemma worker_items_insert t i :
  (i < D)%nat → (key t i, val t) ∈ worker_items t.
Proof.
  intros Hi. unfold worker_items. apply elem_of_app. left.
  apply list_elem_of_fmap. exists i. split; [done|]. apply elem_of_seq. lia.
Qed.

Lemma interleaved_keys sched kvs k :
  interleave sched workers = Some kvs → k ∈ kvs.*1 ↔ k ∈ worker_keys.
Proof.
  intros Hkvs. rewrite elem_of_worker_keys, list_elem_of_fmap. split.
  - intros ([k' v] & -> & Hin). apply (interleave_elem_of _ _ _ _ Hkvs) in Hin.
    destruct Hin as (t & xs & [Ht ->]%workers_lookup & Hin).
    apply worker_items_elem in Hin as (i & Hi & -> & _). eauto.
  - intros (t & i & Ht & Hi & ->). exists (key t i, val t). split; [done|].
    apply (interleave_elem_of _ _ _ _ Hkvs). exists t, (worker_items t).
    split; [by apply workers_lookup | by apply worker_items_insert].
Qed.

Lemma interleaved_last_write sched kvs t i :
  interleave sched workers = Some kvs → (t < T)%nat → (i < D)%nat →
  last_write (key t i) kvs
  = Some (if decide (i = upd t) then "UPDATED_VALUE"%string else val t).
Proof.
  intros Hkvs Ht Hi. unfold last_write.
  rewrite (interleave_filter (λ kv, kv.1 = key t i) sched workers kvs t Hkvs).
  - rewrite (proj2 (workers_lookup t _) (conj Ht eq_refl)). cbn [from_option id].
    unfold worker_items. rewrite filter_app, filter_cons, filter_nil. cbn [fst].
    destruct (decide (i = upd t)) as [->|Hne].
    + rewrite decide_True by done. by rewrite last_snoc.
    + rewrite decide_False by (intros [_ ?]%key_inj; auto). rewrite app_nil_r.
      set (l := filter _ _).
      assert (Hin : (key t i, val t) ∈ l).
      { apply list_elem_of_filter. split; [done|].
        apply list_elem_of_fmap. exists i. split; [done|]. apply elem_of_seq. lia. }
      destruct (last l) as [[k v]|] eqn:Hlast.
      * apply last_Some_elem_of, list_elem_of_filter in Hlast as [_ Hlast].
        apply list_elem_of_fmap in Hlast as (j & [= -> ->] & _). done.
      * apply last_None in Hlast. rewrite Hlast in Hin. by apply elem_of_nil in Hin.
  - intros t' xs [k v] [Ht' ->]%workers_lookup Hin Hk. cbn [fst] in Hk.
    apply worker_items_elem in Hin as (j & Hj & -> & _).
    by apply key_inj in Hk as [-> _].
Qed.

(** C9, as the code has it. [T] threads, each inserting its [D] keys and
    then upserting one of them again, no key shared between threads, on a
    store created with a capacity whose byte count fits [size_t]: whatever
    the order in which the main mutex lets the calls through, when all of
    them answer [true], as they do when the library grants every request,
    the store ends with [T * D] entries, each key reads the value of the
    last upsert to it, and the counter shows [T * D + T] modulo
    [UINT_MAX + 1], which is [T * D + T] itself up to [UINT_MAX]. *)
Theorem stress_totals w0 c sched kvs :
  Z.of_nat (size (heap w0)) ≤ SIZE_MAX → 0 ≤ c ≤ MAX_CAPACITY →
  interleave sched workers = Some kvs →
  ∃ p w, store_create c w0 = Some (p, w) ∧
    (faults w0 = [] →
     Z.of_nat (size (heap w0)) + 2 * Z.of_nat (T * D + T) + 1 ≤ SIZE_MAX →
     p ≠ NULL) ∧
    (p = NULL ∨
     ∃ rs p' w' st',
       session (upserts kvs) p w = Some ((rs, p'), w') ∧
       table w' p' = Some st' ∧
       (faults w0 = [] →
        Z.of_nat (size (heap w0)) + 2 * Z.of_nat (T * D + T) + 1 ≤ SIZE_MAX →
        Forall (λ r, r = Done true) rs) ∧
       (Forall (λ r, r = Done true) rs →
        item_count st' = Z.of_nat (T * D) ∧
        add_count st' = uint_wrap (Z.of_nat (T * D + T)) ∧
        (Z.of_nat (T * D + T) ≤ UINT_MAX → add_count st' = Z.of_nat (T * D + T)) ∧
        ∀ t i, (t < T)%nat → (i < D)%nat →
          ∃ q, store_get_value p' (Some (key t i)) w' = Some (q, w') ∧
               text (heap w') q
               = Some (if decide (i = upd t) then "UPDATED_VALUE"%string else val t))).
Proof.
  intros Hsize Hc Hkvs. destruct (create_spec w0 c Hsize Hc) as (p & w & Hrun & Hp).
  assert (Hcalls : length kvs = (T * D + T)%nat).
  { by rewrite (interleave_length _ _ _ Hkvs), workers_total. }
  exists p, w. split; [done|].
  split.
  { intros Hfs Hroom. apply (created_upserts_granted w0 c kvs p w Hfs); [|done..].
    by rewrite Hcalls. }
  destruct p as [|a|]; [by left| |done]. right.
  destruct Hp as (_ & Hh & Hw).
  set (st := mkStore 0 0 (if c =? 0 then 8 else c)
                     (replicate (Z.to_nat (if c =? 0 then 8 else c)) wild_pair)) in *.
  assert (Hst : table w (Ptr a) = Some st).
  { apply table_heap. rewrite Hh. apply lookup_insert_eq. }
  destruct (session_spec (upserts kvs) w a st Hw Hst)
    as (rs & a' & w' & st' & Hsession & Hst' & Hw' & Hlrs & Hadd & Hes & _).
  exists rs, (Ptr a'), w', st'. do 2 (split; [done|]).
  split.
  { intros Hfs Hroom. eapply (created_upserts_granted w0 c kvs); [done| |done..].
    by rewrite Hcalls. }
  intros Hrs.
  assert (Hlen : length rs = length kvs).
  { rewrite Hlrs. unfold upserts. apply length_map. }
  assert (Hfinal : entries (heap w') st' = upsert_all kvs []).
  { rewrite Hes. change (entries (heap w) st) with (@nil (string * string)).
    by apply replay_upsert_all. }
  assert (Hcount : add_count st' = uint_wrap (Z.of_nat (T * D + T))).
  { rewrite Hadd, (successes_all rs Hrs), Hlen, Hcalls. cbn [add_count st].
    by rewrite Z.add_0_l. }
  pose proof Hw' as (_ & st0 & ? & Hwf'). assert (st0 = st') by congruence. subst st0.
  split; [|split; [done|split]].
  - rewrite <- (entries_length _ _ Hwf'), <- worker_keys_length. f_equal.
    rewrite <- (length_fmap fst (entries (heap w') st')).
    apply Permutation_length, NoDup_Permutation; [apply Hwf'|done|].
    intros k. rewrite Hfinal, elem_of_keys_upsert_all, (interleaved_keys sched kvs k Hkvs).
    cbn. rewrite elem_of_nil. tauto.
  - intros Hmax. rewrite Hcount. apply uint_wrap_small. lia.
  - intros t i Ht Hi. destruct (get_value_spec w' a' st' (key t i) Hw' Hst') as [Hget Htext].
    exists (value_pointer (heap w') st' (key t i)). split; [done|].
    rewrite Htext, Hfinal, assoc_upsert_all.
    by rewrite (interleaved_last_write sched kvs t i Hkvs Ht Hi).
Qed.
End harness.

Lemma stress_totals_witness :
  ∃ p w, store_create 10 empty_world = Some (p, w) ∧
    (faults empty_world = [] →
     Z.of_nat (size (heap empty_world)) + 2 * Z.of_nat (4 * 100 + 4) + 1 ≤ SIZE_MAX →
     p ≠ NULL) ∧
    (p = NULL ∨
     ∃ rs p' w' st',
       session (upserts round_robin_items) p w = Some ((rs, p'), w') ∧
       table w' p' = Some st' ∧
       (faults empty_world = [] →
        Z.of_nat (size (heap empty_world)) + 2 * Z.of_nat (4 * 100 + 4) + 1 ≤ SIZE_MAX →
        Forall (λ r, r = Done true) rs) ∧
       (Forall (λ r, r = Done true) rs →
        item_count st' = 400 ∧
        add_count st' = uint_wrap 404 ∧
        (404 ≤ UINT_MAX → add_count st' = 404) ∧
        ∀ t i, (t < 4)%nat → (i < 100)%nat →
          ∃ q, store_get_value p' (Some (thread_key t i)) w' = Some (q, w') ∧
               text (heap w') q
               = Some (if decide (i = 0%nat) then "UPDATED_VALUE"%string
                       else thread_value t))).
Proof.
  apply (stress_totals NUM_THREADS ITEMS_PER_THREAD thread_key thread_value updated_item
           ltac:(compute_done)
           ltac:(intros t; unfold updated_item, ITEMS_PER_THREAD; lia)
           empty_world 10 round_robin);
    compute_done.
Defined.

(** C9 as stated fails: two threads with [INT_MAX] keys each, formatted as
    [worker_thread] does, make [UINT_MAX + 1] calls, which all answer
    [true] when every request is granted, and end with a counter of 0, not
    [T * D + T]. *)
Lemma stress_counter_wraps :
  ∃ (D : nat) sched kvs w rs p' w' st',
    Z.of_nat D = INT_MAX ∧
    NoDup (worker_keys 2 D thread_key) ∧ (∀ t, (updated_item t < D)%nat) ∧
    interleave sched (workers 2 D thread_key thread_value updated_item) = Some kvs ∧
    store_create 10 empty_world = Some (Ptr 1, w) ∧
    session (upserts kvs) (Ptr 1) w = Some ((rs, p'), w') ∧
    Forall (λ r, r = Done true) rs ∧
    table w' p' = Some st' ∧
    Z.of_nat (2 * D + 2) = 4294967296 ∧ add_count st' = 0.
Proof.
  destruct two_threads_wrap
    as (D & sched & kvs & w & rs & p' & w' & st' & HD & Hkvs & Hcreate & Hrun & Hrs
        & Hst' & Hadd).
  exists D, sched, kvs, w, rs, p', w', st'. unfold INT_MAX in *.
  split; [done|]. split; [apply worker_keys_NoDup, thread_key_inj|].
  split; [intros t; unfold updated_item; lia|].
  do 5 (split; [done|]). split; [lia|done].
Qed.

(** The source's [main] with the threads taking turns and every request
    granted: 400 items, counter 404, both values as expected, and no block
    left live at exit. *)
Example main_round_robin :
  main round_robin empty_world
  = Some (Some (400, 404, "value_from_thread_1"%string, "UPDATED_VALUE"%string), empty_world).
Proof. vm_compute. reflexivity. Qed.

(** * Further properties of kv_store.c *)

(** X1. A store's whole life gives back every block: [store_create] with a
    capacity whose byte count fits [size_t], any calls on the store, however
    they end, then [store_destroy] leave the heap exactly as it was before
    the store was created. *)
Theorem destroy_frees_all w0 c cs :
  Z.of_nat (size (heap w0)) ≤ SIZE_MAX → 0 ≤ c ≤ MAX_CAPACITY →
  ∃ p w, store_create c w0 = Some (p, w) ∧
    (p = NULL ∧ heap w = heap w0 ∨
     ∃ rs p' w' w'',
       session cs p w = Some ((rs, p'), w') ∧
       store_destroy p' w' = Some ((), w'') ∧
       heap w'' = heap w0).
Proof.
  intros Hsize Hc. destruct (create_spec w0 c Hsize Hc) as (p & w & Hrun & Hp).
  exists p, w. split; [done|]. destruct p as [|a|]; [by left| |done]. right.
  destruct Hp as (Ha & Hh & Hw). pose proof Hw as (_ & st & Hst & _).
  assert (Hout0 : outside (heap w) a st = heap w0).
  { apply table_heap in Hst. rewrite Hh, lookup_insert_eq in Hst. injection Hst as <-.
    rewrite Hh. by apply outside_created. }
  destruct (session_frame cs w a st Hw Hst) as (rs & a' & w' & st' & Hsession & Hst' & Hw' & Hout).
  destruct (destroy_spec w' a' st' Hw' Hst') as (w'' & Hdestroy & Hgone).
  exists rs, (Ptr a'), w', w''. do 2 (split; [done|]).
  rewrite <- Hout0, <- Hout. apply map_eq. intros x. by rewrite Hgone, outside_lookup.
Qed.

Lemma destroy_frees_all_witness :
  ∃ p w, store_create 2 empty_world = Some (p, w) ∧
    (p = NULL ∧ heap w = heap empty_world ∨
     ∃ rs p' w' w'',
       session [Upsert "a" "1"; Upsert "b" "2"; Upsert "a" "3"; Lookup "b"; Upsert "c" "4"]
               p w = Some ((rs, p'), w') ∧
       store_destroy p' w' = Some ((), w'') ∧
       heap w'' = heap empty_world).
Proof. apply (destroy_frees_all empty_world 2); compute_done. Defined.

(** X2. At every moment of the life of a store created with a capacity
    whose byte count fits [size_t], the heap holds, beyond what it held
    before [store_create], one block for the table and two for each entry:
    calls that fail, updates and growth leave no block behind. *)
Theorem blocks_match_entries w0 c cs :
  Z.of_nat (size (heap w0)) ≤ SIZE_MAX → 0 ≤ c ≤ MAX_CAPACITY →
  ∃ p w, store_create c w0 = Some (p, w) ∧
    (p = NULL ∨
     ∃ rs p' w' st',
       session cs p w = Some ((rs, p'), w') ∧
       table w' p' = Some st' ∧
       Z.of_nat (size (heap w')) = Z.of_nat (size (heap w0)) + 1 + 2 * item_count st').
Proof.
  intros Hsize Hc. destruct (create_spec w0 c Hsize Hc) as (p & w & Hrun & Hp).
  exists p, w. split; [done|]. destruct p as [|a|]; [by left| |done]. right.
  destruct Hp as (Ha & Hh & Hw). pose proof Hw as (_ & st & Hst & _).
  assert (Hout0 : outside (heap w) a st = heap w0).
  { apply table_heap in Hst. rewrite Hh, lookup_insert_eq in Hst. injection Hst as <-.
    rewrite Hh. by apply outside_created. }
  destruct (session_frame cs w a st Hw Hst) as (rs & a' & w' & st' & Hsession & Hst' & Hw' & Hout).
  exists rs, (Ptr a'), w', st'. do 2 (split; [done|]).
  destruct Hw' as (_ & st0 & ? & Hwf'). assert (st0 = st') by congruence. subst st0.
  rewrite (outside_size (heap w') a' st') by (by apply table_heap || done). congruence.
Qed.

Lemma blocks_match_entries_witness :
  ∃ p w, store_create 2 (mkWorld ∅ [Grant; Grant; Grant; Deny]) = Some (p, w) ∧
    (p = NULL ∨
     ∃ rs p' w' st',
       session [Upsert "a" "1"; Upsert "b" "2"; Upsert "a" "3"; Upsert "c" "4"]
               p w = Some ((rs, p'), w') ∧
       table w' p' = Some st' ∧
       Z.of_nat (size (heap w')) = Z.of_nat (size (∅ : gmap positive block)) + 1
                                   + 2 * item_count st').
Proof.
  apply (blocks_match_entries (mkWorld ∅ [Grant; Grant; Grant; Deny]) 2); compute_done.
Defined.

(** X3. [store_add_or_update_item] changes [*store_ptr] only when the key is
    absent and the store is full.  When it does, the old address no longer
    holds a store: a lookup, an upsert or a destroy through a copy of the
    old pointer is undefined. *)
Theorem relocation_strands_old_pointer w a st k v :
  wf w (Ptr a) → table w (Ptr a) = Some st →
  ∃ b a' w',
    store_add_or_update_item (Some (Ptr a)) (Some k) (Some v) w
      = Some ((b, Some (Ptr a')), w') ∧
    (item_count st < capacity st ∨ k ∈ keys (heap w) st → a' = a) ∧
    (a' ≠ a →
       (∀ k', store_get_value (Ptr a) (Some k') w' = None) ∧
       (∀ k' v', store_add_or_update_item (Some (Ptr a)) (Some k') (Some v') w' = None) ∧
       store_destroy (Ptr a) w' = None).
Proof.
  intros Hw Hst.
  destruct (upsert_frame w a st k v Hw Hst)
    as (b & a' & w' & st' & Hrun & _ & _ & Ha' & Hgone & _).
  exists b, a', w'. split; [done|]. split.
  - intros Hcase. destruct Ha' as [?|[Hfull Hnin]]; [done|].
    destruct Hcase; [lia|done].
  - intros Hne. by apply stale_pointer, Hgone.
Qed.

Lemma relocation_strands_old_pointer_witness :
  ∃ b a' w',
    store_add_or_update_item (Some (Ptr 1)) (Some "c"%string) (Some "3"%string)
      (mkWorld (heap full_world) [])
      = Some ((b, Some (Ptr a')), w') ∧
    (item_count full_store < capacity full_store
     ∨ "c"%string ∈ keys (heap (mkWorld (heap full_world) [])) full_store → a' = 1%positive) ∧
    (a' ≠ 1%positive →
       (∀ k', store_get_value (Ptr 1) (Some k') w' = None) ∧
       (∀ k' v', store_add_or_update_item (Some (Ptr 1)) (Some k') (Some v') w' = None) ∧
       store_destroy (Ptr 1) w' = None).
Proof.
  apply (relocation_strands_old_pointer (mkWorld (heap full_world) []) 1 full_store "c" "3");
    [concrete_wf | compute_done].
Defined.

(** X4. A pointer [store_get_value] answered for a key stays good across
    upserts of other keys, and across upserts that fail: the next lookup of
    that key answers the same pointer, and it still leads to the same
    string, also when the upsert moved the table. *)
Theorem upsert_keeps_other_values w a st k v :
  wf w (Ptr a) → table w (Ptr a) = Some st →
  ∃ b a' w',
    store_add_or_update_item (Some (Ptr a)) (Some k) (Some v) w
      = Some ((b, Some (Ptr a')), w') ∧
    ∀ k', b = false ∨ k' ≠ k →
      ∃ q, store_get_value (Ptr a) (Some k') w = Some (q, w) ∧
           store_get_value (Ptr a') (Some k') w' = Some (q, w') ∧
           text (heap w') q = text (heap w) q.
Proof.
  intros Hw Hst.
  destruct (upsert_frame w a st k v Hw Hst)
    as (b & a' & w' & st' & Hrun & Hst' & _ & _ & _ & _ & Hptr).
  destruct (upsert_spec w a st k v Hw Hst) as (b0 & a0 & w0 & st0 & Hrun0 & Hst0 & Hw' & Hpost).
  assert (b0 = b ∧ a0 = a' ∧ w0 = w') as (-> & -> & ->) by (repeat split; congruence).
  assert (st0 = st') by congruence. subst st0.
  exists b, a', w'. split; [done|]. intros k' Hk'.
  destruct (get_value_spec w a st k' Hw Hst) as [Hget Htext].
  destruct (get_value_spec w' a' st' k' Hw' Hst') as [Hget' Htext'].
  assert (Heq : value_pointer (heap w') st' k' = value_pointer (heap w) st k').
  { apply Hptr. intros ->. by destruct Hk'. }
  exists (value_pointer (heap w) st k'). split; [done|]. split; [by rewrite <- Heq|].
  rewrite <- Heq at 1. rewrite Htext, Htext', (post_entries _ _ _ _ _ _ _ Hpost).
  destruct b; [|done]. rewrite assoc_upsert_entries, decide_False; [done|].
  intros ->. by destruct Hk'.
Qed.

Lemma upsert_keeps_other_values_witness :
  ∃ b a' w',
    store_add_or_update_item (Some (Ptr 1)) (Some "c"%string) (Some "3"%string)
      (mkWorld (heap full_world) [])
      = Some ((b, Some (Ptr a')), w') ∧
    ∀ k', b = false ∨ k' ≠ "c"%string →
      ∃ q, store_get_value (Ptr 1) (Some k') (mkWorld (heap full_world) [])
             = Some (q, mkWorld (heap full_world) []) ∧
           store_get_value (Ptr a') (Some k') w' = Some (q, w') ∧
           text (heap w') q = text (heap (mkWorld (heap full_world) [])) q.
Proof.
  apply (upsert_keeps_other_values (mkWorld (heap full_world) []) 1 full_store "c" "3");
    [concrete_wf | compute_done].
Defined.

(** X5. What an upsert stored, a lookup reads: after
    [store_add_or_update_item(&s, k, v)] answered [true],
    [store_get_value(s, k)] answers a pointer to a string equal to [v]. *)
Theorem lookup_after_upsert w a st k v :
  wf w (Ptr a) → table w (Ptr a) = Some st →
  ∃ b a' w',
    store_add_or_update_item (Some (Ptr a)) (Some k) (Some v) w
      = Some ((b, Some (Ptr a')), w') ∧
    (b = true →
     ∃ q, store_get_value (Ptr a') (Some k) w' = Some (q, w') ∧
          text (heap w') q = Some v).
Proof.
  intros Hw Hst.
  destruct (upsert_spec w a st k v Hw Hst) as (b & a' & w' & st' & Hrun & Hst' & Hw' & Hpost).
  exists b, a', w'. split; [done|]. intros ->.
  destruct (get_value_spec w' a' st' k Hw' Hst') as [Hget Htext].
  eexists. split; [done|].
  rewrite Htext, (post_entries _ _ _ _ _ _ _ Hpost), assoc_upsert_entries.
  by rewrite decide_True.
Qed.

Lemma lookup_after_upsert_witness :
  ∃ b a' w',
    store_add_or_update_item (Some (Ptr 1)) (Some "a"%string) (Some "9"%string) full_world
      = Some ((b, Some (Ptr a')), w') ∧
    (b = true →
     ∃ q, store_get_value (Ptr a') (Some "a"%string) w' = Some (q, w') ∧
          text (heap w') q = Some "9"%string).
Proof.
  apply (lookup_after_upsert full_world 1 full_store "a" "9"); [concrete_wf | compute_done].
Defined.

(** X6. The last writer wins: after a run of upserts that all answered
    [true], a lookup of [k] reads the value of the last upsert of the run to
    [k], and what it read before the run when the run has none. *)
Theorem last_upsert_wins w a st kvs k :
  wf w (Ptr a) → table w (Ptr a) = Some st →
  ∃ rs a' w' q0 q,
    session (upserts kvs) (Ptr a) w = Some ((rs, Ptr a'), w') ∧
    store_get_value (Ptr a) (Some k) w = Some (q0, w) ∧
    store_get_value (Ptr a') (Some k) w' = Some (q, w') ∧
    (Forall (λ r, r = Done true) rs →
     text (heap w') q
     = match last_write k kvs with Some v => Some v | None => text (heap w) q0 end).
Proof.
  intros Hw Hst.
  destruct (session_spec (upserts kvs) w a st Hw Hst)
    as (rs & a' & w' & st' & Hrun & Hst' & Hw' & Hlen & _ & Hes & _).
  destruct (get_value_spec w a st k Hw Hst) as [Hget Htext].
  destruct (get_value_spec w' a' st' k Hw' Hst') as [Hget' Htext'].
  eexists rs, a', w', _, _. do 3 (split; [done|]). intros Hrs.
  rewrite Htext', Htext, Hes, replay_upsert_all; [apply assoc_upsert_all|done|].
  rewrite Hlen. unfold upserts. apply length_map.
Qed.

Lemma last_upsert_wins_witness :
  ∃ rs a' w' q0 q,
    session (upserts [("a", "7"); ("c", "3"); ("a", "8")]%string) (Ptr 1)
            (mkWorld (heap full_world) [])
      = Some ((rs, Ptr a'), w') ∧
    store_get_value (Ptr 1) (Some "a"%string) (mkWorld (heap full_world) [])
      = Some (q0, mkWorld (heap full_world) []) ∧
    store_get_value (Ptr a') (Some "a"%string) w' = Some (q, w') ∧
    (Forall (λ r, r = Done true) rs →
     text (heap w') q
     = match last_write "a" [("a", "7"); ("c", "3"); ("a", "8")]%string with
       | Some v => Some v
       | None => text (heap (mkWorld (heap full_world) [])) q0
       end).
Proof.
  apply (last_upsert_wins (mkWorld (heap full_world) []) 1 full_store);
    [concrete_wf | compute_done].
Defined.

(** X7. After [store_destroy] the store is gone: every pointer it owned
    dangles, and a lookup, an upsert or a second destroy through the old
    pointer is undefined. *)
Theorem destroyed_store_is_gone w a st :
  wf w (Ptr a) → table w (Ptr a) = Some st →
  ∃ w', store_destroy (Ptr a) w = Some ((), w') ∧
    (∀ q, q ∈ owned (live st) → text (heap w') q = None) ∧
    (∀ k, store_get_value (Ptr a) (Some k) w' = None) ∧
    (∀ k v, store_add_or_update_item (Some (Ptr a)) (Some k) (Some v) w' = None) ∧
    store_destroy (Ptr a) w' = None.
Proof.
  intros Hw Hst. destruct (destroy_spec w a st Hw Hst) as (w' & Hrun & Hgone).
  exists w'. split; [done|]. split.
  - intros q Hq. destruct Hw as (_ & st0 & ? & Hwf). assert (st0 = st) by congruence.
    subst st0. destruct (owned_pointers _ _ _ Hwf Hq) as (x & s & -> & _).
    cbn [text]. by rewrite Hgone, decide_True by auto.
  - apply stale_pointer. cbn [table]. by rewrite Hgone, decide_True by auto.
Qed.

Lemma destroyed_store_is_gone_witness :
  ∃ w', store_destroy (Ptr 1) full_world = Some ((), w') ∧
    (∀ q, q ∈ owned (live full_store) → text (heap w') q = None) ∧
    (∀ k, store_get_value (Ptr 1) (Some k) w' = None) ∧
    (∀ k v, store_add_or_update_item (Some (Ptr 1)) (Some k) (Some v) w' = None) ∧
    store_destroy (Ptr 1) w' = None.
Proof. apply (destroyed_store_is_gone full_world 1 full_store); [concrete_wf | compute_done]. Defined.

(** X8. [store_add_or_update_item] fails for want of memory only: when the
    library refuses no request and two addresses are left, it answers
    [true]. *)
Theorem upsert_fails_only_when_refused w a st k v :
  wf w (Ptr a) → table w (Ptr a) = Some st →
  faults w = [] → Z.of_nat (size (heap w)) + 2 ≤ SIZE_MAX →
  ∃ a' w',
    store_add_or_update_item (Some (Ptr a)) (Some k) (Some v) w
      = Some ((true, Some (Ptr a')), w') ∧
    faults w' = [].
Proof.
  intros Hw Hst Hfs Hroom.
  destruct (upsert_spec w a st k v Hw Hst) as (b & a' & w' & st' & Hrun & _).
  destruct (upsert_room w a st k v b _ w' Hw Hst Hrun) as [_ Hgranted].
  destruct (Hgranted Hfs Hroom) as [-> Hfs']. by exists a', w'.
Qed.

Lemma upsert_fails_only_when_refused_witness :
  ∃ a' w',
    store_add_or_update_item (Some (Ptr 1)) (Some "k"%string) (Some "w"%string) saturated_world
      = Some ((true, Some (Ptr a')), w') ∧
    faults w' = [].
Proof.
  apply (upsert_fails_only_when_refused saturated_world 1 saturated_store "k" "w");
    [concrete_wf | compute_done | compute_done | compute_done].
Defined.

(** X9. The capacity of a store is its initial capacity, one whose byte
    count fits [size_t], times a power of two, and beyond the initial
    capacity it never exceeds twice the number of entries. *)
Theorem capacity_stays_tight w0 c cs :
  Z.of_nat (size (heap w0)) ≤ SIZE_MAX → 0 ≤ c ≤ MAX_CAPACITY →
  ∃ p w, store_create c w0 = Some (p, w) ∧
    (p = NULL ∨
     ∃ rs p' w' st',
       session cs p w = Some ((rs, p'), w') ∧
       table w' p' = Some st' ∧
       (∃ n : nat, capacity st' = (if c =? 0 then 8 else c) * 2 ^ Z.of_nat n) ∧
       (capacity st' = (if c =? 0 then 8 else c) ∨ capacity st' ≤ 2 * item_count st')).
Proof.
  intros Hsize Hc. destruct (create_spec w0 c Hsize Hc) as (p & w & Hrun & Hp).
  exists p, w. split; [done|]. destruct p as [|a|]; [by left| |done]. right.
  destruct Hp as (Ha & Hh & Hw). pose proof Hw as (_ & st & Hst & _).
  assert (Hcap : capacity st = if c =? 0 then 8 else c).
  { apply table_heap in Hst. rewrite Hh, lookup_insert_eq in Hst. by injection Hst as <-. }
  destruct (session_capacity cs w a st (if c =? 0 then 8 else c) Hw Hst)
    as (rs & a' & w' & st' & Hsession & Hst' & Hpow & Htight).
  - exists 0%nat. rewrite Hcap. lia.
  - by left.
  - by exists rs, (Ptr a'), w', st'.
Qed.

Lemma capacity_stays_tight_witness :
  ∃ p w, store_create 0 empty_world = Some (p, w) ∧
    (p = NULL ∨
     ∃ rs p' w' st',
       session (upserts ((λ i : nat, (pretty i, "v"%string)) <$> seq 0 20)) p w
         = Some ((rs, p'), w') ∧
       table w' p' = Some st' ∧
       (∃ n : nat, capacity st' = 8 * 2 ^ Z.of_nat n) ∧
       (capacity st' = 8 ∨ capacity st' ≤ 2 * item_count st')).
Proof. apply (capacity_stays_tight empty_world 0); compute_done. Defined.

(** X10. The length of a store counts keys, not calls: after a run of
    upserts that all answered [true] on a fresh store, created with a
    capacity whose byte count fits [size_t], [item_count] is the number of
    distinct keys of the run. *)
Theorem length_counts_distinct_keys w0 c kvs :
  Z.of_nat (size (heap w0)) ≤ SIZE_MAX → 0 ≤ c ≤ MAX_CAPACITY →
  ∃ p w, store_create c w0 = Some (p, w) ∧
    (p = NULL ∨
     ∃ rs p' w' st',
       session (upserts kvs) p w = Some ((rs, p'), w') ∧
       table w' p' = Some st' ∧
       (Forall (λ r, r = Done true) rs →
        item_count st' = Z.of_nat (size (list_to_set kvs.*1 : gset string)))).
Proof.
  intros Hsize Hc. destruct (create_spec w0 c Hsize Hc) as (p & w & Hrun & Hp).
  exists p, w. split; [done|]. destruct p as [|a|]; [by left| |done]. right.
  destruct Hp as (Ha & Hh & Hw). pose proof Hw as (_ & st & Hst & _).
  assert (Hes0 : entries (heap w) st = []).
  { apply table_heap in Hst. rewrite Hh, lookup_insert_eq in Hst. by injection Hst as <-. }
  destruct (session_spec (upserts kvs) w a st Hw Hst)
    as (rs & a' & w' & st' & Hsession & Hst' & Hw' & Hlen & _ & Hes & _).
  exists rs, (Ptr a'), w', st'. do 2 (split; [done|]). intros Hrs.
  destruct Hw' as (_ & st0 & ? & Hwf'). assert (st0 = st') by congruence. subst st0.
  rewrite Hes0, replay_upsert_all in Hes; [|done|rewrite Hlen; apply length_map].
  rewrite <- (entries_length _ _ Hwf'), <- (length_fmap fst). f_equal.
  rewrite <- (size_list_to_set (C := gset string)) by apply Hwf'. f_equal.
  apply set_eq. intros k. rewrite !elem_of_list_to_set. unfold keys.
  rewrite Hes, elem_of_keys_upsert_all. cbn. rewrite elem_of_nil. tauto.
Qed.

Lemma length_counts_distinct_keys_witness :
  ∃ p w, store_create 2 empty_world = Some (p, w) ∧
    (p = NULL ∨
     ∃ rs p' w' st',
       session (upserts [("a", "1"); ("b", "2"); ("a", "3"); ("b", "4"); ("c", "5")]%string)
               p w = Some ((rs, p'), w') ∧
       table w' p' = Some st' ∧
       (Forall (λ r, r = Done true) rs →
        item_count st'
        = Z.of_nat (size (list_to_set
                            [("a", "1"); ("b", "2"); ("a", "3"); ("b", "4"); ("c", "5")]%string.*1
                          : gset string)))).
Proof. apply (length_counts_distinct_keys empty_world 2); compute_done. Defined.

(** X11. Entries stay, in the order they were inserted: whatever calls are
    made on a store, the keys it held before them are the first keys it
    holds after them, in the same order. *)
Theorem keys_keep_insertion_order w a st cs :
  wf w (Ptr a) → table w (Ptr a) = Some st →
  ∃ rs p' w' st',
    session cs (Ptr a) w = Some ((rs, p'), w') ∧
    table w' p' = Some st' ∧
    keys (heap w) st `prefix_of` keys (heap w') st'.
Proof.
  intros Hw Hst.
  destruct (session_spec cs w a st Hw Hst)
    as (rs & a' & w' & st' & Hrun & Hst' & _ & _ & _ & Hes & _).
  exists rs, (Ptr a'), w', st'. do 2 (split; [done|]).
  unfold keys. rewrite Hes. apply keys_replay.
Qed.

Lemma keys_keep_insertion_order_witness :
  ∃ rs p' w' st',
    session [Upsert "c" "3"; Upsert "a" "9"; Lookup "b"; Upsert "d" "4"] (Ptr 1)
            (mkWorld (heap full_world) [])
      = Some ((rs, p'), w') ∧
    table w' p' = Some st' ∧
    keys (heap (mkWorld (heap full_world) [])) full_store `prefix_of` keys (heap w') st'.
Proof.
  apply (keys_keep_insertion_order (mkWorld (heap full_world) []) 1 full_store);
    [concrete_wf | compute_done].
Defined.

(** X12. Memory safety: on a store obtained by upserts and lookups from a
    [store_create] whose byte count fits [size_t], no call is undefined,
    whatever the library refuses: an
    upsert, a lookup and [store_destroy] never read a slot of the array that
    was not written, never index it out of bounds, never follow or free a
    pointer that is not live. *)
Theorem calls_are_defined w p :
  reachable w p →
  (∀ c, is_Some (perform c p w)) ∧ is_Some (store_destroy p w).
Proof.
  intros (a & -> & Hw)%reachable_wf. pose proof Hw as (_ & st & Hst & _). split.
  - intros c. destruct (perform_spec c w a st Hw Hst) as (r & a' & w' & st' & Hrun & _).
    by rewrite Hrun.
  - destruct (destroy_spec w a st Hw Hst) as (w' & Hrun & _). by rewrite Hrun.
Qed.

Lemma reached_world_reachable :
  reachable (mkWorld (heap created_world) [InPlace; Deny]) (Ptr 1).
Proof.
  apply (reachable_call (mkWorld (heap created_world) [Grant; Deny; InPlace; Deny])
           (Ptr 1) (Upsert "a" "1") (Done false) (Ptr 1));
    [|by vm_compute].
  apply (reachable_create (mkWorld ∅ [Grant; Grant; Grant; Deny; InPlace; Deny]) 2 1);
    by vm_compute.
Qed.

Lemma calls_are_defined_witness :
  (∀ c, is_Some (perform c (Ptr 1) (mkWorld (heap created_world) [InPlace; Deny]))) ∧
  is_Some (store_destroy (Ptr 1) (mkWorld (heap created_world) [InPlace; Deny])).
Proof. apply (calls_are_defined _ (Ptr 1)), reached_world_reachable. Defined.

(** * Further properties of the harness *)

(** X13. The keys [worker_thread] formats are pairwise distinct, whatever
    the number of threads and of items per thread: no key is shared between
    threads, nor used twice by one. *)
Theorem thread_keys_distinct T D : NoDup (worker_keys T D thread_key).
Proof. apply worker_keys_NoDup, thread_key_inj. Qed.

(** X14. The strings [worker_thread] formats fit its 64-byte buffers, the
    terminating NUL included, for every thread id and item number an [int]
    can hold: [snprintf] never truncates a key or a value. *)
Theorem thread_strings_fit t i :
  Z.of_nat t ≤ INT_MAX → Z.of_nat i ≤ INT_MAX →
  (String.length (thread_key t i) < 64)%nat ∧ (String.length (thread_value t) < 64)%nat.
Proof.
  intros Ht Hi. unfold thread_key, thread_value, INT_MAX in *.
  rewrite !string_length_app.
  pose proof (pretty_nat_length 10 t ltac:(lia) ltac:(lia)).
  pose proof (pretty_nat_length 10 i ltac:(lia) ltac:(lia)).
  cbn [String.length]. lia.
Qed.

Lemma thread_strings_fit_witness :
  (String.length (thread_key 3 99) < 64)%nat ∧ (String.length (thread_value 3) < 64)%nat.
Proof. apply (thread_strings_fit 3 99); by vm_compute. Defined.

(** What a run of the harness leaves in a store that was empty, when every
    call answered [true]. *)
Lemma harness_outcome T D key val upd sched kvs w a st rs a' w' st' :
  NoDup (worker_keys T D key) → (∀ t, (upd t < D)%nat) →
  wf w (Ptr a) → table w (Ptr a) = Some st →
  entries (heap w) st = [] → add_count st = 0 →
  interleave sched (workers T D key val upd) = Some kvs →
  session (upserts kvs) (Ptr a) w = Some ((rs, Ptr a'), w') →
  table w' (Ptr a') = Some st' →
  Forall (λ r, r = Done true) rs →
  item_count st' = Z.of_nat (T * D) ∧
  add_count st' = uint_wrap (Z.of_nat (T * D + T)) ∧
  ∀ t i, (t < T)%nat → (i < D)%nat →
    text (heap w') (value_pointer (heap w') st' (key t i))
    = Some (if decide (i = upd t) then "UPDATED_VALUE"%string else val t).
Proof.
  intros Hnd Hown Hw Hst Hes0 Hadd0 Hkvs Hrun Hst' Hrs.
  destruct (session_spec (upserts kvs) w a st Hw Hst)
    as (rs1 & a1 & w1 & st1 & Hrun1 & Hst1 & Hw' & Hlrs & Hadd & Hes & _).
  assert (rs1 = rs ∧ a1 = a' ∧ w1 = w') as (-> & -> & ->) by (repeat split; congruence).
  assert (st1 = st') by congruence. subst st1.
  assert (Hlen : length rs = length kvs).
  { rewrite Hlrs. unfold upserts. apply length_map. }
  assert (Hfinal : entries (heap w') st' = upsert_all kvs []).
  { rewrite Hes, Hes0. by apply replay_upsert_all. }
  pose proof Hw' as (_ & st0 & ? & Hwf'). assert (st0 = st') by congruence. subst st0.
  split; [|split].
  - rewrite <- (entries_length _ _ Hwf'), <- (worker_keys_length T D key). f_equal.
    rewrite <- (length_fmap fst (entries (heap w') st')).
    apply Permutation_length, NoDup_Permutation; [apply Hwf'|done|].
    intros k. rewrite Hfinal, elem_of_keys_upsert_all,
      (interleaved_keys T D key val upd Hown sched kvs k Hkvs).
    cbn. rewrite elem_of_nil. tauto.
  - rewrite Hadd, (successes_all rs Hrs), Hlen, (interleave_length _ _ _ Hkvs),
      (workers_total T D key val upd), Hadd0. by rewrite Z.add_0_l.
  - intros t i Ht Hi. destruct (get_value_spec w' a' st' (key t i) Hw' Hst') as [_ ->].
    rewrite Hfinal, assoc_upsert_all.
    by rewrite (interleaved_last_write T D key val upd Hnd Hown sched kvs t i Hkvs Ht Hi).
Qed.

(** X15. [main], in whatever order the threads get to make their calls:
    when the library refuses no request and 809 addresses are left, it
    prints 400 as item count and 404 as counter, finds key_t1_i50 with the
    value of thread 1 and key_t1_i0 updated, returns 0, and has freed every
    block it allocated. *)
Theorem main_reports sched items w :
  faults w = [] → Z.of_nat (size (heap w)) + 809 ≤ SIZE_MAX →
  interleave sched (workers NUM_THREADS ITEMS_PER_THREAD thread_key thread_value updated_item)
  = Some items →
  ∃ w', main sched w
        = Some (Some (400, 404, "value_from_thread_1"%string, "UPDATED_VALUE"%string), w') ∧
        heap w' = heap w.
Proof.
  intros Hfs Hroom Hitems.
  assert (Hsize : Z.of_nat (size (heap w)) ≤ SIZE_MAX) by lia.
  destruct (create_spec w 10 Hsize) as (p & w1 & Hcreate & Hp); [compute_done|].
  destruct (create_granted w 10 p w1 Hfs) as (Hnn & Hfs1 & Hsz1); [lia|done|].
  destruct p as [|a|]; [done| |done]. destruct Hp as (Ha & Hh & Hw1).
  pose proof Hw1 as (_ & st1 & Hst1 & _).
  assert (Hst1' : st1 = mkStore 0 0 10 (replicate 10 wild_pair)).
  { apply table_heap in Hst1. rewrite Hh, lookup_insert_eq in Hst1. by injection Hst1 as <-. }
  assert (Hout1 : outside (heap w1) a st1 = heap w).
  { rewrite Hh, Hst1'. by apply outside_created. }
  destruct (session_frame (upserts items) w1 a st1 Hw1 Hst1)
    as (rs & a' & w2 & st2 & Hsession & Hst2 & Hw2 & Hout).
  assert (Hcalls : length items = 404%nat).
  { rewrite (interleave_length _ _ _ Hitems).
    by rewrite (workers_total NUM_THREADS ITEMS_PER_THREAD thread_key thread_value). }
  assert (Hrs : Forall (λ r, r = Done true) rs).
  { apply (upserts_granted items w1 a st1 rs (Ptr a') w2 Hw1 Hst1 Hfs1); [|done].
    rewrite Hsz1, Hcalls. lia. }
  destruct (harness_outcome NUM_THREADS ITEMS_PER_THREAD thread_key thread_value updated_item
              sched items w1 a st1 rs a' w2 st2) as (Hn & Hc & Hvals); try done.
  { apply worker_keys_NoDup, thread_key_inj. }
  { intros t. unfold updated_item, ITEMS_PER_THREAD. lia. }
  { by rewrite Hst1'. }
  { by rewrite Hst1'. }
  pose proof (Hvals 1%nat 50%nat) as Hv50. pose proof (Hvals 1%nat 0%nat) as Hv0.
  change (thread_key 1 50) with "key_t1_i50"%string in Hv50.
  change (thread_key 1 0) with "key_t1_i0"%string in Hv0.
  change (thread_value 1) with "value_from_thread_1"%string in Hv50.
  destruct (get_value_spec w2 a' st2 "key_t1_i50" Hw2 Hst2) as [Hget50 _].
  destruct (get_value_spec w2 a' st2 "key_t1_i0" Hw2 Hst2) as [Hget0 _].
  destruct (destroy_spec w2 a' st2 Hw2 Hst2) as (w3 & Hdestroy & Hgone).
  exists w3. split.
  - unfold main. rewrite (bind_run _ _ _ _ _ Hcreate).
    rewrite (bind_run _ _ _ _ _ (mtx_init_granted w1 Hfs1)).
    rewrite (bind_run _ _ _ _ _ (start_threads_granted NUM_THREADS w1 Hfs1)).
    rewrite Hitems, (bind_run _ _ _ _ _ Hsession).
    rewrite (bind_run _ _ _ _ _ (load_run a' w2 st2 Hst2)).
    rewrite (bind_run _ _ _ _ _ Hget50), (bind_run _ _ _ _ _ Hget0).
    rewrite (bind_run _ _ _ _ _ (shown_run w2 _ _ (Hv50 ltac:(unfold NUM_THREADS; lia)
                                                        ltac:(unfold ITEMS_PER_THREAD; lia)))).
    rewrite (bind_run _ _ _ _ _ (shown_run w2 _ _ (Hv0 ltac:(unfold NUM_THREADS; lia)
                                                       ltac:(unfold ITEMS_PER_THREAD; lia)))).
    rewrite (bind_run _ _ _ _ _ Hdestroy). unfold ret. rewrite Hn, Hc. done.
  - rewrite <- Hout1, <- Hout. apply map_eq. intros x. by rewrite Hgone, outside_lookup.
Qed.

Lemma main_reports_witness :
  ∃ w', main round_robin empty_world
        = Some (Some (400, 404, "value_from_thread_1"%string, "UPDATED_VALUE"%string), w') ∧
        heap w' = heap empty_world.
Proof.
  apply (main_reports round_robin round_robin_items empty_world); [done|by vm_compute|].
  by vm_compute.
Defined.

(** X16. When [main] returns 1, because the store or the main mutex could
    not be created, it has freed what it allocated. *)
Theorem main_failure_frees_store sched w w' :
  Z.of_nat (size (heap w)) ≤ SIZE_MAX →
  main sched w = Some (None, w') → heap w' = heap w.
Proof.
  intros Hsize. unfold main.
  destruct (create_spec w 10 Hsize) as (p & w1 & Hcreate & Hp); [compute_done|].
  rewrite (bind_run _ _ _ _ _ Hcreate).
  destruct p as [|a|]; [intros [= <-]; done| |done]. destruct Hp as (Ha & Hh & Hw1).
  intros (ok & w2 & Hmtx & Hrest)%bind_inv. apply mtx_init_heap in Hmtx as Hh2.
  destruct ok.
  - apply bind_inv in Hrest as (started & w3 & _ & Hrest).
    destruct started; [|done]. destruct (interleave sched _) as [items|]; [|done].
    apply bind_inv in Hrest as ([rs final_store] & w4 & _ & Hrest).
    destruct final_store; try done.
    do 6 apply bind_inv in Hrest as (? & ? & _ & Hrest). done.
  - pose proof (wf_same_heap w1 w2 (Ptr a) Hh2 Hw1) as Hw2.
    pose proof Hw2 as (_ & st & Hst & _).
    destruct (destroy_spec w2 a st Hw2 Hst) as (w3 & Hdestroy & Hgone).
    rewrite (bind_run _ _ _ _ _ Hdestroy) in Hrest. injection Hrest as <-.
    apply table_heap in Hst. rewrite Hh2, Hh, lookup_insert_eq in Hst. injection Hst as <-.
    apply map_eq. intros x. rewrite Hgone, Hh2, Hh. cbn [live item_count take owned].
    destruct (decide (x = a)) as [->|Hne].
    + by rewrite decide_True by auto.
    + rewrite decide_False, lookup_insert_ne; [done|done|].
      intros [?|?%elem_of_nil]; done.
Qed.

Lemma main_failure_frees_store_witness :
  main round_robin (mkWorld ∅ [Grant; Grant; Deny]) = Some (None, mkWorld ∅ []) ∧
  heap (mkWorld (∅ : gmap positive block) []) = heap (mkWorld ∅ [Grant; Grant; Deny]).
Proof.
  split; [by vm_compute|].
  apply (main_failure_frees_store round_robin (mkWorld ∅ [Grant; Grant; Deny]) (mkWorld ∅ []));
    by vm_compute.
Defined.
